(** * i18next2icu: the translation-tree converter of [src/converter.js]

    A shallow embedding of [convertInterpolation], [parsePluralKey],
    [groupPlurals], [createICUPlural], [convertNesting], [convertValue]
    and [convertTranslations], and the properties of the converter that
    the specification states.

    Conventions of the embedding.

    - A JavaScript string is the byte string of its UTF-8 encoding.  All
      patterns of the converter are made of ASCII characters, and the
      classes [[^}]], [[^)]] and [.] test single characters, so that the
      regular expressions read the same way on bytes; the two line
      terminators U+2028 and U+2029 that [.] refuses are the byte
      sequences E2 80 A8 and E2 80 A9.
    - A JSON number is kept as the text that JavaScript's
      number-to-string conversion renders for it.  The converter only
      passes numbers through, tests them for truthiness and prints them
      in template literals, and all three depend on that text only.
    - A JavaScript object is the list of its own enumerable string-keyed
      properties in the order of [Object.entries]: array-index keys in
      ascending order first, the other keys in order of creation.
    - The module is an ES module, hence strict code: writing a property
      on a primitive raises a [TypeError].  Object literals inherit from
      [Object.prototype], which the converter can read (and write)
      through [pluralGroups]; the properties that it adds there are the
      state that the embedding threads through every call.
    - The call stack is taken to be unbounded: the recursion of the
      converter on nested objects never fails for lack of stack. *)

From Stdlib Require Import String Ascii List Bool Arith Lia NArith.
Import ListNotations.
Local Open Scope list_scope.
Local Open Scope string_scope.

(** ** Strings *)

Module Str.

(** [span_not c s]: the longest prefix of [s] without the character [c],
    and what follows it (the greedy class [[^c]*]). *)
Fixpoint span_not (c : ascii) (s : string) : string * string :=
  match s with
  | EmptyString => (EmptyString, EmptyString)
  | String a s' =>
      if Ascii.eqb a c then (EmptyString, s)
      else let (run, rest) := span_not c s' in (String a run, rest)
  end.

(** [strip_prefix pre s = Some r] when [s = pre ++ r]. *)
Fixpoint strip_prefix (pre s : string) : option string :=
  match pre with
  | EmptyString => Some s
  | String a pre' =>
      match s with
      | EmptyString => None
      | String b s' => if Ascii.eqb a b then strip_prefix pre' s' else None
      end
  end.

(** [strip_suffix suf s = Some b] when [s = b ++ suf]. *)
Fixpoint strip_suffix (suf s : string) : option string :=
  if String.eqb s suf then Some EmptyString
  else match s with
       | EmptyString => None
       | String a s' => option_map (String a) (strip_suffix suf s')
       end.

Fixpoint mem_char (c : ascii) (s : string) : bool :=
  match s with
  | EmptyString => false
  | String a s' => Ascii.eqb a c || mem_char c s'
  end.

(** [Array.prototype.join] on strings. *)
Fixpoint join (sep : string) (parts : list string) : string :=
  match parts with
  | [] => EmptyString
  | [x] => x
  | x :: rest => x ++ sep ++ join sep rest
  end.

Definition is_empty (s : string) : bool :=
  match s with EmptyString => true | _ => false end.

End Str.

(** ** [String.prototype.replace] with a global regular expression

    The engine tries the pattern at the current position; on a match it
    emits the replacement and resumes right after the match, otherwise it
    copies one character and moves on.  [matcher s] is the match of the
    pattern at the head of [s]: the captured group and the text after
    the match.  The fuel bounds the number of steps; [S (length s)] is
    always enough because every step consumes a character. *)

Section Replace.

Variable matcher : string -> option (string * string).
Variable template : string -> string.

Fixpoint replace_fuel (fuel : nat) (s : string) : string :=
  match fuel with
  | O => EmptyString
  | S n =>
      match matcher s with
      | Some (capture, rest) => template capture ++ replace_fuel n rest
      | None =>
          match s with
          | EmptyString => EmptyString
          | String a s' => String a (replace_fuel n s')
          end
      end
  end.

Definition replace_global (s : string) : string :=
  replace_fuel (S (String.length s)) s.

End Replace.

(** ** convertInterpolation *)

(** The pattern [\{\{([^}]+)\}\}] at the head of [s].  The class is
    greedy and cannot give back characters: after a shorter run the next
    character is not a closing brace. *)
Definition match_interpolation (s : string) : option (string * string) :=
  match Str.strip_prefix "{{" s with
  | None => None
  | Some s2 =>
      let (capture, after) := Str.span_not "}" s2 in
      if Str.is_empty capture then None
      else match Str.strip_prefix "}}" after with
           | Some rest => Some (capture, rest)
           | None => None
           end
  end.

(** [text.replace(/\{\{([^}]+)\}\}/g, '{$1}')] for a string [text]. *)
Definition convertInterpolation (text : string) : string :=
  replace_global match_interpolation (fun capture => "{" ++ capture ++ "}") text.

(** ** convertNesting *)

(** The pattern [\$t\(([^)]+)\)] at the head of [s]. *)
Definition match_nesting (s : string) : option (string * string) :=
  match Str.strip_prefix "$t(" s with
  | None => None
  | Some s2 =>
      let (key, after) := Str.span_not ")" s2 in
      if Str.is_empty key then None
      else match Str.strip_prefix ")" after with
           | Some rest => Some (key, rest)
           | None => None
           end
  end.

(** [text.replace(/\$t\(([^)]+)\)/g, (match, key) => `[REF:${key}]`)]. *)
Definition convertNesting (text : string) : string :=
  replace_global match_nesting (fun key => "[REF:" ++ key ++ "]") text.

(** ** parsePluralKey *)

Inductive form : Type := Zero | One | Two | Few | Many | Other.

Definition form_name (f : form) : string :=
  match f with
  | Zero => "zero" | One => "one" | Two => "two"
  | Few => "few" | Many => "many" | Other => "other"
  end.

Definition all_forms : list form := [Zero; One; Two; Few; Many; Other].

Definition form_eqb (f g : form) : bool :=
  match f, g with
  | Zero, Zero | One, One | Two, Two | Few, Few | Many, Many | Other, Other => true
  | _, _ => false
  end.

Definition form_of_string (s : string) : option form :=
  find (fun f => String.eqb (form_name f) s) all_forms.

(** A line terminator, which [.] does not match: LF, CR, U+2028, U+2029. *)
Fixpoint has_line_terminator (s : string) : bool :=
  match s with
  | EmptyString => false
  | String a s' =>
      Ascii.eqb a "010" || Ascii.eqb a "013"
      || match Str.strip_prefix (String "226" (String "128" EmptyString)) s with
         | Some (String b _) => Ascii.eqb b "168" || Ascii.eqb b "169"
         | _ => false
         end
      || has_line_terminator s'
  end.

(** The match of [^(.+)_(zero|one|two|few|many|other)$] with the form
    [f]: the key ends with [_f], and what precedes is a non-empty run of
    characters that [.] accepts. *)
Definition match_form (key : string) (f : form) : option (string * form) :=
  match Str.strip_suffix ("_" ++ form_name f) key with
  | Some baseKey =>
      if Str.is_empty baseKey || has_line_terminator baseKey then None
      else Some (baseKey, f)
  | None => None
  end.

Fixpoint first_match (key : string) (fs : list form) : option (string * form) :=
  match fs with
  | [] => None
  | f :: fs' =>
      match match_form key f with
      | Some r => Some r
      | None => first_match key fs'
      end
  end.

(** [parsePluralKey key]: [Some (baseKey, form)] for the object
    [{ baseKey, form }], [None] for [null]. *)
Definition parsePluralKey (key : string) : option (string * form) :=
  first_match key all_forms.

(** ** Translation trees *)

(** The values of a parsed JSON document (or of a YAML document made of
    mappings, sequences, strings, numbers, booleans and nulls). *)
#[warnings="-register-all"]
Inductive value : Type :=
| VNull
| VBool (b : bool)
| VNum (text : string)
| VStr (s : string)
| VArr (items : list value)
| VObj (entries : list (string * value)).

(** An object: its own properties in the order of [Object.entries]. *)
Definition obj : Type := list (string * value).

Definition keys {A : Type} (o : list (string * A)) : list string := map fst o.

Fixpoint lookup {A : Type} (k : string) (o : list (string * A)) : option A :=
  match o with
  | [] => None
  | (k', v) :: o' => if String.eqb k' k then Some v else lookup k o'
  end.

Definition has_key {A : Type} (k : string) (o : list (string * A)) : bool :=
  match lookup k o with Some _ => true | None => false end.

(** *** Property order

    An array index is the canonical decimal text of an integer below
    2^32 - 1.  Such keys come first in [Object.entries], in ascending
    order, whatever the order in which they were created. *)

Definition digit_of (a : ascii) : option N :=
  let n := N_of_ascii a in
  if (48 <=? n)%N && (n <=? 57)%N then Some (n - 48)%N else None.

Fixpoint digits_value (acc : N) (s : string) : option N :=
  match s with
  | EmptyString => Some acc
  | String a s' =>
      match digit_of a with
      | Some d => digits_value (acc * 10 + d)%N s'
      | None => None
      end
  end.

Definition array_index (k : string) : option N :=
  match k with
  | EmptyString => None
  | String a rest =>
      if Ascii.eqb a "0" && negb (Str.is_empty rest) then None
      else match digits_value 0%N k with
           | Some n => if (n <=? 4294967294)%N then Some n else None
           | None => None
           end
  end.

(** [comes_before k k']: a new property [k] is listed before the
    existing property [k']. *)
Definition comes_before (k k' : string) : bool :=
  match array_index k, array_index k' with
  | Some n, Some n' => (n <? n')%N
  | Some _, None => true
  | None, _ => false
  end.

Fixpoint place {A : Type} (k : string) (v : A) (o : list (string * A))
  : list (string * A) :=
  match o with
  | [] => [(k, v)]
  | (k', v') :: o' =>
      if comes_before k k' then (k, v) :: o else (k', v') :: place k v o'
  end.

Fixpoint overwrite {A : Type} (k : string) (v : A) (o : list (string * A))
  : list (string * A) :=
  match o with
  | [] => []
  | (k', v') :: o' =>
      if String.eqb k' k then (k', v) :: o' else (k', v') :: overwrite k v o'
  end.

(** [o[k] = v] on an object that has no setter for [k]: an existing
    property keeps its place, a new one is created. *)
Definition define {A : Type} (k : string) (v : A) (o : list (string * A))
  : list (string * A) :=
  if has_key k o then overwrite k v o else place k v o.

(** [result[key] = v] on an object made by the literal [{}].  The key
    [__proto__] is the accessor inherited from [Object.prototype]: the
    assignment calls its setter, which replaces the prototype of
    [result] (object or null) or does nothing (primitive), and creates no
    own property.  Nothing in the converter reads through the prototype
    of a [result] object. *)
Definition assign (k : string) (v : value) (result : obj) : obj :=
  if String.eqb k "__proto__" then result else define k v result.

(** *** Conversions of the language *)

(** [ToBoolean]. *)
Definition truthy (v : value) : bool :=
  match v with
  | VNull => false
  | VBool b => b
  | VNum text => negb (String.eqb text "0" || String.eqb text "NaN")
  | VStr s => negb (Str.is_empty s)
  | VArr _ | VObj _ => true
  end.

Fixpoint sequence {A : Type} (l : list (option A)) : option (list A) :=
  match l with
  | [] => Some []
  | None :: _ => None
  | Some x :: l' =>
      match sequence l' with
      | Some xs => Some (x :: xs)
      | None => None
      end
  end.

(** [ToString], as a template literal applies it; [None] is a
    [TypeError].  An array prints its items separated by commas, [null]
    items as the empty string.  An object prints as [[object Object]]
    through [Object.prototype.toString], unless it has an own property
    [toString]: a parsed value is never callable, so that [toString] is
    skipped, [valueOf] is either skipped as well or returns the object
    itself, and the conversion fails. *)
Fixpoint toString (v : value) : option string :=
  match v with
  | VNull => Some "null"
  | VBool true => Some "true"
  | VBool false => Some "false"
  | VNum text => Some text
  | VStr s => Some s
  | VArr items =>
      option_map (Str.join ",")
        (sequence (map (fun item =>
                          match item with
                          | VNull => Some EmptyString
                          | _ => toString item
                          end) items))
  | VObj entries =>
      if has_key "toString" entries then None else Some "[object Object]"
  end.

(** Nesting depth of objects; arrays are leaves of the converter. *)
Fixpoint depth (v : value) : nat :=
  match v with
  | VObj entries => S (list_max (map (fun kv => depth (snd kv)) entries))
  | _ => 0
  end.

(** ** Outcomes and the state of [Object.prototype] *)

(** What a property of [Object.prototype] holds: a value of the input
    and, when that value is a list, the named properties that [add_form]
    has since written on it.  A list of the input has indices only, and
    [value] has no place for a named property; an object takes the
    properties written on it among its entries. *)
Record held : Type := Held { held_value : value; named : list (form * value) }.

(** A value as the input gives it. *)
Definition hold (v : value) : held := Held v [].

(** The properties that the converter has added to [Object.prototype].
    They are named by plural forms, see [add_form] below. *)
Definition proto : Type := list (form * held).

Fixpoint proto_get (f : form) (p : proto) : option held :=
  match p with
  | [] => None
  | (g, h) :: p' => if form_eqb g f then Some h else proto_get f p'
  end.

(** [o[f] = v] on an object whose properties are named by forms: an
    existing property keeps its place, a new one comes last. *)
Fixpoint set_form {A : Type} (f : form) (v : A) (o : list (form * A))
  : list (form * A) :=
  match o with
  | [] => [(f, v)]
  | (g, w) :: o' =>
      if form_eqb g f then (g, v) :: o' else (g, w) :: set_form f v o'
  end.

(** The exception that the converter can raise. *)
Inductive exn : Type := TypeError.

(** How a call ends: with a value, with an exception, or (for the one
    function defined with fuel, [convertTranslations_fuel]) for lack of
    fuel.  The first two carry the state of [Object.prototype]. *)
Inductive outcome (A : Type) : Type :=
| Return (a : A) (p : proto)
| Throw (e : exn) (p : proto)
| OutOfFuel.
Arguments Return {A} a p.
Arguments Throw {A} e p.
Arguments OutOfFuel {A}.

(** A computation of the converter. *)
Definition M (A : Type) : Type := proto -> outcome A.

Definition ret {A : Type} (a : A) : M A := fun p => Return a p.

Definition throw {A : Type} (e : exn) : M A := fun p => Throw e p.

Definition bind {A B : Type} (m : M A) (k : A -> M B) : M B :=
  fun p =>
    match m p with
    | Return a p' => k a p'
    | Throw e p' => Throw e p'
    | OutOfFuel => OutOfFuel
    end.

Notation "x <- m ;; k" := (bind m (fun x => k))
  (at level 61, m at next level, right associativity).

Definition lift_option {A : Type} (o : option A) : M A :=
  match o with
  | Some a => ret a
  | None => throw TypeError
  end.

(** ** createICUPlural *)

(** The family of one base key: the object [pluralGroups[baseKey]].  Its
    keys are form names, none of which is an array index, so that
    [Object.entries] lists them in order of creation. *)
Definition family : Type := list (form * value).

(** The table [formMapping].  Every form has an entry and every entry is
    a non-empty string, so the alternative of [formMapping[form] || form]
    is never taken. *)
Definition formMapping (f : form) : string :=
  match f with
  | Zero => "=0"
  | One => "one"
  | Two => "two"
  | Few => "few"
  | Many => "many"
  | Other => "other"
  end.

(** [convertInterpolation] on any value: only strings are rewritten. *)
Definition convertInterpolation_value (text : value) : value :=
  match text with
  | VStr s => VStr (convertInterpolation s)
  | _ => text
  end.

(** One turn of the loop: the text [`${icuForm}{${convertedText}}`]. *)
Definition plural_part (entry : form * value) : option string :=
  let (f, text) := entry in
  let icuForm := formMapping f in
  match toString (convertInterpolation_value text) with
  | Some convertedText => Some (icuForm ++ "{" ++ convertedText ++ "}")
  | None => None
  end.

Definition createICUPlural (forms : family) : option string :=
  match sequence (map plural_part forms) with
  | Some parts => Some ("{count, plural, " ++ Str.join " " parts ++ "}")
  | None => None
  end.

(** ** groupPlurals *)

Definition groups : Type := list (string * family).

(** The function-valued properties of [Object.prototype] (with those of
    Annex B, which Node.js provides). *)
Definition prototype_methods : list string :=
  [ "constructor"; "hasOwnProperty"; "isPrototypeOf";
    "propertyIsEnumerable"; "toLocaleString"; "toString"; "valueOf";
    "__defineGetter__"; "__defineSetter__";
    "__lookupGetter__"; "__lookupSetter__" ].

Definition is_prototype_method (k : string) : bool :=
  existsb (String.eqb k) prototype_methods.

(** What [pluralGroups[baseKey]] evaluates to. *)
Inductive slot : Type :=
| OwnFamily (forms : family)    (* an own property of [pluralGroups] *)
| ObjectPrototype               (* the getter of [__proto__] *)
| PrototypeMethod               (* a function inherited from [Object.prototype] *)
| Inherited (g : form) (h : held)
                                (* a property added to [Object.prototype] earlier *)
| Undefined.

Definition read_group (pluralGroups : groups) (baseKey : string) (p : proto)
  : slot :=
  match lookup baseKey pluralGroups with
  | Some forms => OwnFamily forms
  | None =>
      if String.eqb baseKey "__proto__" then ObjectPrototype
      else if is_prototype_method baseKey then PrototypeMethod
      else match form_of_string baseKey with
           | Some f =>
               match proto_get f p with
               | Some h => Inherited f h
               | None => Undefined
               end
           | None => Undefined
           end
  end.

(** [pluralGroups[baseKey][form] = value] where [pluralGroups[baseKey]]
    is the object or the list that [Object.prototype] holds under the
    form [g]: the property is written on that object, which
    [Object.prototype] goes on holding. *)
Definition write_on (g : form) (h : held) (f : form) (v : value) (p : proto)
  : proto :=
  match held_value h with
  | VObj entries =>
      set_form g (Held (VObj (define (form_name f) v entries)) (named h)) p
  | VArr items => set_form g (Held (VArr items) (set_form f v (named h))) p
  | _ => p
  end.

(** The two statements
    [if (!pluralGroups[baseKey]) pluralGroups[baseKey] = {};
     pluralGroups[baseKey][form] = value;].
    When the read finds an inherited truthy value, no family is created
    and the write goes to that value: to [Object.prototype] itself, where
    it is visible to every later read; to a built-in function, which is
    no part of the state; to an object or a list of the input that
    [Object.prototype] holds, which is changed where it is held; or to a
    primitive, which strict code refuses.  The argument of the converter
    is a tree, as [JSON.parse] returns it: an object that
    [Object.prototype] holds is reached from the input once, under a
    plural key that the loop has passed. *)
Definition add_form (pluralGroups : groups) (baseKey : string) (f : form)
    (v : value) : M groups :=
  fun p =>
    match read_group pluralGroups baseKey p with
    | OwnFamily forms => Return (define baseKey (set_form f v forms) pluralGroups) p
    | ObjectPrototype => Return pluralGroups (set_form f (hold v) p)
    | PrototypeMethod => Return pluralGroups p
    | Inherited g h =>
        if truthy (held_value h) then
          match held_value h with
          | VObj _ | VArr _ => Return pluralGroups (write_on g h f v p)
          | _ => Throw TypeError p
          end
        else Return (define baseKey (set_form f v []) pluralGroups) p
    | Undefined => Return (define baseKey (set_form f v []) pluralGroups) p
    end.

(** The second loop of [groupPlurals]:
    [result[baseKey] = createICUPlural(forms)] for each family. *)
Fixpoint compile_groups (gs : groups) (result : obj) : M obj :=
  match gs with
  | [] => ret result
  | (baseKey, forms) :: gs' =>
      text <- lift_option (createICUPlural forms) ;;
      compile_groups gs' (assign baseKey (VStr text) result)
  end.

Section Scan.

(** The recursive call [groupPlurals(value)] on a nested object. *)
Variable nested : value -> M obj.

(** The first loop of [groupPlurals], over [Object.entries(translations)]. *)
Fixpoint scan (es : obj) (result : obj) (pluralGroups : groups)
  : M (obj * groups) :=
  match es with
  | [] => ret (result, pluralGroups)
  | (key, v) :: es' =>
      match parsePluralKey key with
      | Some (baseKey, f) =>
          pluralGroups' <- add_form pluralGroups baseKey f v ;;
          scan es' result pluralGroups'
      | None =>
          match v with
          | VObj _ =>
              r <- nested v ;;
              scan es' (assign key (VObj r) result) pluralGroups
          | _ => scan es' (assign key v result) pluralGroups
          end
      end
  end.

End Scan.

Fixpoint groupPlurals_value (v : value) : M obj :=
  match v with
  | VObj translations =>
      rg <- scan groupPlurals_value translations [] [] ;;
      compile_groups (snd rg) (fst rg)
  | _ => ret []
  end.

Definition groupPlurals (translations : obj) : M obj :=
  groupPlurals_value (VObj translations).

(** ** convertValue and convertTranslations *)

Section Convert.

(** The recursive call [convertTranslations(value)]. *)
Variable convert : obj -> M obj.

Definition convertValue (v : value) : M value :=
  match v with
  | VStr s => ret (VStr (convertNesting (convertInterpolation s)))
  | VObj o => r <- convert o ;; ret (VObj r)
  | _ => ret v
  end.

(** The loop of [convertTranslations], over [Object.entries(grouped)]. *)
Fixpoint convert_entries (es : obj) (result : obj) : M obj :=
  match es with
  | [] => ret result
  | (key, v) :: es' =>
      v' <- convertValue v ;;
      convert_entries es' (assign key v' result)
  end.

End Convert.

(** [convertTranslations] calls itself on the objects of [grouped], which
    are results of [groupPlurals] and not parts of its argument; the fuel
    bounds the depth of these calls. *)
Fixpoint convertTranslations_fuel (fuel : nat) (translations : obj) : M obj :=
  match fuel with
  | O => fun _ => OutOfFuel
  | S n =>
      grouped <- groupPlurals translations ;;
      convert_entries (convertTranslations_fuel n) grouped []
  end.

(** [groupPlurals] does not deepen a tree ([groupPlurals_depth] below), so
    the depth of the argument is enough fuel
    ([convertTranslations_halts]). *)
Definition convertTranslations (translations : obj) : M obj :=
  convertTranslations_fuel (depth (VObj translations)) translations.

Definition convertFile (data : obj) : M obj := convertTranslations data.

(** A call from a fresh program: nothing was added to [Object.prototype]. *)
Definition fresh : proto := [].

(** ** Notions used in the statements *)

(** [contains needle s]: [s.includes(needle)]. *)
Fixpoint contains (needle s : string) : bool :=
  match Str.strip_prefix needle s with
  | Some _ => true
  | None =>
      match s with
      | EmptyString => false
      | String _ s' => contains needle s'
      end
  end.

(** The leaf rewriting of [convertValue] on a string. *)
Definition rewrite_leaf (s : string) : string :=
  convertNesting (convertInterpolation s).

(** The members of the plural family [baseKey] at one level, in the
    order of the level: the forms and values of the keys [baseKey_form]. *)
Fixpoint members (baseKey : string) (es : obj) : family :=
  match es with
  | [] => []
  | (key, v) :: es' =>
      match parsePluralKey key with
      | Some (b, f) =>
          if String.eqb b baseKey then (f, v) :: members baseKey es'
          else members baseKey es'
      | None => members baseKey es'
      end
  end.

(** The base keys of a key, nearest first: [a_one_other] has the base
    keys [a_one] and [a].  The fuel is the length of the key, and a base
    key is shorter than its key. *)
Fixpoint bases_fuel (fuel : nat) (key : string) : list string :=
  match fuel with
  | O => []
  | S n =>
      match parsePluralKey key with
      | Some (b, _) => b :: bases_fuel n b
      | None => []
      end
  end.

Definition bases (key : string) : list string :=
  bases_fuel (String.length key) key.

(** A name that [pluralGroups] does not inherit from [Object.prototype],
    whatever the converter has added there. *)
Definition own_name (k : string) : Prop :=
  k <> "__proto__" /\ is_prototype_method k = false /\ form_of_string k = None.

(** [kept es k]: at the level [es], the key [k] is copied as it is by
    every pass of [groupPlurals] and no family is compiled under it. *)
Definition kept (es : obj) (k : string) : Prop :=
  parsePluralKey k = None /\ k <> "__proto__" /\
  forall k', In k' (keys es) -> ~ In k (bases k').

(** [level_at path t l]: the keys of [path] lead from the tree [t] to
    the nested object [l], through levels with unique keys and through
    keys that are kept. *)
Inductive level_at : list string -> obj -> obj -> Prop :=
| level_here t :
    NoDup (keys t) -> level_at [] t t
| level_down k path t c l :
    NoDup (keys t) -> kept t k -> lookup k t = Some (VObj c) ->
    level_at path c l -> level_at (k :: path) t l.

(** The part of a value that a path of keys leads to. *)
Fixpoint sub_at (path : list string) (v : value) : option value :=
  match path with
  | [] => Some v
  | k :: path' =>
      match v with
      | VObj es =>
          match lookup k es with
          | Some c => sub_at path' c
          | None => None
          end
      | _ => None
      end
  end.

(** The keys of a level that do not match the plural pattern, and the
    base keys of those that do, in order of first appearance. *)
Definition plain_keys (es : obj) : list string :=
  filter (fun k => match parsePluralKey k with Some _ => false | None => true end)
         (keys es).

Fixpoint add_once (k : string) (l : list string) : list string :=
  match l with
  | [] => [k]
  | k' :: l' => if String.eqb k' k then l else k' :: add_once k l'
  end.

Fixpoint base_keys_from (ks : list string) (acc : list string) : list string :=
  match ks with
  | [] => acc
  | k :: ks' =>
      match parsePluralKey k with
      | Some (b, _) => base_keys_from ks' (add_once b acc)
      | None => base_keys_from ks' acc
      end
  end.

Definition base_keys (es : obj) : list string := base_keys_from (keys es) [].


(** What one pass of [groupPlurals] makes of the value of a plain key:
    a nested object is grouped in turn, another value is copied. *)
Definition pass_value (nested : value -> M obj) (v : value) : M value :=
  match v with
  | VObj _ => r <- nested v ;; ret (VObj r)
  | _ => ret v
  end.

(** The family that the loop of [groupPlurals] builds from a family
    [fam] and further members [ms]. *)
Definition extend (fam ms : family) : family :=
  fold_left (fun acc e => set_form (fst e) (snd e) acc) ms fam.

Definition family_of (baseKey : string) (pluralGroups : groups) : family :=
  match lookup baseKey pluralGroups with
  | Some fam => fam
  | None => []
  end.

(** [regrouped t x]: the object [x] results from [t] by passes of
    [groupPlurals] (none, one or several).  [convertTranslations] runs
    [groupPlurals] again on every nested object that a pass has already
    grouped, so that the level at depth [d] goes through [d + 1] passes. *)
Inductive regrouped : obj -> obj -> Prop :=
| regrouped_refl t : regrouped t t
| regrouped_step t x x' p p' :
    regrouped t x -> groupPlurals x p = Return x' p' -> regrouped t x'.

(** [converted l out]: [out] is the conversion of the level [l], reached
    after some passes of [groupPlurals]. *)
Definition converted (l out : obj) : Prop :=
  exists x n p p',
    regrouped l x /\ convertTranslations_fuel n x p = Return out p'.

(** What the passes make of the value of a kept key. *)
Definition regrouped_value (v v' : value) : Prop :=
  match v with
  | VObj c => exists c', v' = VObj c' /\ regrouped c c'
  | _ => v' = v
  end.


(** Objects whose values have a depth of at most [n]. *)
Definition shallow (n : nat) (o : obj) : Prop :=
  Forall (fun kv => depth (snd kv) <= n) o.

(** The nested objects of a level are grouped without running out of
    fuel, into objects that are not deeper. *)
Definition nested_ok (nested : value -> M obj) (es : obj) : Prop :=
  forall k c, In (k, VObj c) es ->
    forall p, nested (VObj c) p <> OutOfFuel /\
              forall r p', nested (VObj c) p = Return r p' ->
                           depth (VObj r) <= depth (VObj c).

(** The last character of a string. *)
Fixpoint last_char (s : string) : option ascii :=
  match s with
  | EmptyString => None
  | String a EmptyString => Some a
  | String _ s' => last_char s'
  end.

(** [orderly l]: at the level [l], no plain key is [__proto__] or an
    array index, and every base key is a name that [pluralGroups] does
    not inherit, that is not an array index and that is not a key of the
    level. *)
Definition orderly (l : obj) : Prop :=
  (forall k, In k (keys l) -> parsePluralKey k = None ->
     k <> "__proto__" /\ array_index k = None) /\
  (forall k b f, In k (keys l) -> parsePluralKey k = Some (b, f) ->
     own_name b /\ array_index b = None /\ ~ In b (keys l)).

(** [single_suffixed l]: no base key of the level matches the plural
    pattern itself. *)
Definition single_suffixed (l : obj) : Prop :=
  forall k b f, In k (keys l) -> parsePluralKey k = Some (b, f) ->
    parsePluralKey b = None.

(** [settled path l K]: the family [K] of the level [l] keeps the
    expression of its first compilation.  Either the level is the top
    level, which goes through one pass of [groupPlurals], or [K] does not
    match the plural pattern and no key of the level has [K] among its
    base keys beyond the nearest one (the base key of its base key, the
    base key of that one, and so on up the chain), so that the further
    passes over a nested level copy it. *)
Definition settled (path : list string) (l : obj) (K : string) : Prop :=
  path = [] \/
  (parsePluralKey K = None /\
   forall k', In k' (keys l) -> ~ In K (tl (bases k'))).

#[warnings="-register-all"]
Inductive plain_tree : value -> Prop :=
| plain_leaf v : (forall es, v <> VObj es) -> plain_tree v
| plain_obj es :
    NoDup (keys es) ->
    (forall k c, In (k, c) es ->
       parsePluralKey k = None /\ k <> "__proto__" /\ plain_tree c) ->
    plain_tree (VObj es).

(** Two values of the same shape: objects with the same keys and values
    of the same shape under each key, two strings, or two equal leaves
    of another kind. *)
#[warnings="-register-all"]
Inductive same_shape : value -> value -> Prop :=
| shape_str s s' : same_shape (VStr s) (VStr s')
| shape_leaf v : (forall es, v <> VObj es) -> same_shape v v
| shape_obj es es' :
    (forall k, In k (keys es') -> In k (keys es)) ->
    (forall k c, lookup k es = Some c ->
       exists c', lookup k es' = Some c' /\ same_shape c c') ->
    same_shape (VObj es) (VObj es').

(** Entries without plural keys and without the key [__proto__], with
    plain trees as values. *)
Definition plain_entries (o : obj) : Prop :=
  forall k c, In (k, c) o ->
    parsePluralKey k = None /\ k <> "__proto__" /\ plain_tree c.


(** ** Further notions *)

(** A string without its braces. *)
Fixpoint remove_braces (s : string) : string :=
  match s with
  | EmptyString => EmptyString
  | String a s' =>
      if Ascii.eqb a "{" || Ascii.eqb a "}" then remove_braces s'
      else String a (remove_braces s')
  end.

(** What [convertValue] makes of a value that is not an object. *)
Definition leaf_image (v : value) : value :=
  match v with
  | VStr s => VStr (rewrite_leaf s)
  | _ => v
  end.

(** The rewriting of every string leaf of a tree, outside lists. *)
Fixpoint rewrite_value (v : value) : value :=
  match v with
  | VStr s => VStr (rewrite_leaf s)
  | VObj es => VObj (map (fun kv : string * value => let (k, c) := kv in (k, rewrite_value c)) es)
  | _ => v
  end.

Definition rewrite_entries (es : obj) : obj :=
  map (fun kv : string * value => let (k, c) := kv in (k, rewrite_value c)) es.

(** A tree whose keys, at every level, are distinct, do not match the
    plural pattern, and are neither [__proto__] nor array indices. *)
#[warnings="-register-all"]
Inductive simple_tree : value -> Prop :=
| simple_leaf v : (forall es, v <> VObj es) -> simple_tree v
| simple_obj es :
    NoDup (keys es) ->
    (forall k c, In (k, c) es ->
       parsePluralKey k = None /\ k <> "__proto__" /\ array_index k = None /\
       simple_tree c) ->
    simple_tree (VObj es).

(** [reaches p B]: a member of base key [B] is written on
    [Object.prototype] ([B] is [__proto__]) or on an object or a list
    that [Object.prototype] holds in the state [p] ([B] is the name of a
    form under which it holds one). *)
Definition reaches (p : proto) (B : string) : bool :=
  String.eqb B "__proto__" ||
  match form_of_string B with
  | Some g =>
      match proto_get g p with
      | Some h =>
          match held_value h with
          | VObj _ | VArr _ => true
          | _ => false
          end
      | None => false
      end
  | None => false
  end.

(** A tree in which no base key of a key, however far up its chain,
    reaches [Object.prototype] in the state [p], at any level that
    [groupPlurals] scans: the levels reached through plain keys. *)
#[warnings="-register-all"]
Inductive proto_free (p : proto) : value -> Prop :=
| proto_free_leaf v : (forall es, v <> VObj es) -> proto_free p v
| proto_free_obj es :
    (forall k c, In (k, c) es ->
       (forall B, In B (bases k) -> reaches p B = false) /\
       (parsePluralKey k = None -> proto_free p c)) ->
    proto_free p (VObj es).

(** A tree in which no key has the base key [__proto__] anywhere up its
    chain, at any level that [groupPlurals] scans, and whose plural
    members can all be printed by a template literal. *)
#[warnings="-register-all"]
Inductive tame : value -> Prop :=
| tame_leaf v : (forall es, v <> VObj es) -> tame v
| tame_obj es :
    (forall k c, In (k, c) es ->
       ~ In "__proto__" (bases k) /\
       (parsePluralKey k <> None -> toString c <> None) /\
       (parsePluralKey k = None -> tame c)) ->
    tame (VObj es).

(** A computation that leaves [Object.prototype] as it found it, whether
    it returns or raises. *)
Definition quiet {A : Type} (m : M A) (p : proto) : Prop :=
  match m p with
  | Return _ p' => p' = p
  | Throw _ p' => p' = p
  | OutOfFuel => True
  end.

(** A family all of whose members a template literal can print. *)
Definition printable (fam : family) : Prop :=
  forall f v, In (f, v) fam -> toString v <> None.

(** A computation that removes no property of [Object.prototype]. *)
Definition growing {A : Type} (m : M A) : Prop :=
  forall p a p', m p = Return a p' ->
    forall f, proto_get f p <> None -> proto_get f p' <> None.
(** * Properties *)

(** ** Strings and replacement *)

Lemma append_nil_r (s : string) : s ++ "" = s.
Proof. induction s as [|a s IH]; simpl; [reflexivity | now rewrite IH]. Qed.

Lemma append_assoc (a b c : string) : (a ++ b) ++ c = a ++ (b ++ c).
Proof. induction a as [|x a IH]; simpl; [reflexivity | now rewrite IH]. Qed.

Lemma length_append (a b : string) :
  String.length (a ++ b) = String.length a + String.length b.
Proof. induction a as [|x a IH]; simpl; [reflexivity | now rewrite IH]. Qed.

Lemma strip_prefix_app (pre r : string) : Str.strip_prefix pre (pre ++ r) = Some r.
Proof.
  induction pre as [|a pre IH]; simpl; [reflexivity|].
  now rewrite Ascii.eqb_refl.
Qed.

Lemma strip_prefix_Some (pre s r : string) :
  Str.strip_prefix pre s = Some r -> s = pre ++ r.
Proof.
  revert s; induction pre as [|a pre IH]; simpl; intros s H.
  - now inversion H.
  - destruct s as [|b s]; [discriminate|].
    destruct (Ascii.eqb_spec a b) as [->|]; [|discriminate].
    now rewrite (IH _ H).
Qed.

Lemma span_not_split (c : ascii) (s run rest : string) :
  Str.span_not c s = (run, rest) ->
  s = run ++ rest /\ Str.mem_char c run = false /\
  (rest = "" \/ exists r, rest = String c r).
Proof.
  revert run rest; induction s as [|a s IH]; simpl; intros run rest H.
  - inversion H; subst. repeat split; auto.
  - destruct (Ascii.eqb_spec a c) as [->|Hac].
    + inversion H; subst. repeat split; eauto.
    + destruct (Str.span_not c s) as [run' rest'] eqn:E.
      inversion H; subst.
      destruct (IH _ _ eq_refl) as (-> & Hm & Hr).
      simpl. repeat split; auto.
      apply Ascii.eqb_neq in Hac. now rewrite Hac.
Qed.

Lemma span_not_app (c : ascii) (run r : string) :
  Str.mem_char c run = false ->
  Str.span_not c (run ++ String c r) = (run, String c r).
Proof.
  induction run as [|a run IH]; simpl; intros H.
  - now rewrite Ascii.eqb_refl.
  - apply orb_false_iff in H as [Ha Hm]. rewrite Ha, (IH Hm). reflexivity.
Qed.

Lemma is_empty_true (s : string) : Str.is_empty s = true <-> s = "".
Proof. destruct s; simpl; split; congruence. Qed.

Lemma is_empty_false (s : string) : Str.is_empty s = false <-> s <> "".
Proof. destruct s; simpl; split; congruence. Qed.

(** The interpolation pattern matches at the head of [s] exactly when [s]
    opens with two braces, a non-empty text without a closing brace, and
    two closing braces. *)
Lemma match_interpolation_iff (s capture rest : string) :
  match_interpolation s = Some (capture, rest) <->
  capture <> "" /\ Str.mem_char "}" capture = false /\
  s = "{{" ++ capture ++ "}}" ++ rest.
Proof.
  unfold match_interpolation; split.
  - destruct (Str.strip_prefix "{{" s) as [s2|] eqn:E1; [|discriminate].
    destruct (Str.span_not "}" s2) as [c after] eqn:E2.
    destruct (Str.is_empty c) eqn:E3; [discriminate|].
    destruct (Str.strip_prefix "}}" after) as [r|] eqn:E4; [|discriminate].
    intros H; inversion H; subst.
    apply strip_prefix_Some in E1, E4.
    apply span_not_split in E2 as (-> & Hm & _).
    apply is_empty_false in E3. subst. now repeat split.
  - intros (Hne & Hm & ->).
    rewrite strip_prefix_app.
    change ("}}" ++ rest) with (String "}" (String "}" rest)).
    rewrite (span_not_app _ _ _ Hm).
    apply is_empty_false in Hne. rewrite Hne.
    simpl. reflexivity.
Qed.

Lemma match_nesting_iff (s key rest : string) :
  match_nesting s = Some (key, rest) <->
  key <> "" /\ Str.mem_char ")" key = false /\
  s = "$t(" ++ key ++ ")" ++ rest.
Proof.
  unfold match_nesting; split.
  - destruct (Str.strip_prefix "$t(" s) as [s2|] eqn:E1; [|discriminate].
    destruct (Str.span_not ")" s2) as [c after] eqn:E2.
    destruct (Str.is_empty c) eqn:E3; [discriminate|].
    destruct (Str.strip_prefix ")" after) as [r|] eqn:E4; [|discriminate].
    intros H; inversion H; subst.
    apply strip_prefix_Some in E1, E4.
    apply span_not_split in E2 as (-> & Hm & _).
    apply is_empty_false in E3. subst. now repeat split.
  - intros (Hne & Hm & ->).
    rewrite strip_prefix_app.
    change (")" ++ rest) with (String ")" rest).
    rewrite (span_not_app _ _ _ Hm).
    apply is_empty_false in Hne. rewrite Hne.
    simpl. reflexivity.
Qed.

Lemma match_interpolation_shrinks (s c r : string) :
  match_interpolation s = Some (c, r) -> String.length r < String.length s.
Proof.
  intros H. apply match_interpolation_iff in H as (_ & _ & ->).
  rewrite !length_append. simpl. lia.
Qed.

Lemma match_nesting_shrinks (s c r : string) :
  match_nesting s = Some (c, r) -> String.length r < String.length s.
Proof.
  intros H. apply match_nesting_iff in H as (_ & _ & ->).
  rewrite !length_append. simpl. lia.
Qed.

Section ReplaceFacts.

Variable matcher : string -> option (string * string).
Variable template : string -> string.
Hypothesis shrinks :
  forall s c r, matcher s = Some (c, r) -> String.length r < String.length s.

Lemma replace_fuel_enough (n m : nat) (s : string) :
  String.length s < n -> String.length s < m ->
  replace_fuel matcher template n s = replace_fuel matcher template m s.
Proof.
  revert m s; induction n as [|n IH]; intros m s Hn Hm; [lia|].
  destruct m as [|m]; [lia|]. simpl.
  destruct (matcher s) as [[c r]|] eqn:E.
  - apply shrinks in E. f_equal. apply IH; lia.
  - destruct s as [|a s]; [reflexivity|]. simpl in *.
    f_equal. apply IH; lia.
Qed.

Lemma replace_fuel_S (n : nat) (s : string) :
  replace_fuel matcher template (S n) s
  = match matcher s with
    | Some (capture, rest) =>
        template capture ++ replace_fuel matcher template n rest
    | None =>
        match s with
        | EmptyString => EmptyString
        | String a s' => String a (replace_fuel matcher template n s')
        end
    end.
Proof. reflexivity. Qed.

Lemma replace_global_match (s c r : string) :
  matcher s = Some (c, r) ->
  replace_global matcher template s
  = template c ++ replace_global matcher template r.
Proof.
  intros E. unfold replace_global. rewrite replace_fuel_S, E. f_equal.
  apply shrinks in E. apply replace_fuel_enough; lia.
Qed.

Lemma replace_global_skip (a : ascii) (s : string) :
  matcher (String a s) = None ->
  replace_global matcher template (String a s)
  = String a (replace_global matcher template s).
Proof.
  intros E. unfold replace_global. rewrite replace_fuel_S, E. reflexivity.
Qed.

Lemma replace_global_nil : replace_global matcher template "" = "".
Proof.
  unfold replace_global. simpl.
  destruct (matcher "") as [[c r]|] eqn:E; [|reflexivity].
  apply shrinks in E. simpl in E. lia.
Qed.

End ReplaceFacts.

Lemma convertInterpolation_match (capture rest : string) :
  capture <> "" -> Str.mem_char "}" capture = false ->
  convertInterpolation ("{{" ++ capture ++ "}}" ++ rest)
  = "{" ++ capture ++ "}" ++ convertInterpolation rest.
Proof.
  intros Hne Hm. unfold convertInterpolation.
  rewrite (replace_global_match _ _ match_interpolation_shrinks _ capture rest).
  - now rewrite !append_assoc.
  - apply match_interpolation_iff. auto.
Qed.

Lemma convertInterpolation_skip (a : ascii) (s : string) :
  match_interpolation (String a s) = None ->
  convertInterpolation (String a s) = String a (convertInterpolation s).
Proof. apply replace_global_skip. Qed.

Lemma convertInterpolation_nil : convertInterpolation "" = "".
Proof. apply replace_global_nil, match_interpolation_shrinks. Qed.

Lemma convertNesting_match (key rest : string) :
  key <> "" -> Str.mem_char ")" key = false ->
  convertNesting ("$t(" ++ key ++ ")" ++ rest)
  = "[REF:" ++ key ++ "]" ++ convertNesting rest.
Proof.
  intros Hne Hm. unfold convertNesting.
  rewrite (replace_global_match _ _ match_nesting_shrinks _ key rest).
  - now rewrite !append_assoc.
  - apply match_nesting_iff. auto.
Qed.

Lemma convertNesting_skip (a : ascii) (s : string) :
  match_nesting (String a s) = None ->
  convertNesting (String a s) = String a (convertNesting s).
Proof. apply replace_global_skip. Qed.

Lemma convertNesting_nil : convertNesting "" = "".
Proof. apply replace_global_nil, match_nesting_shrinks. Qed.

(** ** Objects as ordered lists of properties *)

Section ObjectFacts.

Context {A : Type}.
Implicit Types (o : list (string * A)) (k : string) (v : A).

Lemma lookup_None o k : lookup k o = None <-> ~ In k (keys o).
Proof.
  induction o as [|[k' v'] o IH]; simpl; [tauto|].
  destruct (String.eqb_spec k' k) as [->|Hne].
  - split; [discriminate | tauto].
  - rewrite IH. tauto.
Qed.

Lemma lookup_Some_In o k v : lookup k o = Some v -> In k (keys o).
Proof.
  intros H. destruct (in_dec string_dec k (keys o)) as [|Hn]; [assumption|].
  apply lookup_None in Hn. congruence.
Qed.

Lemma lookup_In_pair o k v : lookup k o = Some v -> In (k, v) o.
Proof.
  induction o as [|[k' v'] o IH]; simpl; [discriminate|].
  destruct (String.eqb_spec k' k) as [->|Hne]; intros H.
  - inversion H; subst. now left.
  - right. auto.
Qed.

Lemma has_key_true o k : has_key k o = true <-> In k (keys o).
Proof.
  unfold has_key. destruct (lookup k o) eqn:E.
  - split; [intros _; eapply lookup_Some_In; eauto | reflexivity].
  - split; [discriminate|]. intros H. apply lookup_None in E. tauto.
Qed.

Lemma has_key_false o k : has_key k o = false <-> ~ In k (keys o).
Proof.
  rewrite <- has_key_true. destruct (has_key k o); split; congruence.
Qed.

Lemma keys_overwrite o k v : keys (overwrite k v o) = keys o.
Proof.
  induction o as [|[k' v'] o IH]; simpl; [reflexivity|].
  destruct (String.eqb k' k); simpl; [reflexivity | now rewrite IH].
Qed.

Lemma lookup_overwrite_eq o k v :
  In k (keys o) -> lookup k (overwrite k v o) = Some v.
Proof.
  induction o as [|[k' v'] o IH]; simpl; [tauto|].
  destruct (String.eqb_spec k' k) as [->|Hne]; simpl.
  - now rewrite String.eqb_refl.
  - intros [?|H]; [congruence|].
    apply String.eqb_neq in Hne. rewrite Hne. auto.
Qed.

Lemma lookup_overwrite_neq o k k' v :
  k <> k' -> lookup k' (overwrite k v o) = lookup k' o.
Proof.
  intros Hne. induction o as [|[k0 v0] o IH]; simpl; [reflexivity|].
  destruct (String.eqb_spec k0 k) as [->|Hk]; simpl.
  - apply String.eqb_neq in Hne. now rewrite Hne.
  - now rewrite IH.
Qed.

Lemma in_keys_place o k v x : In x (keys (place k v o)) <-> x = k \/ In x (keys o).
Proof.
  induction o as [|[k' v'] o IH]; simpl.
  - split; intros [H|H]; auto.
  - destruct (comes_before k k'); simpl; [intuition auto|].
    rewrite IH. intuition auto.
Qed.

Lemma lookup_place_eq o k v : ~ In k (keys o) -> lookup k (place k v o) = Some v.
Proof.
  induction o as [|[k' v'] o IH]; simpl; intros H.
  - now rewrite String.eqb_refl.
  - destruct (comes_before k k'); simpl.
    + now rewrite String.eqb_refl.
    + destruct (String.eqb_spec k' k) as [->|Hne]; [tauto|]. apply IH. tauto.
Qed.

Lemma lookup_place_neq o k k' v : k <> k' -> lookup k' (place k v o) = lookup k' o.
Proof.
  intros Hne. induction o as [|[k0 v0] o IH]; simpl.
  - apply String.eqb_neq in Hne. now rewrite Hne.
  - destruct (comes_before k k0); simpl.
    + apply String.eqb_neq in Hne. now rewrite Hne.
    + now rewrite IH.
Qed.

Lemma NoDup_keys_place o k v :
  ~ In k (keys o) -> NoDup (keys o) -> NoDup (keys (place k v o)).
Proof.
  induction o as [|[k' v'] o IH]; simpl; intros Hk Hnd.
  - constructor; [tauto | constructor].
  - destruct (comes_before k k'); simpl.
    + constructor; assumption.
    + inversion Hnd; subst. constructor.
      * rewrite in_keys_place. intros [->|H]; tauto.
      * apply IH; tauto.
Qed.

Lemma place_append o k v : array_index k = None -> place k v o = (o ++ [(k, v)])%list.
Proof.
  intros Hk. induction o as [|[k' v'] o IH]; simpl; [reflexivity|].
  unfold comes_before. rewrite Hk. now rewrite IH.
Qed.

Lemma lookup_define_eq o k v : lookup k (define k v o) = Some v.
Proof.
  unfold define. destruct (has_key k o) eqn:E.
  - apply lookup_overwrite_eq. now apply has_key_true.
  - apply lookup_place_eq. now apply has_key_false.
Qed.

Lemma lookup_define_neq o k k' v : k <> k' -> lookup k' (define k v o) = lookup k' o.
Proof.
  intros Hne. unfold define. destruct (has_key k o).
  - now apply lookup_overwrite_neq.
  - now apply lookup_place_neq.
Qed.

Lemma in_keys_define o k v x : In x (keys (define k v o)) <-> x = k \/ In x (keys o).
Proof.
  unfold define. destruct (has_key k o) eqn:E.
  - rewrite keys_overwrite. apply has_key_true in E.
    split; [auto | intros [->|]; auto].
  - apply in_keys_place.
Qed.

Lemma NoDup_keys_define o k v : NoDup (keys o) -> NoDup (keys (define k v o)).
Proof.
  intros Hnd. unfold define. destruct (has_key k o) eqn:E.
  - now rewrite keys_overwrite.
  - apply NoDup_keys_place; [now apply has_key_false | assumption].
Qed.

Lemma keys_define_new o k v :
  ~ In k (keys o) -> array_index k = None -> keys (define k v o) = (keys o ++ [k])%list.
Proof.
  intros Hk Hi. unfold define.
  apply has_key_false in Hk. rewrite Hk, (place_append _ _ _ Hi).
  unfold keys. now rewrite map_app.
Qed.

Lemma keys_define_old o k v : In k (keys o) -> keys (define k v o) = keys o.
Proof.
  intros Hk. unfold define. apply has_key_true in Hk. rewrite Hk.
  apply keys_overwrite.
Qed.

End ObjectFacts.

Lemma lookup_assign_eq (o : obj) (k : string) (v : value) :
  k <> "__proto__" -> lookup k (assign k v o) = Some v.
Proof.
  intros Hk. unfold assign. apply String.eqb_neq in Hk. rewrite Hk.
  apply lookup_define_eq.
Qed.

Lemma lookup_assign_neq (o : obj) (k k' : string) (v : value) :
  k <> k' -> lookup k' (assign k v o) = lookup k' o.
Proof.
  intros Hne. unfold assign. destruct (String.eqb k "__proto__"); [reflexivity|].
  now apply lookup_define_neq.
Qed.

Lemma in_keys_assign (o : obj) (k : string) (v : value) (x : string) :
  In x (keys (assign k v o)) <-> (x = k /\ k <> "__proto__") \/ In x (keys o).
Proof.
  unfold assign. destruct (String.eqb_spec k "__proto__") as [->|Hne].
  - intuition auto.
  - rewrite in_keys_define. intuition auto.
Qed.

Lemma NoDup_keys_assign (o : obj) (k : string) (v : value) :
  NoDup (keys o) -> NoDup (keys (assign k v o)).
Proof.
  intros H. unfold assign. destruct (String.eqb k "__proto__"); [assumption|].
  now apply NoDup_keys_define.
Qed.

(** ** The monad *)

Lemma bind_Return {A B : Type} (m : M A) (k : A -> M B) (p : proto) (b : B) (q : proto) :
  bind m k p = Return b q ->
  exists a p', m p = Return a p' /\ k a p' = Return b q.
Proof.
  unfold bind. destruct (m p) as [a p'| |]; [eauto | discriminate | discriminate].
Qed.

Lemma lift_option_Return {A : Type} (o : option A) (p : proto) (a : A) (q : proto) :
  lift_option o p = Return a q -> o = Some a /\ q = p.
Proof.
  destruct o; simpl; unfold ret, throw; intros H; inversion H; auto.
Qed.

(** ** Keys and their base keys *)

Lemma strip_suffix_unfold (suf s : string) :
  Str.strip_suffix suf s
  = if String.eqb s suf then Some EmptyString
    else match s with
         | EmptyString => None
         | String a s' => option_map (String a) (Str.strip_suffix suf s')
         end.
Proof. destruct s; reflexivity. Qed.

Lemma strip_suffix_Some (suf s b : string) :
  Str.strip_suffix suf s = Some b -> s = b ++ suf.
Proof.
  revert b; induction s as [|a s IH]; intros b; rewrite strip_suffix_unfold.
  - destruct (String.eqb_spec "" suf) as [<-|Hne]; [|discriminate].
    intros H; now inversion H.
  - destruct (String.eqb_spec (String a s) suf) as [<-|Hne].
    + intros H; now inversion H.
    + destruct (Str.strip_suffix suf s) as [b'|] eqn:E; simpl; [|discriminate].
      intros H; inversion H; subst. simpl. now rewrite (IH _ eq_refl).
Qed.

Lemma match_form_Some (key : string) (f g : form) (b : string) :
  match_form key f = Some (b, g) ->
  g = f /\ key = b ++ "_" ++ form_name f /\ b <> "" /\ has_line_terminator b = false.
Proof.
  unfold match_form.
  destruct (Str.strip_suffix ("_" ++ form_name f) key) as [b'|] eqn:E; [|discriminate].
  destruct (Str.is_empty b' || has_line_terminator b') eqn:E2; [discriminate|].
  intros H; inversion H; subst.
  apply orb_false_iff in E2 as [E2 E3].
  apply strip_suffix_Some in E. apply is_empty_false in E2. auto.
Qed.

Lemma first_match_Some (key : string) (fs : list form) (b : string) (f : form) :
  first_match key fs = Some (b, f) ->
  key = b ++ "_" ++ form_name f /\ b <> "" /\ has_line_terminator b = false.
Proof.
  induction fs as [|g fs IH]; simpl; [discriminate|].
  destruct (match_form key g) as [[b' f']|] eqn:E.
  - intros H; inversion H; subst.
    apply match_form_Some in E as (-> & ? & ? & ?). auto.
  - exact IH.
Qed.

(** A key that [parsePluralKey] accepts is its base key, an underscore
    and the name of its form. *)
Lemma parsePluralKey_Some (key b : string) (f : form) :
  parsePluralKey key = Some (b, f) ->
  key = b ++ "_" ++ form_name f /\ b <> "" /\ has_line_terminator b = false.
Proof. apply first_match_Some. Qed.

Lemma parsePluralKey_shorter (key b : string) (f : form) :
  parsePluralKey key = Some (b, f) -> String.length b < String.length key.
Proof.
  intros H. apply parsePluralKey_Some in H as (-> & _ & _).
  rewrite length_append. simpl. lia.
Qed.

Lemma bases_fuel_enough (n m : nat) (key : string) :
  String.length key <= n -> String.length key <= m ->
  bases_fuel n key = bases_fuel m key.
Proof.
  revert m key; induction n as [|n IH]; intros m key Hn Hm.
  - destruct key; simpl in Hn; [|lia].
    destruct m; reflexivity.
  - destruct m as [|m].
    + destruct key; simpl in Hm; [|lia]. reflexivity.
    + simpl. destruct (parsePluralKey key) as [[b f]|] eqn:E; [|reflexivity].
      apply parsePluralKey_shorter in E. f_equal. apply IH; lia.
Qed.

Lemma bases_unfold (key : string) :
  bases key = match parsePluralKey key with
              | Some (b, _) => b :: bases b
              | None => []
              end.
Proof.
  unfold bases. destruct key as [|a key]; [reflexivity|].
  change (String.length (String a key)) with (S (String.length key)).
  simpl bases_fuel.
  destruct (parsePluralKey (String a key)) as [[b f]|] eqn:E; [|reflexivity].
  apply parsePluralKey_shorter in E. simpl in E.
  f_equal. apply bases_fuel_enough; lia.
Qed.

Lemma bases_plain (key : string) : parsePluralKey key = None -> bases key = [].
Proof. intros H. now rewrite bases_unfold, H. Qed.

Lemma bases_trans (x y z : string) : In x (bases y) -> In y (bases z) -> In x (bases z).
Proof.
  intros Hxy. remember (String.length z) as n eqn:Hn.
  revert z Hn. induction n as [n IH] using lt_wf_ind. intros z -> Hyz.
  rewrite bases_unfold in Hyz |- *.
  destruct (parsePluralKey z) as [[b f]|] eqn:E; [|contradiction].
  destruct Hyz as [->|Hyz]; [now right|].
  right. eapply IH; eauto. now apply parsePluralKey_shorter in E.
Qed.

Lemma bases_direct (key b : string) (f : form) :
  parsePluralKey key = Some (b, f) -> In b (bases key).
Proof. intros H. rewrite bases_unfold, H. now left. Qed.

(** ** One pass of [groupPlurals]: the first loop *)

Lemma add_form_own (pg : groups) (K : string) (f : form) (v : value) (p : proto) :
  own_name K ->
  add_form pg K f v p = Return (define K (set_form f v (family_of K pg)) pg) p.
Proof.
  intros (Hp & Hm & Hf). unfold add_form, read_group, family_of.
  destruct (lookup K pg) as [fam|]; [reflexivity|].
  apply String.eqb_neq in Hp. rewrite Hp, Hm, Hf. reflexivity.
Qed.

Lemma add_form_Return (pg : groups) (B : string) (f : form) (v : value)
    (p : proto) (pg1 : groups) (p1 : proto) :
  add_form pg B f v p = Return pg1 p1 ->
  pg1 = pg \/ exists fam, pg1 = define B fam pg.
Proof.
  unfold add_form.
  destruct (read_group pg B p) as [fam| | |g h|]; intros H.
  - inversion H; eauto.
  - inversion H; auto.
  - inversion H; auto.
  - destruct (truthy (held_value h)).
    + destruct (held_value h); inversion H; auto.
    + inversion H; eauto.
  - inversion H; eauto.
Qed.

Lemma add_form_lookup_other (pg : groups) (B K : string) (f : form) (v : value)
    (p : proto) (pg1 : groups) (p1 : proto) :
  add_form pg B f v p = Return pg1 p1 -> B <> K -> lookup K pg1 = lookup K pg.
Proof.
  intros H Hne. apply add_form_Return in H as [->|[fam ->]]; [reflexivity|].
  now apply lookup_define_neq.
Qed.

Lemma add_form_keys (pg : groups) (B : string) (f : form) (v : value)
    (p : proto) (pg1 : groups) (p1 : proto) :
  add_form pg B f v p = Return pg1 p1 ->
  (forall x, In x (keys pg1) -> x = B \/ In x (keys pg)) /\
  (forall x, In x (keys pg) -> In x (keys pg1)) /\
  (NoDup (keys pg) -> NoDup (keys pg1)).
Proof.
  intros H. apply add_form_Return in H as [->|[fam ->]].
  - repeat split; auto.
  - repeat split.
    + intros x Hx. now apply in_keys_define in Hx.
    + intros x Hx. apply in_keys_define. auto.
    + apply NoDup_keys_define.
Qed.

Lemma family_of_define_eq (pg : groups) (K : string) (fam : family) :
  family_of K (define K fam pg) = fam.
Proof. unfold family_of. now rewrite lookup_define_eq. Qed.

Section ScanFacts.

Variable nested : value -> M obj.

Lemma scan_cons_plural key v es result pg b f p :
  parsePluralKey key = Some (b, f) ->
  scan nested ((key, v) :: es) result pg p
  = bind (add_form pg b f v) (fun pg' => scan nested es result pg') p.
Proof. intros H. simpl. rewrite H. reflexivity. Qed.

Lemma scan_cons_plain key v es result pg p :
  parsePluralKey key = None ->
  scan nested ((key, v) :: es) result pg p
  = bind (pass_value nested v)
         (fun v' => scan nested es (assign key v' result) pg) p.
Proof.
  intros H. simpl. rewrite H. destruct v; try reflexivity.
  unfold pass_value, bind, ret. destruct (nested _ p); reflexivity.
Qed.

(** The plain keys of the level in [result]. *)
Lemma scan_plain es : forall result pg p result' pg' p',
  scan nested es result pg p = Return (result', pg') p' ->
  NoDup (keys es) ->
  forall k, parsePluralKey k = None -> k <> "__proto__" ->
  match lookup k es with
  | Some v => exists v' p1 p2,
      pass_value nested v p1 = Return v' p2 /\ lookup k result' = Some v'
  | None => lookup k result' = lookup k result
  end.
Proof.
  induction es as [|[key v] es IH]; intros result pg p result' pg' p' H Hnd k Hk Hpr.
  - simpl in *. unfold ret in H. now inversion H.
  - inversion Hnd as [|? ? Hnotin Hnd']; subst.
    destruct (parsePluralKey key) as [[b f]|] eqn:E.
    + rewrite (scan_cons_plural _ _ _ _ _ _ _ _ E) in H.
      apply bind_Return in H as (pg1 & p1 & _ & H).
      assert (key <> k) as Hne by congruence.
      simpl. apply String.eqb_neq in Hne. rewrite Hne.
      eapply IH; eauto.
    + rewrite (scan_cons_plain _ _ _ _ _ _ E) in H.
      apply bind_Return in H as (v1 & p1 & Hv & H).
      specialize (IH _ _ _ _ _ _ H Hnd' k Hk Hpr).
      simpl. destruct (String.eqb_spec key k) as [->|Hne].
      * assert (lookup k es = None) as Hno by now apply lookup_None.
        rewrite Hno in IH. rewrite IH, lookup_assign_eq by assumption.
        eauto.
      * destruct (lookup k es); [assumption|].
        now rewrite IH, lookup_assign_neq.
Qed.

(** The families in [pluralGroups]. *)
Lemma scan_family (K : string) (HK : own_name K) es : forall result pg p result' pg' p',
  scan nested es result pg p = Return (result', pg') p' ->
  match members K es with
  | [] => lookup K pg' = lookup K pg
  | ms => lookup K pg' = Some (extend (family_of K pg) ms)
  end.
Proof.
  induction es as [|[key v] es IH]; intros result pg p result' pg' p' H.
  - simpl in *. unfold ret in H. now inversion H.
  - destruct (parsePluralKey key) as [[b f]|] eqn:E.
    + rewrite (scan_cons_plural _ _ _ _ _ _ _ _ E) in H.
      apply bind_Return in H as (pg1 & p1 & Ha & H).
      specialize (IH _ _ _ _ _ _ H).
      simpl. rewrite E. destruct (String.eqb_spec b K) as [->|Hne].
      * rewrite (add_form_own _ _ _ _ _ HK) in Ha. inversion Ha; subst pg1 p1.
        destruct (members K es) as [|m ms].
        -- now rewrite IH, lookup_define_eq.
        -- rewrite family_of_define_eq in IH. exact IH.
      * unfold family_of in IH |- *.
        rewrite (add_form_lookup_other _ _ _ _ _ _ _ _ Ha Hne) in IH.
        exact IH.
    + rewrite (scan_cons_plain _ _ _ _ _ _ E) in H.
      apply bind_Return in H as (v1 & p1 & Hv & H).
      simpl. rewrite E. eapply IH; eauto.
Qed.

(** The keys that the loop creates. *)
Lemma scan_keys es : forall result pg p result' pg' p',
  scan nested es result pg p = Return (result', pg') p' ->
  (forall x, In x (keys result') ->
     In x (keys result) \/
     (In x (keys es) /\ parsePluralKey x = None /\ x <> "__proto__")) /\
  (forall x, In x (keys pg') ->
     In x (keys pg) \/
     exists k f, In k (keys es) /\ parsePluralKey k = Some (x, f)) /\
  (NoDup (keys result) -> NoDup (keys result')) /\
  (NoDup (keys pg) -> NoDup (keys pg')).
Proof.
  induction es as [|[key v] es IH]; intros result pg p result' pg' p' H.
  - simpl in *. unfold ret in H. inversion H; subst. auto.
  - destruct (parsePluralKey key) as [[b f]|] eqn:E.
    + rewrite (scan_cons_plural _ _ _ _ _ _ _ _ E) in H.
      apply bind_Return in H as (pg1 & p1 & Ha & H).
      destruct (IH _ _ _ _ _ _ H) as (I1 & I2 & I3 & I4).
      destruct (add_form_keys _ _ _ _ _ _ _ Ha) as (A1 & A2 & A3).
      repeat split; auto.
      * intros x Hx. destruct (I1 x Hx) as [?|(? & ? & ?)]; auto.
        right. simpl. auto.
      * intros x Hx. destruct (I2 x Hx) as [Hx1|(k & g & Hin & Hp)].
        -- destruct (A1 x Hx1) as [->|?]; auto.
           right. exists key, f. simpl. auto.
        -- right. exists k, g. simpl. auto.
    + rewrite (scan_cons_plain _ _ _ _ _ _ E) in H.
      apply bind_Return in H as (v1 & p1 & Hv & H).
      destruct (IH _ _ _ _ _ _ H) as (I1 & I2 & I3 & I4).
      repeat split; auto.
      * intros x Hx. destruct (I1 x Hx) as [Hx1|(? & ? & ?)].
        -- apply in_keys_assign in Hx1 as [[-> Hne]|?]; auto.
           right. simpl. auto.
        -- right. simpl. auto.
      * intros x Hx. destruct (I2 x Hx) as [?|(k & g & Hin & Hp)]; auto.
        right. exists k, g. simpl. auto.
      * intros Hnd. apply I3. now apply NoDup_keys_assign.
Qed.

End ScanFacts.

(** ** Families *)

Lemma form_eqb_spec (f g : form) : reflect (f = g) (form_eqb f g).
Proof. destruct f, g; simpl; constructor; congruence. Qed.

Lemma set_form_fresh (f : form) (v : value) (fam : family) :
  ~ In f (map fst fam) -> set_form f v fam = (fam ++ [(f, v)])%list.
Proof.
  induction fam as [|[g w] fam IH]; simpl; intros H; [reflexivity|].
  destruct (form_eqb_spec g f) as [->|Hne]; [tauto|].
  rewrite IH; tauto.
Qed.

Lemma extend_fresh (ms : family) : forall fam,
  NoDup (map fst fam ++ map fst ms) -> extend fam ms = (fam ++ ms)%list.
Proof.
  induction ms as [|[f v] ms IH]; intros fam H; simpl.
  - now rewrite app_nil_r.
  - change (extend (set_form f v fam) ms = (fam ++ (f, v) :: ms)%list).
    simpl in H. pose proof (NoDup_remove_2 _ _ _ H) as Hf.
    rewrite set_form_fresh by (intros Hin; apply Hf, in_or_app; auto).
    rewrite IH.
    + now rewrite <- app_assoc.
    + rewrite map_app, <- app_assoc. exact H.
Qed.

Lemma in_members (K : string) (f : form) (es : obj) :
  In f (map fst (members K es)) -> In (K ++ "_" ++ form_name f) (keys es).
Proof.
  induction es as [|[key v] es IH]; simpl; [tauto|].
  destruct (parsePluralKey key) as [[b g]|] eqn:E; [|now right; auto].
  destruct (String.eqb_spec b K) as [->|Hne]; [|now right; auto].
  simpl. intros [<-|H]; [|now right; auto].
  left. now apply parsePluralKey_Some in E as (-> & _).
Qed.

Lemma NoDup_members (K : string) (es : obj) :
  NoDup (keys es) -> NoDup (map fst (members K es)).
Proof.
  induction es as [|[key v] es IH]; simpl; intros H; [constructor|].
  inversion H as [|? ? Hnotin Hnd]; subst.
  destruct (parsePluralKey key) as [[b g]|] eqn:E; auto.
  destruct (String.eqb_spec b K) as [->|Hne]; auto.
  simpl. constructor; auto.
  intros Hin. apply in_members in Hin.
  apply parsePluralKey_Some in E as (-> & _). contradiction.
Qed.

Lemma extend_members (K : string) (es : obj) :
  NoDup (keys es) -> extend [] (members K es) = members K es.
Proof.
  intros H. rewrite extend_fresh; [reflexivity|].
  simpl. now apply NoDup_members.
Qed.

Lemma members_nonempty (K : string) (es : obj) :
  members K es <> [] <->
  exists k f, In k (keys es) /\ parsePluralKey k = Some (K, f).
Proof.
  induction es as [|[key v] es IH]; simpl.
  - split; [congruence | intros (k & f & [] & _)].
  - destruct (parsePluralKey key) as [[b g]|] eqn:E.
    + destruct (String.eqb_spec b K) as [->|Hne].
      * split; [|discriminate]. intros _. exists key, g. auto.
      * rewrite IH. split; intros (k & f & Hin & Hp).
        -- exists k, f. auto.
        -- destruct Hin as [<-|Hin]; [congruence|]. eauto.
    + rewrite IH. split; intros (k & f & Hin & Hp).
      * exists k, f. auto.
      * destruct Hin as [<-|Hin]; [congruence|]. eauto.
Qed.

(** ** One pass of [groupPlurals]: the second loop and the whole pass *)

Lemma compile_groups_Return gs : forall result p result' p',
  compile_groups gs result p = Return result' p' ->
  p' = p /\
  (NoDup (keys gs) -> forall K, K <> "__proto__" ->
     match lookup K gs with
     | Some fam => exists s,
         createICUPlural fam = Some s /\ lookup K result' = Some (VStr s)
     | None => lookup K result' = lookup K result
     end) /\
  (forall x, In x (keys result') -> In x (keys result) \/ In x (keys gs)) /\
  (NoDup (keys result) -> NoDup (keys result')).
Proof.
  induction gs as [|[B fam] gs IH]; intros result p result' p' H.
  - simpl in H. unfold ret in H. inversion H; subst. repeat split; auto.
  - simpl in H. apply bind_Return in H as (text & p1 & Hc & H).
    apply lift_option_Return in Hc as [Hc ->].
    destruct (IH _ _ _ _ H) as (-> & I2 & I3 & I4).
    repeat split.
    + intros Hnd K HK. inversion Hnd as [|? ? Hnotin Hnd']; subst.
      specialize (I2 Hnd' K HK). simpl.
      destruct (String.eqb_spec B K) as [->|Hne].
      * assert (lookup K gs = None) as Hno by now apply lookup_None.
        rewrite Hno in I2. exists text.
        now rewrite I2, lookup_assign_eq.
      * destruct (lookup K gs); [assumption|].
        now rewrite I2, lookup_assign_neq.
    + intros x Hx. destruct (I3 x Hx) as [Hx1|?]; [|simpl; auto].
      apply in_keys_assign in Hx1 as [[-> _]|?]; simpl; auto.
    + intros Hnd. apply I4. now apply NoDup_keys_assign.
Qed.

Lemma groupPlurals_unfold (t : obj) (p : proto) :
  groupPlurals t p
  = bind (scan groupPlurals_value t [] [])
         (fun rg => compile_groups (snd rg) (fst rg)) p.
Proof. reflexivity. Qed.

Lemma groupPlurals_Return (t : obj) (p : proto) (t' : obj) (p' : proto) :
  groupPlurals t p = Return t' p' ->
  exists result pg p1,
    scan groupPlurals_value t [] [] p = Return (result, pg) p1 /\
    compile_groups pg result p1 = Return t' p'.
Proof.
  rewrite groupPlurals_unfold. intros H.
  apply bind_Return in H as ([result pg] & p1 & Hs & Hc). eauto.
Qed.

(** The keys of the result of a pass: plain keys of the argument and
    base keys of its plural keys; they are distinct. *)
Lemma pass_keys (t : obj) (p : proto) (t' : obj) (p' : proto) :
  groupPlurals t p = Return t' p' ->
  NoDup (keys t') /\
  forall x, In x (keys t') ->
    (In x (keys t) /\ parsePluralKey x = None /\ x <> "__proto__") \/
    (exists k f, In k (keys t) /\ parsePluralKey k = Some (x, f)).
Proof.
  intros H. apply groupPlurals_Return in H as (result & pg & p1 & Hs & Hc).
  destruct (scan_keys _ _ _ _ _ _ _ _ Hs) as (S1 & S2 & S3 & S4).
  destruct (compile_groups_Return _ _ _ _ _ Hc) as (_ & _ & C3 & C4).
  split; [apply C4, S3; constructor|].
  intros x Hx. destruct (C3 x Hx) as [Hx1|Hx1].
  - destruct (S1 x Hx1) as [[]|?]; auto.
  - destruct (S2 x Hx1) as [[]|?]; auto.
Qed.

(** A plain key that is the base key of no key of the level: the pass
    copies its value, after grouping it when it is an object. *)
Lemma pass_kept (t : obj) (p : proto) (t' : obj) (p' : proto) (k : string) :
  groupPlurals t p = Return t' p' ->
  NoDup (keys t) ->
  parsePluralKey k = None -> k <> "__proto__" ->
  (forall k' f, In k' (keys t) -> parsePluralKey k' <> Some (k, f)) ->
  match lookup k t with
  | Some v => exists v' p1 p2,
      pass_value groupPlurals_value v p1 = Return v' p2 /\ lookup k t' = Some v'
  | None => lookup k t' = None
  end.
Proof.
  intros H Hnd Hk Hpr Hbase.
  apply groupPlurals_Return in H as (result & pg & p1 & Hs & Hc).
  pose proof (scan_plain _ _ _ _ _ _ _ _ Hs Hnd k Hk Hpr) as Hplain.
  destruct (scan_keys _ _ _ _ _ _ _ _ Hs) as (_ & S2 & _ & S4).
  destruct (compile_groups_Return _ _ _ _ _ Hc) as (_ & C2 & _ & _).
  specialize (C2 (S4 (NoDup_nil _)) k Hpr).
  assert (lookup k pg = None) as Hno.
  { apply lookup_None. intros Hin.
    destruct (S2 k Hin) as [[]|(k' & f & Hin' & Hp)].
    now apply (Hbase k' f). }
  rewrite Hno in C2. rewrite C2.
  destruct (lookup k t); exact Hplain.
Qed.

(** A family under a base key that [pluralGroups] does not inherit: the
    pass compiles its members, in the order of the level. *)
Lemma pass_family (t : obj) (p : proto) (t' : obj) (p' : proto) (K : string) :
  groupPlurals t p = Return t' p' ->
  NoDup (keys t) -> own_name K -> members K t <> [] ->
  exists s, createICUPlural (members K t) = Some s /\ lookup K t' = Some (VStr s).
Proof.
  intros H Hnd HK Hne.
  apply groupPlurals_Return in H as (result & pg & p1 & Hs & Hc).
  pose proof (scan_family _ K HK _ _ _ _ _ _ _ Hs) as Hfam.
  destruct (scan_keys _ _ _ _ _ _ _ _ Hs) as (_ & _ & _ & S4).
  destruct (compile_groups_Return _ _ _ _ _ Hc) as (_ & C2 & _ & _).
  specialize (C2 (S4 (NoDup_nil _)) K (proj1 HK)).
  destruct (members K t) as [|m ms] eqn:E; [congruence|].
  rewrite <- E in *. unfold family_of in Hfam. simpl in Hfam.
  rewrite (extend_members _ _ Hnd) in Hfam. rewrite Hfam in C2.
  exact C2.
Qed.

(** ** The second phase of [convertTranslations] *)

Lemma convert_entries_Return (rec : obj -> M obj) es : forall result p out p',
  convert_entries rec es result p = Return out p' ->
  (NoDup (keys es) -> forall k, k <> "__proto__" ->
     match lookup k es with
     | Some v => exists v' p1 p2,
         convertValue rec v p1 = Return v' p2 /\ lookup k out = Some v'
     | None => lookup k out = lookup k result
     end) /\
  (forall x, In x (keys out) -> In x (keys result) \/ In x (keys es)).
Proof.
  induction es as [|[key v] es IH]; intros result p out p' H.
  - simpl in H. unfold ret in H. inversion H; subst.
    split; [intros; reflexivity | auto].
  - simpl in H. apply bind_Return in H as (v1 & p1 & Hv & H).
    destruct (IH _ _ _ _ H) as (I1 & I2). split.
    + intros Hnd k Hk. inversion Hnd as [|? ? Hnotin Hnd']; subst.
      specialize (I1 Hnd' k Hk). simpl.
      destruct (String.eqb_spec key k) as [->|Hne].
      * assert (lookup k es = None) as Hno by now apply lookup_None.
        rewrite Hno in I1. rewrite I1, lookup_assign_eq by assumption. eauto.
      * destruct (lookup k es); [assumption|].
        now rewrite I1, lookup_assign_neq.
    + intros x Hx. destruct (I2 x Hx) as [Hx1|?]; [|simpl; auto].
      apply in_keys_assign in Hx1 as [[-> _]|?]; simpl; auto.
Qed.

Lemma convertTranslations_fuel_Return (n : nat) (t : obj) (p : proto)
    (out : obj) (p' : proto) :
  convertTranslations_fuel n t p = Return out p' ->
  exists m grouped p1,
    n = S m /\ groupPlurals t p = Return grouped p1 /\
    convert_entries (convertTranslations_fuel m) grouped [] p1 = Return out p'.
Proof.
  destruct n as [|m]; simpl; [discriminate|]. intros H.
  apply bind_Return in H as (g & p1 & Hg & Hc). eauto 6.
Qed.

(** ** Several passes over one level *)

Lemma bases_second (x y z : string) :
  In y (bases z) -> In x (bases y) -> In x (tl (bases z)).
Proof.
  intros Hyz Hxy. rewrite bases_unfold in Hyz |- *.
  destruct (parsePluralKey z) as [[b f]|] eqn:E; [|contradiction].
  simpl. destruct Hyz as [->|Hyz]; [assumption|].
  eapply bases_trans; eauto.
Qed.

Lemma regrouped_NoDup (t x : obj) :
  regrouped t x -> NoDup (keys t) -> NoDup (keys x).
Proof.
  intros H. destruct H as [|t x x' p p' _ Hg]; [auto|].
  intros _. now apply pass_keys in Hg.
Qed.

(** Every key after some passes is a key of the level or a base key of
    one of its keys. *)
Lemma regrouped_keys (t x : obj) :
  regrouped t x ->
  forall k, In k (keys x) ->
    In k (keys t) \/ exists k', In k' (keys t) /\ In k (bases k').
Proof.
  induction 1 as [|t x x' p p' _ IH Hg]; [auto|].
  intros k Hk. apply pass_keys in Hg as [_ Hg].
  destruct (Hg k Hk) as [(Hin & _)|(k0 & f & Hin & Hp)]; [auto|].
  apply bases_direct in Hp.
  destruct (IH _ Hin) as [?|(k' & Hin' & Hb)]; right.
  - eauto.
  - exists k'. split; [assumption|]. eapply bases_trans; eauto.
Qed.

(** After at least one pass, a key that matches the plural pattern is
    there as the base key of another key. *)
Lemma regrouped_pass_keys (t x x' : obj) (p p' : proto) :
  regrouped t x -> groupPlurals x p = Return x' p' ->
  forall k, In k (keys x') ->
    (In k (keys t) /\ parsePluralKey k = None /\ k <> "__proto__") \/
    exists k', In k' (keys t) /\ In k (bases k').
Proof.
  intros Hr Hg k Hk. apply pass_keys in Hg as [_ Hg].
  destruct (Hg k Hk) as [(Hin & Hp & Hq)|(k0 & f & Hin & Hp)].
  - destruct (regrouped_keys _ _ Hr _ Hin) as [?|?]; auto.
  - apply bases_direct in Hp.
    destruct (regrouped_keys _ _ Hr _ Hin) as [?|(k' & Hin' & Hb)]; right.
    + eauto.
    + exists k'. split; [assumption|]. eapply bases_trans; eauto.
Qed.

(** A kept key keeps its value through the passes; a nested object goes
    through the same passes. *)
Lemma regrouped_kept (t x : obj) (k : string) :
  regrouped t x -> NoDup (keys t) -> kept t k ->
  match lookup k t with
  | Some v => exists v', lookup k x = Some v' /\ regrouped_value v v'
  | None => lookup k x = None
  end.
Proof.
  intros Hr Hnd (Hk & Hpr & Hb).
  induction Hr as [|t x x' p p' Hr IH Hg].
  - destruct (lookup k t) as [v|]; [|reflexivity].
    exists v. split; [reflexivity|].
    destruct v; simpl; eauto using regrouped_refl.
  - specialize (IH Hnd Hb).
    assert (forall k' f, In k' (keys x) -> parsePluralKey k' <> Some (k, f)) as Hx.
    { intros k' f Hin Hp. apply bases_direct in Hp.
      destruct (regrouped_keys _ _ Hr _ Hin) as [Hin'|(k2 & Hin' & Hb2)].
      - now apply (Hb k').
      - apply (Hb k2 Hin'). eapply bases_trans; eauto. }
    pose proof (pass_kept _ _ _ _ k Hg (regrouped_NoDup _ _ Hr Hnd) Hk Hpr Hx) as Hp.
    destruct (lookup k t) as [v|].
    + destruct IH as (v1 & Hl & Hv). rewrite Hl in Hp.
      destruct Hp as (v2 & p1 & p2 & Hpass & Hl2).
      exists v2. split; [assumption|].
      destruct v; simpl in Hv; subst; simpl in Hpass;
        try (unfold ret in Hpass; inversion Hpass; reflexivity).
      destruct Hv as (c' & -> & Hc). simpl in Hpass.
      apply bind_Return in Hpass as (r & p3 & Hgr & Hret).
      unfold ret in Hret. inversion Hret; subst.
      exists r. split; [reflexivity|].
      eapply regrouped_step; eauto.
    + now rewrite IH in Hp.
Qed.

(** A family keeps the text of its first compilation through the later
    passes, when its base key is a plain key and is not the base key of
    the base key of another key. *)
Lemma regrouped_family (t x x' : obj) (p p' : proto) (K : string) :
  regrouped t x -> groupPlurals x p = Return x' p' ->
  NoDup (keys t) -> own_name K -> parsePluralKey K = None ->
  members K t <> [] ->
  (forall k', In k' (keys t) -> ~ In K (tl (bases k'))) ->
  exists s, createICUPlural (members K t) = Some s /\ lookup K x' = Some (VStr s).
Proof.
  intros Hr. revert x' p p'.
  induction Hr as [|t x0 x p0 p0' Hr IH Hg0]; intros x' p p' Hg Hnd HK Hplain Hmem Hsec.
  - eapply pass_family; eauto.
  - destruct (IH _ _ _ Hg0 Hnd HK Hplain Hmem Hsec) as (s & Hs & Hl).
    exists s. split; [assumption|].
    assert (forall k' f, In k' (keys x) -> parsePluralKey k' <> Some (K, f)) as Hx.
    { intros k' f Hin Hp.
      destruct (regrouped_pass_keys _ _ _ _ _ Hr Hg0 _ Hin)
        as [(_ & Hn & _)|(k2 & Hin2 & Hb2)]; [congruence|].
      apply (Hsec k2 Hin2). eapply bases_second; eauto.
      eapply bases_direct; eauto. }
    pose proof (pass_kept _ _ _ _ K Hg (proj1 (pass_keys _ _ _ _ Hg0))
                  Hplain (proj1 HK) Hx) as Hp.
    rewrite Hl in Hp. destruct Hp as (v2 & p1 & p2 & Hpass & Hl2).
    simpl in Hpass. unfold ret in Hpass. now inversion Hpass; subst.
Qed.

(** ** The conversion of a level *)

Lemma converted_top (t : obj) (p : proto) (out : obj) (p' : proto) :
  convertTranslations t p = Return out p' -> converted t out.
Proof.
  intros H. exists t, (depth (VObj t)), p, p'.
  split; [apply regrouped_refl | exact H].
Qed.

Lemma converted_inv (l out : obj) :
  converted l out ->
  exists x n p grouped p1 p',
    regrouped l x /\ groupPlurals x p = Return grouped p1 /\
    convert_entries (convertTranslations_fuel n) grouped [] p1 = Return out p'.
Proof.
  intros (x & n & p & p' & Hr & Hc).
  apply convertTranslations_fuel_Return in Hc as (m & g & p1 & -> & Hg & Hc).
  exists x, m, p, g, p1, p'. auto.
Qed.

(** The value under the base key of a family: the leaf rewriting of the
    compilation of its members. *)
Lemma converted_family (l out : obj) (K : string) :
  converted l out ->
  NoDup (keys l) -> own_name K -> parsePluralKey K = None ->
  members K l <> [] ->
  (forall k', In k' (keys l) -> ~ In K (tl (bases k'))) ->
  exists s, createICUPlural (members K l) = Some s /\
            lookup K out = Some (VStr (rewrite_leaf s)).
Proof.
  intros Hc Hnd HK Hplain Hmem Hsec.
  apply converted_inv in Hc as (x & n & p & g & p1 & p' & Hr & Hg & Hc).
  destruct (regrouped_family _ _ _ _ _ K Hr Hg Hnd HK Hplain Hmem Hsec) as (s & Hs & Hl).
  exists s. split; [assumption|].
  apply convert_entries_Return in Hc as [Hc _].
  specialize (Hc (proj1 (pass_keys _ _ _ _ Hg)) K (proj1 HK)).
  rewrite Hl in Hc. destruct Hc as (v' & q1 & q2 & Hv & Hout).
  simpl in Hv. unfold ret in Hv. now inversion Hv; subst.
Qed.

(** The value under a kept key: a nested object is converted in turn, a
    string is rewritten, another value is copied. *)
Lemma converted_kept (l out : obj) (k : string) :
  converted l out -> NoDup (keys l) -> kept l k ->
  match lookup k l with
  | Some (VObj c) => exists c', lookup k out = Some (VObj c') /\ converted c c'
  | Some (VStr s) => lookup k out = Some (VStr (rewrite_leaf s))
  | Some v => lookup k out = Some v
  | None => lookup k out = None
  end.
Proof.
  intros Hc Hnd Hk.
  apply converted_inv in Hc as (x & n & p & g & p1 & p' & Hr & Hg & Hc).
  pose proof (regrouped_kept _ _ k (regrouped_step _ _ _ _ _ Hr Hg) Hnd Hk) as Hl.
  apply convert_entries_Return in Hc as [Hc _].
  specialize (Hc (proj1 (pass_keys _ _ _ _ Hg)) k (proj1 (proj2 Hk))).
  destruct (lookup k l) as [v|].
  - destruct Hl as (v1 & Hl & Hv). rewrite Hl in Hc.
    destruct Hc as (v2 & q1 & q2 & Hcv & Hout). rewrite Hout.
    destruct v; simpl in Hv; subst; simpl in Hcv;
      try (unfold ret in Hcv; inversion Hcv; reflexivity).
    destruct Hv as (c' & -> & Hrc). simpl in Hcv.
    apply bind_Return in Hcv as (r & q3 & Hrec & Hret).
    unfold ret in Hret. inversion Hret; subst.
    exists r. split; [reflexivity|].
    exists c', n, q1, q2. auto.
  - rewrite Hl in Hc. exact Hc.
Qed.

(** The keys of a converted level: plain keys of the level, and base
    keys of its keys. *)
Lemma converted_keys (l out : obj) (k : string) :
  converted l out -> In k (keys out) ->
  (In k (keys l) /\ parsePluralKey k = None /\ k <> "__proto__") \/
  exists k', In k' (keys l) /\ In k (bases k').
Proof.
  intros Hc Hin.
  apply converted_inv in Hc as (x & n & p & g & p1 & p' & Hr & Hg & Hc).
  apply convert_entries_Return in Hc as [_ Hc].
  destruct (Hc k Hin) as [[]|Hin'].
  eapply regrouped_pass_keys; eauto.
Qed.

(** The conversion of the level that a path of kept keys leads to. *)
Lemma converted_level (path : list string) (t l out : obj) :
  level_at path t l -> converted t out ->
  exists out_l, sub_at path (VObj out) = Some (VObj out_l) /\ converted l out_l.
Proof.
  intros Hp. revert out.
  induction Hp as [t Hnd|k path t c l Hnd Hk Hl Hp IH]; intros out Hc.
  - exists out. split; [reflexivity | assumption].
  - pose proof (converted_kept _ _ k Hc Hnd Hk) as Hkept.
    rewrite Hl in Hkept. destruct Hkept as (c' & Hout & Hcc).
    destruct (IH _ Hcc) as (out_l & Hsub & Hcl).
    exists out_l. split; [|assumption].
    simpl. now rewrite Hout.
Qed.

Lemma level_at_NoDup (path : list string) (t l : obj) :
  level_at path t l -> NoDup (keys l).
Proof. induction 1; assumption. Qed.

(** ** Termination: the depth of the argument is enough fuel *)

Section ValuesFacts.

Context {A : Type} (Q : A -> Prop).
Implicit Types (o : list (string * A)) (k : string) (v : A).

Lemma all_overwrite o k v :
  Forall (fun kv => Q (snd kv)) o -> Q v ->
  Forall (fun kv => Q (snd kv)) (overwrite k v o).
Proof.
  intros Ho Hv. induction o as [|[k' v'] o IH]; simpl; [constructor|].
  inversion Ho; subst. destruct (String.eqb k' k); constructor; auto.
Qed.

Lemma all_place o k v :
  Forall (fun kv => Q (snd kv)) o -> Q v ->
  Forall (fun kv => Q (snd kv)) (place k v o).
Proof.
  intros Ho Hv. induction o as [|[k' v'] o IH]; simpl.
  - constructor; [assumption | constructor].
  - destruct (comes_before k k'); [constructor; assumption|].
    inversion Ho; subst. constructor; auto.
Qed.

Lemma all_define o k v :
  Forall (fun kv => Q (snd kv)) o -> Q v ->
  Forall (fun kv => Q (snd kv)) (define k v o).
Proof.
  intros Ho Hv. unfold define.
  destruct (has_key k o); [now apply all_overwrite | now apply all_place].
Qed.

End ValuesFacts.

Lemma shallow_assign (n : nat) (o : obj) (k : string) (v : value) :
  shallow n o -> depth v <= n -> shallow n (assign k v o).
Proof.
  intros Ho Hv. unfold assign. destruct (String.eqb k "__proto__"); [assumption|].
  now apply (all_define (fun v => depth v <= n)).
Qed.

Lemma depth_obj (o : obj) (n : nat) : depth (VObj o) <= S n <-> shallow n o.
Proof.
  unfold shallow. simpl. rewrite <- Nat.succ_le_mono, list_max_le, Forall_map.
  reflexivity.
Qed.

Lemma depth_obj_pos (o : obj) : 1 <= depth (VObj o).
Proof. simpl. lia. Qed.

Lemma shallow_le (n m : nat) (o : obj) : n <= m -> shallow n o -> shallow m o.
Proof.
  intros Hnm. apply Forall_impl. intros kv H. lia.
Qed.

Lemma compile_groups_shallow (n : nat) gs : forall result p result' p',
  compile_groups gs result p = Return result' p' ->
  shallow n result -> shallow n result'.
Proof.
  induction gs as [|[B fam] gs IH]; intros result p result' p' H Hs.
  - simpl in H. unfold ret in H. now inversion H; subst.
  - simpl in H. apply bind_Return in H as (text & p1 & _ & H).
    eapply IH; eauto. apply shallow_assign; [assumption | simpl; lia].
Qed.

Lemma compile_groups_halts gs : forall result p,
  compile_groups gs result p <> OutOfFuel.
Proof.
  induction gs as [|[B fam] gs IH]; intros result p; simpl; [discriminate|].
  unfold bind. destruct (createICUPlural fam); simpl; [apply IH | discriminate].
Qed.

Lemma add_form_halts pg b f v p : add_form pg b f v p <> OutOfFuel.
Proof.
  unfold add_form.
  destruct (read_group pg b p) as [fam| | |g h|]; try discriminate.
  destruct (truthy (held_value h)); [|discriminate].
  destruct (held_value h); discriminate.
Qed.

Section ScanDepth.

Variable nested : value -> M obj.
Variable n : nat.

Lemma pass_value_depth es k v p v' p' :
  nested_ok nested es -> In (k, v) es -> depth v <= n ->
  pass_value nested v p = Return v' p' -> depth v' <= n.
Proof.
  intros Hok Hin Hd H. destruct v; simpl in H;
    try (unfold ret in H; inversion H; subst; assumption).
  apply bind_Return in H as (r & p1 & Hr & Hret).
  unfold ret in Hret. inversion Hret; subst.
  destruct (Hok _ _ Hin p) as [_ Hle]. specialize (Hle _ _ Hr). lia.
Qed.

Lemma pass_value_halts es k v p :
  nested_ok nested es -> In (k, v) es -> pass_value nested v p <> OutOfFuel.
Proof.
  intros Hok Hin. destruct v; simpl; try discriminate.
  unfold bind. destruct (Hok _ _ Hin p) as [Hh _].
  destruct (nested (VObj entries) p); [discriminate | discriminate | congruence].
Qed.

Lemma scan_shallow es : forall result pg p result' pg' p',
  nested_ok nested es -> shallow n es ->
  scan nested es result pg p = Return (result', pg') p' ->
  shallow n result -> shallow n result'.
Proof.
  induction es as [|[key v] es IH]; intros result pg p result' pg' p' Hok Hes H Hs.
  - simpl in H. unfold ret in H. now inversion H; subst.
  - assert (nested_ok nested es) as Hok'.
    { intros k c Hin. apply (Hok k c). now right. }
    inversion Hes as [|? ? Hv Hes']; subst. simpl in Hv.
    destruct (parsePluralKey key) as [[b f]|] eqn:E.
    + rewrite (scan_cons_plural _ _ _ _ _ _ _ _ _ E) in H.
      apply bind_Return in H as (pg1 & p1 & _ & H). eapply IH; eauto.
    + rewrite (scan_cons_plain _ _ _ _ _ _ _ E) in H.
      apply bind_Return in H as (v1 & p1 & Hpv & H).
      eapply IH; eauto. apply shallow_assign; [assumption|].
      exact (pass_value_depth _ key v p v1 p1 Hok (in_eq _ _) Hv Hpv).
Qed.

Lemma scan_halts es : forall result pg p,
  nested_ok nested es -> scan nested es result pg p <> OutOfFuel.
Proof.
  induction es as [|[key v] es IH]; intros result pg p Hok; [discriminate|].
  assert (nested_ok nested es) as Hok'.
  { intros k c Hin. apply (Hok k c). now right. }
  destruct (parsePluralKey key) as [[b f]|] eqn:E.
  - rewrite (scan_cons_plural _ _ _ _ _ _ _ _ _ E). unfold bind.
    pose proof (add_form_halts pg b f v p).
    destruct (add_form pg b f v p); [now apply IH | discriminate | congruence].
  - rewrite (scan_cons_plain _ _ _ _ _ _ _ E). unfold bind.
    pose proof (pass_value_halts _ key v p Hok (or_introl eq_refl)).
    destruct (pass_value nested v p); [now apply IH | discriminate | congruence].
Qed.

End ScanDepth.

(** [groupPlurals] is a structural recursion: it never runs out of fuel,
    and its result is not deeper than its argument. *)
Lemma groupPlurals_depth (n : nat) : forall t p,
  depth (VObj t) <= n ->
  groupPlurals t p <> OutOfFuel /\
  forall r p', groupPlurals t p = Return r p' -> depth (VObj r) <= depth (VObj t).
Proof.
  induction n as [|n IH]; intros t p Hd.
  - pose proof (depth_obj_pos t). lia.
  - assert (nested_ok groupPlurals_value t) as Hok.
    { intros k c Hin q. apply (IH c q).
      apply depth_obj in Hd. unfold shallow in Hd.
      rewrite Forall_forall in Hd. exact (Hd _ Hin). }
    split.
    + rewrite groupPlurals_unfold. unfold bind.
      pose proof (scan_halts groupPlurals_value t [] [] p Hok).
      destruct (scan groupPlurals_value t [] [] p) as [[result pg] p1| |];
        [apply compile_groups_halts | discriminate | congruence].
    + intros r p' H.
      apply groupPlurals_Return in H as (result & pg & p1 & Hs & Hc).
      destruct (depth (VObj t)) as [|m] eqn:Em; [pose proof (depth_obj_pos t); lia|].
      apply depth_obj.
      eapply compile_groups_shallow; eauto.
      eapply scan_shallow; eauto; [|constructor].
      apply depth_obj. lia.
Qed.

Lemma convert_entries_fuel (n m d : nat) es : forall result p,
  (forall o q, depth (VObj o) <= d ->
     convertTranslations_fuel n o q = convertTranslations_fuel m o q /\
     convertTranslations_fuel n o q <> OutOfFuel) ->
  shallow d es ->
  convert_entries (convertTranslations_fuel n) es result p
  = convert_entries (convertTranslations_fuel m) es result p /\
  convert_entries (convertTranslations_fuel n) es result p <> OutOfFuel.
Proof.
  induction es as [|[key v] es IH]; intros result p Hrec Hes.
  - split; [reflexivity | discriminate].
  - inversion Hes as [|? ? Hv Hes']; subst. simpl in Hv.
    simpl. unfold bind.
    assert (convertValue (convertTranslations_fuel n) v p
            = convertValue (convertTranslations_fuel m) v p /\
            convertValue (convertTranslations_fuel n) v p <> OutOfFuel) as [E Hh].
    { destruct v; simpl; try (split; [reflexivity | discriminate]).
      unfold bind. destruct (Hrec entries p Hv) as [E Hh]. rewrite <- E.
      split; [reflexivity|].
      destruct (convertTranslations_fuel n entries p); [discriminate | discriminate | congruence]. }
    rewrite <- E.
    destruct (convertValue (convertTranslations_fuel n) v p) as [v1 p1| |];
      [now apply IH | split; [reflexivity | discriminate] | congruence].
Qed.

(** More fuel than the depth of the argument changes nothing, and the
    conversion never runs out of fuel. *)
Lemma convertTranslations_fuel_enough (n : nat) : forall m t p,
  depth (VObj t) <= n -> depth (VObj t) <= m ->
  convertTranslations_fuel n t p = convertTranslations_fuel m t p /\
  convertTranslations_fuel n t p <> OutOfFuel.
Proof.
  induction n as [|n IH]; intros m t p Hn Hm.
  - pose proof (depth_obj_pos t). lia.
  - destruct m as [|m]; [pose proof (depth_obj_pos t); lia|].
    simpl. unfold bind.
    destruct (groupPlurals_depth _ t p (le_n _)) as [Hh Hle].
    destruct (groupPlurals t p) as [g p1| |]; [|split; [reflexivity | discriminate] | congruence].
    specialize (Hle _ _ eq_refl).
    apply (convert_entries_fuel n m (Nat.min n m)).
    + intros o q Ho. apply IH; lia.
    + apply depth_obj. lia.
Qed.

Lemma convertTranslations_halts (t : obj) (p : proto) :
  convertTranslations t p <> OutOfFuel.
Proof.
  unfold convertTranslations.
  now apply (convertTranslations_fuel_enough _ (depth (VObj t))).
Qed.

Lemma convertTranslations_fuel_more (n : nat) (t : obj) (p : proto) :
  depth (VObj t) <= n ->
  convertTranslations_fuel n t p = convertTranslations t p.
Proof.
  intros H. unfold convertTranslations.
  now apply convertTranslations_fuel_enough.
Qed.

(** ** The frame of a plural expression survives the leaf rewriting *)

Lemma last_char_app (a b : string) : b <> "" -> last_char (a ++ b) = last_char b.
Proof.
  intros Hb. induction a as [|x a IH]; simpl; [reflexivity|].
  rewrite IH. destruct (a ++ b) eqn:E; [|reflexivity].
  destruct a; simpl in E; [congruence | discriminate].
Qed.

Lemma last_char_Some (s : string) (c : ascii) :
  last_char s = Some c -> exists body, s = body ++ String c "".
Proof.
  induction s as [|a s IH]; simpl; [discriminate|].
  destruct s as [|b s].
  - intros H; inversion H; subst. now exists "".
  - intros H. destruct (IH H) as (body & E). exists (String a body).
    simpl. now rewrite <- E.
Qed.

Lemma last_char_None (s : string) : last_char s = None -> s = "".
Proof.
  induction s as [|a s IH]; simpl; [reflexivity|].
  destruct s; [discriminate|]. intros H. specialize (IH H). discriminate.
Qed.

Section ReplaceLast.

Variable matcher : string -> option (string * string).
Variable template : string -> string.
Variable e : ascii.
Hypothesis shrinks :
  forall s c r, matcher s = Some (c, r) -> String.length r < String.length s.
Hypothesis match_last :
  forall s c r, matcher s = Some (c, r) -> last_char s = Some e ->
    (r <> "" /\ last_char r = Some e) \/
    (r = "" /\ last_char (template c) = Some e).

Lemma replace_global_last (s : string) :
  last_char s = Some e -> last_char (replace_global matcher template s) = Some e.
Proof.
  remember (String.length s) as n eqn:Hn. revert s Hn.
  induction n as [n IH] using lt_wf_ind. intros s -> Hl.
  destruct (matcher s) as [[c r]|] eqn:E.
  - rewrite (replace_global_match _ _ shrinks _ _ _ E).
    destruct (match_last _ _ _ E Hl) as [[Hr Hlr]|[-> Ht]].
    + assert (last_char (replace_global matcher template r) = Some e) as Hrec.
      { eapply IH; eauto. }
      rewrite last_char_app; [assumption|].
      intros Hnil. rewrite Hnil in Hrec. discriminate.
    + now rewrite (replace_global_nil _ _ shrinks), append_nil_r.
  - destruct s as [|a s]; [discriminate|].
    rewrite (replace_global_skip _ _ _ _ E).
    destruct s as [|b s].
    + now rewrite (replace_global_nil _ _ shrinks).
    + assert (last_char (replace_global matcher template (String b s)) = Some e) as Hrec.
      { eapply IH; eauto. simpl. lia. }
      change (String a (replace_global matcher template (String b s)))
        with (String a "" ++ replace_global matcher template (String b s)).
      rewrite last_char_app; [assumption|].
      intros Hnil. rewrite Hnil in Hrec. discriminate.
Qed.

End ReplaceLast.

Lemma last_char_snoc (a : string) (c : ascii) : last_char (a ++ String c "") = Some c.
Proof. rewrite last_char_app; [reflexivity | discriminate]. Qed.

Lemma convertInterpolation_last (s : string) :
  last_char s = Some "}"%char -> last_char (convertInterpolation s) = Some "}"%char.
Proof.
  apply replace_global_last; [apply match_interpolation_shrinks|].
  intros s0 c r E Hl. apply match_interpolation_iff in E as (_ & _ & ->).
  destruct r as [|x r].
  - right. split; [reflexivity|].
    rewrite <- append_assoc. apply last_char_snoc.
  - left. split; [discriminate|].
    rewrite <- Hl, <- !append_assoc. symmetry. apply last_char_app. discriminate.
Qed.

Lemma convertNesting_last (s : string) :
  last_char s = Some "}"%char -> last_char (convertNesting s) = Some "}"%char.
Proof.
  apply replace_global_last; [apply match_nesting_shrinks|].
  intros s0 c r E Hl. apply match_nesting_iff in E as (_ & _ & ->).
  destruct r as [|x r].
  - rewrite append_nil_r, <- append_assoc, last_char_snoc in Hl. discriminate.
  - left. split; [discriminate|].
    rewrite <- Hl, <- !append_assoc. symmetry. apply last_char_app. discriminate.
Qed.

Lemma convertInterpolation_frame (r : string) :
  convertInterpolation ("{count, plural, " ++ r)
  = "{count, plural, " ++ convertInterpolation r.
Proof.
  cbn [append].
  repeat (rewrite convertInterpolation_skip by reflexivity). reflexivity.
Qed.

Lemma convertNesting_frame (r : string) :
  convertNesting ("{count, plural, " ++ r) = "{count, plural, " ++ convertNesting r.
Proof.
  cbn [append].
  repeat (rewrite convertNesting_skip by reflexivity). reflexivity.
Qed.

(** The leaf rewriting of a text in the frame of a plural expression is
    again in that frame. *)
Lemma rewrite_leaf_frame (inner : string) :
  exists body,
    rewrite_leaf ("{count, plural, " ++ inner ++ "}") = "{count, plural, " ++ body ++ "}".
Proof.
  unfold rewrite_leaf.
  rewrite convertInterpolation_frame, convertNesting_frame.
  assert (last_char (convertNesting (convertInterpolation (inner ++ "}"))) = Some "}"%char) as Hl.
  { apply convertNesting_last, convertInterpolation_last, last_char_snoc. }
  apply last_char_Some in Hl as (body & ->). now exists body.
Qed.

(** ** The order of the keys *)

Lemma add_once_in (k : string) (l : list string) : In k l -> add_once k l = l.
Proof.
  induction l as [|k' l IH]; simpl; [tauto|].
  destruct (String.eqb_spec k' k) as [->|Hne]; [reflexivity|].
  intros [?|H]; [congruence|]. now rewrite IH.
Qed.

Lemma add_once_notin (k : string) (l : list string) :
  ~ In k l -> add_once k l = (l ++ [k])%list.
Proof.
  induction l as [|k' l IH]; simpl; intros H; [reflexivity|].
  destruct (String.eqb_spec k' k) as [->|Hne]; [tauto|].
  rewrite IH; tauto.
Qed.

Lemma in_add_once (k x : string) (l : list string) :
  In x (add_once k l) <-> x = k \/ In x l.
Proof.
  destruct (in_dec string_dec k l) as [Hin|Hn].
  - rewrite add_once_in by assumption. split; [auto | intros [->|]; auto].
  - rewrite add_once_notin, in_app_iff by assumption. simpl. intuition auto.
Qed.

Lemma keys_define_add_once {A : Type} (o : list (string * A)) (k : string) (v : A) :
  array_index k = None -> keys (define k v o) = add_once k (keys o).
Proof.
  intros Hi. destruct (in_dec string_dec k (keys o)) as [Hin|Hn].
  - now rewrite keys_define_old, add_once_in.
  - now rewrite keys_define_new, add_once_notin.
Qed.

Lemma keys_assign_new (o : obj) (k : string) (v : value) :
  k <> "__proto__" -> array_index k = None -> ~ In k (keys o) ->
  keys (assign k v o) = (keys o ++ [k])%list.
Proof.
  intros Hp Hi Hn. unfold assign. apply String.eqb_neq in Hp. rewrite Hp.
  now apply keys_define_new.
Qed.

Lemma in_base_keys_from (ks : list string) : forall acc b,
  In b (base_keys_from ks acc) <->
  In b acc \/ exists k f, In k ks /\ parsePluralKey k = Some (b, f).
Proof.
  induction ks as [|k ks IH]; intros acc b; simpl.
  - split; [auto | intros [?|(k & f & [] & _)]; assumption].
  - destruct (parsePluralKey k) as [[b0 f0]|] eqn:E.
    + rewrite IH, in_add_once. split.
      * intros [[->|?]|(k' & f & Hin & Hp)]; eauto 6.
      * intros [?|(k' & f & [<-|Hin] & Hp)]; eauto 6.
        rewrite E in Hp. inversion Hp; subst. auto.
    + rewrite IH. split.
      * intros [?|(k' & f & Hin & Hp)]; eauto 6.
      * intros [?|(k' & f & [<-|Hin] & Hp)]; eauto 6. congruence.
Qed.

Lemma in_base_keys (l : obj) (b : string) :
  In b (base_keys l) <->
  exists k f, In k (keys l) /\ parsePluralKey k = Some (b, f).
Proof.
  unfold base_keys. rewrite in_base_keys_from. simpl. tauto.
Qed.

Lemma in_plain_keys (l : obj) (k : string) :
  In k (plain_keys l) <-> In k (keys l) /\ parsePluralKey k = None.
Proof.
  unfold plain_keys. rewrite filter_In.
  destruct (parsePluralKey k); split; intros [? ?]; split; congruence.
Qed.

Lemma plain_keys_cons_plain (key : string) (v : value) (es : obj) :
  parsePluralKey key = None ->
  plain_keys ((key, v) :: es) = key :: plain_keys es.
Proof. intros E. unfold plain_keys. simpl. now rewrite E. Qed.

Lemma plain_keys_cons_plural (key : string) (v : value) (es : obj) (b : string) (f : form) :
  parsePluralKey key = Some (b, f) ->
  plain_keys ((key, v) :: es) = plain_keys es.
Proof. intros E. unfold plain_keys. simpl. now rewrite E. Qed.

Lemma scan_order (nested : value -> M obj) es : forall result pg p result' pg' p',
  scan nested es result pg p = Return (result', pg') p' ->
  NoDup (keys es) ->
  (forall k, In k (keys es) -> parsePluralKey k = None ->
     k <> "__proto__" /\ array_index k = None /\ ~ In k (keys result)) ->
  (forall k b f, In k (keys es) -> parsePluralKey k = Some (b, f) ->
     own_name b /\ array_index b = None) ->
  keys result' = (keys result ++ plain_keys es)%list /\
  keys pg' = base_keys_from (keys es) (keys pg).
Proof.
  induction es as [|[key v] es IH]; intros result pg p result' pg' p' H Hnd Hpl Hba.
  - simpl in H. unfold ret in H. inversion H; subst.
    split; [now rewrite app_nil_r | reflexivity].
  - inversion Hnd as [|? ? Hnotin Hnd']; subst.
    destruct (parsePluralKey key) as [[b f]|] eqn:E.
    + rewrite (scan_cons_plural _ _ _ _ _ _ _ _ _ E) in H.
      apply bind_Return in H as (pg1 & p1 & Ha & H).
      destruct (Hba key b f (in_eq _ _) E) as [Hown Hidx].
      rewrite (add_form_own _ _ _ _ _ Hown) in Ha. inversion Ha; subst pg1 p1.
      destruct (IH _ _ _ _ _ _ H Hnd') as [I1 I2].
      * intros k Hin. apply Hpl. now right.
      * intros k b' f' Hin. apply Hba. now right.
      * rewrite (plain_keys_cons_plural _ _ _ _ _ E). split; [assumption|].
        simpl. rewrite E, I2. now rewrite keys_define_add_once.
    + rewrite (scan_cons_plain _ _ _ _ _ _ _ E) in H.
      apply bind_Return in H as (v1 & p1 & _ & H).
      destruct (Hpl key (in_eq _ _) E) as (Hp & Hidx & Hfresh).
      destruct (IH _ _ _ _ _ _ H Hnd') as [I1 I2].
      * intros k Hin Hk. destruct (Hpl k (in_cons _ _ _ Hin) Hk) as (? & ? & ?).
        repeat split; auto.
        rewrite keys_assign_new, in_app_iff by assumption.
        simpl. intros [?|[<-|[]]]; contradiction.
      * intros k b' f' Hin. apply Hba. now right.
      * rewrite (plain_keys_cons_plain _ _ _ E). split.
        -- rewrite I1, keys_assign_new by assumption.
           now rewrite <- app_assoc.
        -- simpl. now rewrite E.
Qed.

Lemma compile_groups_order gs : forall result p result' p',
  compile_groups gs result p = Return result' p' ->
  NoDup (keys gs) ->
  (forall b, In b (keys gs) ->
     b <> "__proto__" /\ array_index b = None /\ ~ In b (keys result)) ->
  keys result' = (keys result ++ keys gs)%list.
Proof.
  induction gs as [|[B fam] gs IH]; intros result p result' p' H Hnd Hb.
  - simpl in H. unfold ret in H. inversion H; subst. now rewrite app_nil_r.
  - simpl in H. apply bind_Return in H as (text & p1 & _ & H).
    inversion Hnd as [|? ? Hnotin Hnd']; subst.
    destruct (Hb B (in_eq _ _)) as (Hp & Hidx & Hfresh).
    rewrite (IH _ _ _ _ H Hnd').
    + rewrite keys_assign_new by assumption. simpl. now rewrite <- app_assoc.
    + intros b Hin. destruct (Hb b (in_cons _ _ _ Hin)) as (? & ? & ?).
      repeat split; auto.
      rewrite keys_assign_new, in_app_iff by assumption.
      simpl. intros [?|[<-|[]]]; contradiction.
Qed.

(** One pass over an orderly level: the plain keys in their order, then
    the base keys in order of first appearance. *)
Lemma pass_order (l : obj) (p : proto) (g : obj) (p' : proto) :
  groupPlurals l p = Return g p' -> NoDup (keys l) -> orderly l ->
  keys g = (plain_keys l ++ base_keys l)%list.
Proof.
  intros H Hnd [Hpl Hba].
  apply groupPlurals_Return in H as (result & pg & p1 & Hs & Hc).
  destruct (scan_keys _ _ _ _ _ _ _ _ Hs) as (_ & S2 & _ & S4).
  destruct (scan_order _ _ _ _ _ _ _ _ Hs Hnd) as [O1 O2].
  - intros k Hin Hk. destruct (Hpl k Hin Hk). repeat split; auto.
  - intros k b f Hin Hk. destruct (Hba k b f Hin Hk) as (? & ? & _). auto.
  - rewrite (compile_groups_order _ _ _ _ _ Hc (S4 (NoDup_nil _))).
    + rewrite O1, O2. reflexivity.
    + intros b Hin. destruct (S2 b Hin) as [[]|(k & f & Hk & Hp)].
      destruct (Hba k b f Hk Hp) as (Hown & Hidx & Hfresh).
      repeat split; [apply Hown | assumption|].
      rewrite O1. simpl. intros Hin'. apply in_plain_keys in Hin' as [? _]. contradiction.
Qed.

Lemma plain_keys_all (l : obj) :
  (forall k, In k (keys l) -> parsePluralKey k = None) -> plain_keys l = keys l.
Proof.
  intros H. unfold plain_keys.
  induction (keys l) as [|k ks IH]; simpl; [reflexivity|].
  rewrite (H k (in_eq _ _)). f_equal. apply IH. intros k' Hin. apply H. now right.
Qed.

Lemma base_keys_none (l : obj) :
  (forall k, In k (keys l) -> parsePluralKey k = None) -> base_keys l = [].
Proof.
  intros H. unfold base_keys.
  induction (keys l) as [|k ks IH]; simpl; [reflexivity|].
  rewrite (H k (in_eq _ _)). apply IH. intros k' Hin. apply H. now right.
Qed.

(** The keys of an orderly level after one pass. *)
Lemma orderly_keys (l : obj) (k : string) :
  orderly l -> In k (plain_keys l ++ base_keys l)%list ->
  k <> "__proto__" /\ array_index k = None.
Proof.
  intros [Hpl Hba] Hin. rewrite in_app_iff in Hin. destruct Hin as [Hin|Hin].
  - apply in_plain_keys in Hin as [Hin Hk]. now apply Hpl.
  - apply in_base_keys in Hin as (k0 & f & Hin & Hk).
    destruct (Hba k0 k f Hin Hk) as (Hown & ? & _).
    split; [apply Hown | assumption].
Qed.

(** Further passes keep that order. *)
Lemma regrouped_order (l x x' : obj) (p p' : proto) :
  regrouped l x -> groupPlurals x p = Return x' p' ->
  NoDup (keys l) -> orderly l -> single_suffixed l ->
  keys x' = (plain_keys l ++ base_keys l)%list.
Proof.
  intros Hr. revert x' p p'.
  induction Hr as [|l x0 x p0 p0' Hr IH Hg0]; intros x' p p' Hg Hnd Hord Hss.
  - now apply (pass_order _ _ _ _ Hg).
  - specialize (IH _ _ _ Hg0 Hnd Hord Hss).
    assert (forall k, In k (keys x) -> parsePluralKey k = None) as Hx.
    { intros k Hin. rewrite IH, in_app_iff in Hin. destruct Hin as [Hin|Hin].
      - now apply in_plain_keys in Hin.
      - apply in_base_keys in Hin as (k0 & f & Hin & Hk). eapply Hss; eauto. }
    rewrite (pass_order _ _ _ _ Hg).
    + rewrite plain_keys_all, base_keys_none by assumption.
      now rewrite app_nil_r.
    + now apply pass_keys in Hg0.
    + split.
      * intros k Hin _. rewrite IH in Hin. now apply (orderly_keys l).
      * intros k b f Hin Hk. specialize (Hx k Hin). congruence.
Qed.

Lemma convert_entries_order (rec : obj -> M obj) es : forall result p out p',
  convert_entries rec es result p = Return out p' ->
  NoDup (keys es) ->
  (forall k, In k (keys es) ->
     k <> "__proto__" /\ array_index k = None /\ ~ In k (keys result)) ->
  keys out = (keys result ++ keys es)%list.
Proof.
  induction es as [|[key v] es IH]; intros result p out p' H Hnd Hk.
  - simpl in H. unfold ret in H. inversion H; subst. now rewrite app_nil_r.
  - simpl in H. apply bind_Return in H as (v1 & p1 & _ & H).
    inversion Hnd as [|? ? Hnotin Hnd']; subst.
    destruct (Hk key (in_eq _ _)) as (Hp & Hidx & Hfresh).
    rewrite (IH _ _ _ _ H Hnd').
    + rewrite keys_assign_new by assumption. simpl. now rewrite <- app_assoc.
    + intros k Hin. destruct (Hk k (in_cons _ _ _ Hin)) as (? & ? & ?).
      repeat split; auto.
      rewrite keys_assign_new, in_app_iff by assumption.
      simpl. intros [?|[<-|[]]]; contradiction.
Qed.

Lemma convert_entries_same_keys (rec : obj -> M obj) (l g : obj) (p : proto)
    (out : obj) (p' : proto) :
  convert_entries rec g [] p = Return out p' ->
  NoDup (keys g) -> orderly l ->
  keys g = (plain_keys l ++ base_keys l)%list ->
  keys out = (plain_keys l ++ base_keys l)%list.
Proof.
  intros Hc Hnd Hord Hkeys.
  rewrite (convert_entries_order _ _ _ _ _ _ Hc Hnd).
  - exact Hkeys.
  - intros k Hin. rewrite Hkeys in Hin.
    destruct (orderly_keys _ _ Hord Hin). auto.
Qed.

(** The keys of the conversion of an orderly level. *)
Lemma converted_order (l out : obj) :
  converted l out -> NoDup (keys l) -> orderly l -> single_suffixed l ->
  keys out = (plain_keys l ++ base_keys l)%list.
Proof.
  intros Hc Hnd Hord Hss.
  apply converted_inv in Hc as (x & n & p & g & p1 & p' & Hr & Hg & Hc).
  eapply convert_entries_same_keys; eauto.
  - now apply pass_keys in Hg.
  - eapply regrouped_order; eauto.
Qed.

(** The keys of the conversion of an orderly tree, at its top level. *)
Lemma top_order (t : obj) (p : proto) (out : obj) (p' : proto) :
  convertTranslations t p = Return out p' -> NoDup (keys t) -> orderly t ->
  keys out = (plain_keys t ++ base_keys t)%list.
Proof.
  intros H Hnd Hord. unfold convertTranslations in H.
  apply convertTranslations_fuel_Return in H as (m & g & p1 & _ & Hg & Hc).
  eapply convert_entries_same_keys; eauto.
  - now apply pass_keys in Hg.
  - eapply pass_order; eauto.
Qed.

(** ** Trees without plural keys *)

Lemma in_define {A : Type} (o : list (string * A)) (k : string) (v : A) (kv : string * A) :
  In kv (define k v o) -> kv = (k, v) \/ In kv o.
Proof.
  unfold define. destruct (has_key k o).
  - induction o as [|[k0 v0] o IH]; simpl; [tauto|].
    destruct (String.eqb_spec k0 k) as [->|Hne]; simpl.
    + intros [<-|?]; auto.
    + intros [<-|?]; auto. destruct IH; auto.
  - induction o as [|[k0 v0] o IH]; simpl.
    + intros [<-|[]]; auto.
    + destruct (comes_before k k0); simpl.
      * intros [<-|[<-|?]]; auto.
      * intros [<-|?]; auto. destruct IH; auto.
Qed.

Lemma in_assign (o : obj) (k : string) (v : value) (kv : string * value) :
  In kv (assign k v o) -> (kv = (k, v) /\ k <> "__proto__") \/ In kv o.
Proof.
  unfold assign. destruct (String.eqb_spec k "__proto__") as [->|Hne]; [auto|].
  intros H. apply in_define in H as [?|?]; auto.
Qed.

Lemma plain_tree_inv (es : obj) :
  plain_tree (VObj es) -> NoDup (keys es) /\ plain_entries es.
Proof.
  intros H. inversion H as [v Hv|es' Hnd He]; subst.
  - now destruct (Hv es).
  - split; assumption.
Qed.

Lemma plain_tree_keys (es : obj) (k : string) :
  plain_tree (VObj es) -> In k (keys es) ->
  parsePluralKey k = None /\ k <> "__proto__".
Proof.
  intros H Hin. apply plain_tree_inv in H as [_ He].
  apply in_map_iff in Hin as ([k' c] & <- & Hin).
  destruct (He _ _ Hin) as (? & ? & _). auto.
Qed.

Lemma plain_tree_kept (es : obj) (k : string) :
  plain_tree (VObj es) -> In k (keys es) -> kept es k.
Proof.
  intros H Hin. destruct (plain_tree_keys _ _ H Hin) as [Hk Hp].
  repeat split; auto. intros k' Hin'.
  destruct (plain_tree_keys _ _ H Hin') as [Hk' _].
  now rewrite (bases_plain _ Hk').
Qed.

(** The first loop on plain entries: every value is copied or grouped in
    turn, no family is begun, and the state does not change. *)
Lemma scan_plain_entries (nested : value -> M obj) es : forall result pg p,
  plain_entries es ->
  (forall k c, In (k, c) es ->
     forall q, exists v', pass_value nested c q = Return v' q /\ plain_tree v') ->
  plain_entries result ->
  exists result',
    scan nested es result pg p = Return (result', pg) p /\ plain_entries result'.
Proof.
  induction es as [|[key v] es IH]; intros result pg p He Hn Hr.
  - exists result. split; [reflexivity | assumption].
  - destruct (He key v (in_eq _ _)) as (Hk & Hp & Hv).
    destruct (Hn key v (in_eq _ _) p) as (v' & Hpass & Hv').
    rewrite (scan_cons_plain _ _ _ _ _ _ _ Hk). unfold bind. rewrite Hpass.
    apply IH.
    + intros k c Hin. apply (He k c). now right.
    + intros k c Hin. apply (Hn k c). now right.
    + intros k c Hin. apply in_assign in Hin as [[E _]|Hin]; [|now apply Hr].
      inversion E; subst. auto.
Qed.

(** One pass over a plain tree returns a plain tree and leaves the state
    as it is. *)
Lemma groupPlurals_plain (n : nat) : forall t p,
  depth (VObj t) <= n -> plain_tree (VObj t) ->
  exists g, groupPlurals t p = Return g p /\ plain_tree (VObj g).
Proof.
  induction n as [|n IH]; intros t p Hd Hpl.
  - pose proof (depth_obj_pos t). lia.
  - destruct (plain_tree_inv _ Hpl) as [Hnd He].
    destruct (scan_plain_entries groupPlurals_value t [] [] p He) as (result & Hs & Hr).
    + intros k c Hin q. destruct (He k c Hin) as (_ & _ & Hc).
      destruct c as [| | | | |entries];
        try (eexists; split; [reflexivity | assumption]).
      assert (depth (VObj entries) <= n) as Hdc.
      { apply depth_obj in Hd. unfold shallow in Hd.
        rewrite Forall_forall in Hd. exact (Hd _ Hin). }
      destruct (IH entries q Hdc Hc) as (g & Hg & Hgp).
      exists (VObj g). unfold pass_value, bind.
      change (groupPlurals_value (VObj entries) q) with (groupPlurals entries q).
      rewrite Hg. split; [reflexivity | assumption].
    + intros k c [].
    + exists result. rewrite groupPlurals_unfold. unfold bind. rewrite Hs.
      split; [reflexivity|].
      apply plain_obj; [|assumption].
      destruct (scan_keys _ _ _ _ _ _ _ _ Hs) as (_ & _ & S3 & _).
      apply S3. constructor.
Qed.

Lemma convert_entries_plain (rec : obj -> M obj) es : forall result p,
  (forall k c, In (k, c) es -> exists v', convertValue rec c p = Return v' p) ->
  exists out, convert_entries rec es result p = Return out p.
Proof.
  induction es as [|[key v] es IH]; intros result p H.
  - now exists result.
  - destruct (H key v (in_eq _ _)) as (v' & Hv).
    simpl. unfold bind. rewrite Hv. apply IH.
    intros k c Hin. apply (H k c). now right.
Qed.

(** The conversion of a plain tree returns. *)
Lemma convertTranslations_plain (n : nat) : forall t p,
  depth (VObj t) <= n -> plain_tree (VObj t) ->
  exists out, convertTranslations_fuel n t p = Return out p.
Proof.
  induction n as [|n IH]; intros t p Hd Hpl.
  - pose proof (depth_obj_pos t). lia.
  - destruct (groupPlurals_plain _ t p Hd Hpl) as (g & Hg & Hgp).
    simpl. unfold bind. rewrite Hg.
    apply convert_entries_plain. intros k c Hin.
    destruct (plain_tree_inv _ Hgp) as [_ He].
    destruct (He k c Hin) as (_ & _ & Hc).
    destruct c; simpl; try (eexists; reflexivity).
    assert (depth (VObj entries) <= n) as Hdc.
    { destruct (groupPlurals_depth _ t p Hd) as [_ Hle].
      specialize (Hle _ _ Hg).
      assert (shallow n g) as Hsh by (apply depth_obj; lia).
      unfold shallow in Hsh. rewrite Forall_forall in Hsh. exact (Hsh _ Hin). }
    destruct (IH entries p Hdc Hc) as (out & Hout).
    exists (VObj out). unfold bind. now rewrite Hout.
Qed.

(** The conversion of a plain level has the shape of the level. *)
Lemma converted_shape (n : nat) : forall l out,
  depth (VObj l) <= n -> plain_tree (VObj l) -> converted l out ->
  same_shape (VObj l) (VObj out).
Proof.
  induction n as [|n IH]; intros l out Hd Hpl Hc.
  - pose proof (depth_obj_pos l). lia.
  - destruct (plain_tree_inv _ Hpl) as [Hnd He].
    apply shape_obj.
    + intros k Hin.
      destruct (converted_keys _ _ k Hc Hin) as [(? & _)|(k' & Hin' & Hb)]; [assumption|].
      destruct (plain_tree_keys _ _ Hpl Hin') as [Hk' _].
      rewrite (bases_plain _ Hk') in Hb. contradiction.
    + intros k c Hl.
      pose proof (plain_tree_kept _ _ Hpl (lookup_Some_In _ _ _ Hl)) as Hkept.
      pose proof (converted_kept _ _ k Hc Hnd Hkept) as Hout.
      rewrite Hl in Hout.
      destruct (He k c (lookup_In_pair _ _ _ Hl)) as (_ & _ & Hcp).
      destruct c.
      * exists VNull. split; [assumption | apply shape_leaf; discriminate].
      * exists (VBool b). split; [assumption | apply shape_leaf; discriminate].
      * exists (VNum text). split; [assumption | apply shape_leaf; discriminate].
      * eexists. split; [eassumption | apply shape_str].
      * exists (VArr items). split; [assumption | apply shape_leaf; discriminate].
      * destruct Hout as (c' & Hout & Hcc). exists (VObj c').
        split; [assumption|]. apply IH; [|assumption|assumption].
        apply depth_obj in Hd. unfold shallow in Hd.
        rewrite Forall_forall in Hd.
        exact (Hd _ (lookup_In_pair _ _ _ Hl)).
Qed.

(** On a tree without plural keys and without the key [__proto__], the
    conversion returns, leaves [Object.prototype] as it is, and keeps the
    keys and the shape of the tree at every level. *)
Lemma plain_tree_converted (t : obj) (p : proto) :
  plain_tree (VObj t) ->
  exists out,
    convertTranslations t p = Return out p /\ same_shape (VObj t) (VObj out).
Proof.
  intros Hpl.
  destruct (convertTranslations_plain _ t p (le_n _) Hpl) as (out & Hout).
  exists out. split; [exact Hout|].
  eapply converted_shape; eauto. eapply converted_top; eauto.
Qed.

(** ** Families, keys and lists at a level of the tree *)

Lemma sequence_map_Some {A B : Type} (f : A -> B) (l : list A) :
  sequence (map (fun x => Some (f x)) l) = Some (map f l).
Proof. induction l as [|x l IH]; simpl; [reflexivity | now rewrite IH]. Qed.

(** [createICUPlural] on a family of strings. *)
Lemma createICUPlural_strings (branches : list (form * string)) :
  createICUPlural (map (fun b => (fst b, VStr (snd b))) branches)
  = Some ("{count, plural, "
          ++ Str.join " "
               (map (fun b => formMapping (fst b) ++ "{"
                              ++ convertInterpolation (snd b) ++ "}") branches)
          ++ "}").
Proof.
  unfold createICUPlural. rewrite map_map.
  rewrite (map_ext _ (fun b => Some (formMapping (fst b) ++ "{"
                                     ++ convertInterpolation (snd b) ++ "}"))).
  - now rewrite sequence_map_Some.
  - intros [f s]. reflexivity.
Qed.

(** The family of a base key at the top level of the argument. *)
Lemma top_family (t : obj) (p : proto) (out : obj) (p' : proto) (K : string) :
  convertTranslations t p = Return out p' ->
  NoDup (keys t) -> own_name K -> members K t <> [] ->
  exists s, createICUPlural (members K t) = Some s /\
            lookup K out = Some (VStr (rewrite_leaf s)).
Proof.
  intros H Hnd HK Hmem. unfold convertTranslations in H.
  apply convertTranslations_fuel_Return in H as (m & g & p1 & _ & Hg & Hc).
  destruct (pass_family _ _ _ _ K Hg Hnd HK Hmem) as (s & Hs & Hl).
  exists s. split; [assumption|].
  apply convert_entries_Return in Hc as [Hc _].
  specialize (Hc (proj1 (pass_keys _ _ _ _ Hg)) K (proj1 HK)).
  rewrite Hl in Hc. destruct Hc as (v' & q1 & q2 & Hv & Hout).
  simpl in Hv. unfold ret in Hv. now inversion Hv; subst.
Qed.

Lemma assign_no_proto (o : obj) (k : string) (v : value) :
  ~ In "__proto__" (keys o) -> ~ In "__proto__" (keys (assign k v o)).
Proof.
  intros H Hin. apply in_keys_assign in Hin as [[E Hne]|?]; [congruence | tauto].
Qed.

Lemma scan_no_proto (nested : value -> M obj) es : forall result pg p result' pg' p',
  scan nested es result pg p = Return (result', pg') p' ->
  ~ In "__proto__" (keys result) -> ~ In "__proto__" (keys result').
Proof.
  intros result pg p result' pg' p' H Hn Hin.
  destruct (scan_keys _ _ _ _ _ _ _ _ H) as (S1 & _).
  destruct (S1 _ Hin) as [?|(_ & _ & ?)]; tauto.
Qed.

Lemma compile_groups_no_proto gs : forall result p result' p',
  compile_groups gs result p = Return result' p' ->
  ~ In "__proto__" (keys result) -> ~ In "__proto__" (keys result').
Proof.
  induction gs as [|[B fam] gs IH]; intros result p result' p' H Hn.
  - simpl in H. unfold ret in H. now inversion H; subst.
  - simpl in H. apply bind_Return in H as (text & p1 & _ & H).
    eapply IH; eauto. now apply assign_no_proto.
Qed.

(** No result of [groupPlurals] has a property [__proto__]. *)
Lemma groupPlurals_no_proto (t : obj) (p : proto) (g : obj) (p' : proto) :
  groupPlurals t p = Return g p' -> ~ In "__proto__" (keys g).
Proof.
  intros H. apply groupPlurals_Return in H as (result & pg & p1 & Hs & Hc).
  eapply compile_groups_no_proto; eauto.
  eapply scan_no_proto; eauto.
Qed.

Lemma convert_entries_NoDup (rec : obj -> M obj) es : forall result p out p',
  convert_entries rec es result p = Return out p' ->
  NoDup (keys result) -> NoDup (keys out).
Proof.
  induction es as [|[key v] es IH]; intros result p out p' H Hnd.
  - simpl in H. unfold ret in H. now inversion H; subst.
  - simpl in H. apply bind_Return in H as (v1 & p1 & _ & H).
    eapply IH; eauto. now apply NoDup_keys_assign.
Qed.

Lemma converted_NoDup (l out : obj) : converted l out -> NoDup (keys out).
Proof.
  intros Hc.
  apply converted_inv in Hc as (x & n & p & g & p1 & p' & _ & _ & Hc).
  eapply convert_entries_NoDup; eauto. constructor.
Qed.

Lemma members_strings (ms : family) :
  (forall f v, In (f, v) ms -> exists s, v = VStr s) ->
  exists branches : list (form * string),
    ms = map (fun b => (fst b, VStr (snd b))) branches.
Proof.
  induction ms as [|[f v] ms IH]; intros H.
  - now exists [].
  - destruct (H f v (in_eq _ _)) as (s & ->).
    destruct IH as (branches & ->).
    + intros g w Hin. apply (H g w). now right.
    + now exists ((f, s) :: branches).
Qed.

Lemma sub_at_app (path : list string) (k : string) (v : value) (es : obj) :
  sub_at path v = Some (VObj es) ->
  sub_at (path ++ [k]) v = lookup k es.
Proof.
  revert v; induction path as [|k0 path IH]; intros v H; simpl in *.
  - inversion H; subst. destruct (lookup k es); reflexivity.
  - destruct v; try discriminate.
    destruct (lookup k0 entries); [now apply IH | discriminate].
Qed.

Lemma level_at_top (t l : obj) : level_at [] t l -> l = t.
Proof. intros H. now inversion H. Qed.

(** The family of a base key at a level: the output under the base key
    is the leaf rewriting of the compilation of its members. *)
Lemma level_family
    (path : list string) (t l : obj) (p : proto) (out : obj) (p' : proto)
    (K : string) :
  convertTranslations t p = Return out p' ->
  level_at path t l -> own_name K -> settled path l K -> members K l <> [] ->
  exists out_l s,
    sub_at path (VObj out) = Some (VObj out_l) /\
    converted l out_l /\
    createICUPlural (members K l) = Some s /\
    lookup K out_l = Some (VStr (rewrite_leaf s)).
Proof.
  intros H Hlv HK Hset Hne.
  destruct (converted_level _ _ _ _ Hlv (converted_top _ _ _ _ H)) as (out_l & Hsub & Hc).
  destruct Hset as [->|[Hplain Hsec]].
  - apply level_at_top in Hlv as E. subst l.
    simpl in Hsub. inversion Hsub; subst out_l.
    destruct (top_family _ _ _ _ K H (level_at_NoDup _ _ _ Hlv) HK Hne) as (s & Hs & Hl).
    exists out, s. auto.
  - destruct (converted_family _ _ K Hc (level_at_NoDup _ _ _ Hlv) HK Hplain Hne Hsec)
      as (s & Hs & Hl).
    exists out_l, s. auto.
Qed.

(** * The statements of the specification *)

(** C4.  Interpolation rewriting scans the string from the left.  Where
    the text at hand is two opening braces, one or more characters other
    than a closing brace, and two closing braces, it emits an opening
    brace, those characters as they are and a closing brace, and goes on
    after the match, so that every occurrence is rewritten; elsewhere it
    copies one character and goes on.  The input
    [{"greeting": "Hello {{name}}!"}] gives [{"greeting": "Hello {name}!"}]. *)
Theorem interpolation_rewriting (s : string) :
  (forall capture rest,
      capture <> "" -> Str.mem_char "}" capture = false ->
      s = "{{" ++ capture ++ "}}" ++ rest ->
      convertInterpolation s = "{" ++ capture ++ "}" ++ convertInterpolation rest) /\
  (forall a s',
      s = String a s' ->
      (forall capture rest,
          capture <> "" -> Str.mem_char "}" capture = false ->
          s <> "{{" ++ capture ++ "}}" ++ rest) ->
      convertInterpolation s = String a (convertInterpolation s')) /\
  (s = "" -> convertInterpolation s = "") /\
  convertTranslations [("greeting", VStr "Hello {{name}}!")] fresh
  = Return [("greeting", VStr "Hello {name}!")] fresh.
Proof.
  split; [|split; [|split]].
  - intros capture rest Hne Hm ->. now apply convertInterpolation_match.
  - intros a s' -> Hno. apply convertInterpolation_skip.
    destruct (match_interpolation (String a s')) as [[c r]|] eqn:E; [|reflexivity].
    apply match_interpolation_iff in E as (Hne & Hm & E).
    now destruct (Hno c r Hne Hm).
  - intros ->. apply convertInterpolation_nil.
  - vm_compute. reflexivity.
Qed.

Lemma interpolation_rewriting_witness :
  convertInterpolation "{{var, format}}!"
  = "{" ++ "var, format" ++ "}" ++ convertInterpolation "!" /\
  convertInterpolation "a{{b}}" = String "a" (convertInterpolation "{{b}}").
Proof.
  split.
  - apply (proj1 (interpolation_rewriting "{{var, format}}!") "var, format" "!");
      [discriminate | reflexivity | reflexivity].
  - apply (proj1 (proj2 (interpolation_rewriting "a{{b}}")) "a"%char "{{b}}");
      [reflexivity|].
    intros capture rest _ _ H. discriminate H.
Defined.

(** C3.  Plural-family compilation maps the form [zero] to the selector
    [=0] and every other form to its own name; for each member of the
    family, in the order of the family, it emits the selector and the
    member's text after interpolation rewriting, between braces; it joins
    these branches with one space and puts them in
    ["{count, plural, " ... "}"], with the fixed variable name [count].
    The family that [groupPlurals] compiles under a base key holds the
    members in the order in which their keys appear at the level.  The
    three [item] keys of the specification give the documented
    expression. *)
Theorem plural_compilation
    (branches : list (form * string))
    (t : obj) (p : proto) (t' : obj) (p' : proto) (K : string) :
  formMapping Zero = "=0" /\
  (forall f, f <> Zero -> formMapping f = form_name f) /\
  createICUPlural (map (fun b => (fst b, VStr (snd b))) branches)
  = Some ("{count, plural, "
          ++ Str.join " "
               (map (fun b => formMapping (fst b) ++ "{"
                              ++ convertInterpolation (snd b) ++ "}") branches)
          ++ "}") /\
  (groupPlurals t p = Return t' p' ->
   NoDup (keys t) -> own_name K -> members K t <> [] ->
   exists s, createICUPlural (members K t) = Some s /\
             lookup K t' = Some (VStr s)) /\
  convertTranslations
    [("item_zero", VStr "No items"); ("item_one", VStr "{{count}} item");
     ("item_other", VStr "{{count}} items")] fresh
  = Return
      [("item",
        VStr "{count, plural, =0{No items} one{{count} item} other{{count} items}}")]
      fresh.
Proof.
  split; [|split; [|split; [|split]]].
  - reflexivity.
  - intros f Hf. destruct f; try reflexivity. congruence.
  - apply createICUPlural_strings.
  - intros Hg Hnd HK Hmem. eapply pass_family; eauto.
  - vm_compute. reflexivity.
Qed.

Lemma plural_compilation_witness :
  createICUPlural [(Zero, VStr "none"); (Other, VStr "{{count}} more")]
  = Some "{count, plural, =0{none} other{{count} more}}" /\
  exists s,
    createICUPlural
      (members "n" [("n_other", VStr "{{count}}"); ("m", VNull); ("n_zero", VStr "no")])
    = Some s /\
    lookup "n" [("m", VNull); ("n", VStr "{count, plural, other{{count}} =0{no}}")]
    = Some (VStr s).
Proof.
  destruct (plural_compilation
              [(Zero, "none"); (Other, "{{count}} more")]
              [("n_other", VStr "{{count}}"); ("m", VNull); ("n_zero", VStr "no")]
              fresh
              [("m", VNull); ("n", VStr "{count, plural, other{{count}} =0{no}}")]
              fresh "n") as (_ & _ & H1 & H2 & _).
  split; [exact H1|]. apply H2.
  - vm_compute. reflexivity.
  - repeat constructor; simpl; intuition discriminate.
  - split; [discriminate | split; reflexivity].
  - discriminate.
Defined.

(** C10.  After [groupPlurals] has compiled the families,
    [convertTranslations] applies the leaf rewriting of [convertValue]
    (interpolation rewriting, then nesting rewriting) to every string of
    [grouped], the compiled expressions included: the value under a base
    key is the rewriting of the expression that [createICUPlural] has
    built from branch texts already rewritten once.  For
    [{"k_other": "{{n}}"}] the branch [other{{n}}] matches the pattern of
    two braces again, and the output is ["{count, plural, other{n}}"]
    where the compilation alone gives ["{count, plural, other{{n}}}"].
    For [{"k_one": "{{n}} of $t(total)"}] the compilation keeps the
    reference [$t(total)] and the second rewriting turns it into
    [[REF:total]]. *)
Theorem plural_string_rewritten_again
    (t : obj) (p : proto) (grouped : obj) (p1 : proto) (out : obj) (p2 : proto)
    (k : string) (s : string) (K : string) :
  (groupPlurals t p = Return grouped p1 ->
   convertTranslations t p = Return out p2 ->
   lookup k grouped = Some (VStr s) ->
   lookup k out = Some (VStr (convertNesting (convertInterpolation s)))) /\
  (convertTranslations t p = Return out p2 ->
   NoDup (keys t) -> own_name K -> members K t <> [] ->
   exists e, createICUPlural (members K t) = Some e /\
             lookup K out = Some (VStr (convertNesting (convertInterpolation e)))) /\
  convertTranslations [("k_other", VStr "{{n}}")] fresh
  = Return [("k", VStr "{count, plural, other{n}}")] fresh /\
  createICUPlural (members "k" [("k_other", VStr "{{n}}")])
  = Some "{count, plural, other{{n}}}" /\
  convertTranslations [("k_one", VStr "{{n}} of $t(total)")] fresh
  = Return [("k", VStr "{count, plural, one{{n} of [REF:total]}}")] fresh /\
  createICUPlural (members "k" [("k_one", VStr "{{n}} of $t(total)")])
  = Some "{count, plural, one{{n} of $t(total)}}".
Proof.
  split; [|split; [|vm_compute; repeat split]].
  - intros Hg H Hl. unfold convertTranslations in H.
    apply convertTranslations_fuel_Return in H as (m & g & q & _ & Hg' & Hc).
    rewrite Hg in Hg'. inversion Hg'; subst g q.
    apply convert_entries_Return in Hc as [Hc _].
    assert (k <> "__proto__") as Hk.
    { intros ->. apply (groupPlurals_no_proto _ _ _ _ Hg).
      eapply lookup_Some_In; eauto. }
    specialize (Hc (proj1 (pass_keys _ _ _ _ Hg)) k Hk).
    rewrite Hl in Hc. destruct Hc as (v' & q1 & q2 & Hv & Hout).
    simpl in Hv. unfold ret in Hv. now inversion Hv; subst.
  - intros H Hnd HK Hmem. exact (top_family _ _ _ _ K H Hnd HK Hmem).
Qed.

Lemma plural_string_rewritten_again_witness :
  lookup "k" [("k", VStr "{count, plural, other{n}}")]
  = Some (VStr (convertNesting (convertInterpolation "{count, plural, other{{n}}}"))) /\
  exists e,
    createICUPlural (members "k" [("k_other", VStr "{{n}}")]) = Some e /\
    lookup "k" [("k", VStr "{count, plural, other{n}}")]
    = Some (VStr (convertNesting (convertInterpolation e))).
Proof.
  destruct (plural_string_rewritten_again
              [("k_other", VStr "{{n}}")] fresh
              [("k", VStr "{count, plural, other{{n}}}")] fresh
              [("k", VStr "{count, plural, other{n}}")] fresh
              "k" "{count, plural, other{{n}}}" "k") as (H1 & H2 & _).
  split.
  - apply H1; vm_compute; reflexivity.
  - apply H2.
    + vm_compute. reflexivity.
    + repeat constructor; simpl; intuition discriminate.
    + split; [discriminate | split; reflexivity].
    + discriminate.
Defined.

(** C1, as the code has it.  [createICUPlural] applies interpolation
    rewriting, and no nesting rewriting, to the text of each branch; but
    the compiled expression then receives the leaf rewriting of
    [convertValue] as a whole, nesting rewriting included.  At every level
    reached through kept keys, for a settled family of strings whose base
    key [pluralGroups] does not inherit, the output under the base key is
    [convertNesting (convertInterpolation e)], where [e] is the
    expression compiled from the interpolation-rewritten branch texts: a
    [$t(key)] of a branch text comes out as [[REF:key]]. *)
Theorem plural_branches_get_leaf_rewriting
    (path : list string) (t l : obj) (p : proto) (out : obj) (p' : proto)
    (K : string) (branches : list (form * string)) :
  convertTranslations t p = Return out p' ->
  level_at path t l ->
  own_name K -> settled path l K ->
  branches <> [] ->
  members K l = map (fun b => (fst b, VStr (snd b))) branches ->
  exists out_l,
    sub_at path (VObj out) = Some (VObj out_l) /\
    lookup K out_l
    = Some (VStr (convertNesting (convertInterpolation
        ("{count, plural, "
         ++ Str.join " "
              (map (fun b => formMapping (fst b) ++ "{"
                             ++ convertInterpolation (snd b) ++ "}") branches)
         ++ "}")))).
Proof.
  intros H Hlv HK Hset Hne Hmem.
  destruct (level_family _ _ _ _ _ _ K H Hlv HK Hset) as (out_l & s & Hsub & _ & Hs & Hl).
  - rewrite Hmem. destruct branches; [congruence | discriminate].
  - exists out_l. split; [assumption|].
    rewrite Hmem, createICUPlural_strings in Hs. inversion Hs; subst. exact Hl.
Qed.

Lemma plural_branches_get_leaf_rewriting_witness :
  exists out_l,
    sub_at ["n"] (VObj [("n", VObj [("k", VStr "{count, plural, one{see [REF:a]}}")])])
    = Some (VObj out_l) /\
    lookup "k" out_l
    = Some (VStr (convertNesting (convertInterpolation
        ("{count, plural, "
         ++ Str.join " "
              (map (fun b => formMapping (fst b) ++ "{"
                             ++ convertInterpolation (snd b) ++ "}")
                   [(One, "see $t(a)")])
         ++ "}")))).
Proof.
  apply (plural_branches_get_leaf_rewriting
           ["n"] [("n", VObj [("k_one", VStr "see $t(a)")])]
           [("k_one", VStr "see $t(a)")] fresh
           [("n", VObj [("k", VStr "{count, plural, one{see [REF:a]}}")])] fresh
           "k" [(One, "see $t(a)")]).
  - vm_compute. reflexivity.
  - apply level_down with (c := [("k_one", VStr "see $t(a)")]).
    + repeat constructor; simpl; intuition discriminate.
    + split; [reflexivity | split; [discriminate|]].
      intros k' [<-|[]]. vm_compute. tauto.
    + reflexivity.
    + apply level_here. repeat constructor; simpl; intuition discriminate.
  - split; [discriminate | split; reflexivity].
  - right. split; [reflexivity|].
    intros k' [<-|[]]. vm_compute. tauto.
  - discriminate.
  - reflexivity.
Defined.

(** C1 as stated fails: the reference [$t(a)] of a plural branch is
    rewritten in the output. *)
Lemma nesting_reference_rewritten_in_branch :
  convertTranslations [("k_one", VStr "see $t(a)")] fresh
  = Return [("k", VStr "{count, plural, one{see [REF:a]}}")] fresh /\
  contains "$t(a)" "{count, plural, one{see [REF:a]}}" = false /\
  contains "[REF:a]" "{count, plural, one{see [REF:a]}}" = true.
Proof. vm_compute. repeat split. Qed.

(** C2, as the code has it.  At every level reached through kept keys,
    for a settled family of strings whose base key [K] is not inherited
    by [pluralGroups]: the output level has distinct keys and binds [K]
    to one string, the leaf rewriting of the expression compiled with one
    branch per member; this string opens with ["{count, plural, "] and
    closes with ["}"]; and a key of the output that matches the plural
    pattern is one of the base keys of a key of the level: its base key,
    the base key of its base key, or one further up that chain. *)
Theorem plural_family_collapsed
    (path : list string) (t l : obj) (p : proto) (out : obj) (p' : proto)
    (K : string) :
  convertTranslations t p = Return out p' ->
  level_at path t l ->
  own_name K -> settled path l K ->
  members K l <> [] ->
  (forall f v, In (f, v) (members K l) -> exists s, v = VStr s) ->
  exists (out_l : obj) (branches : list (form * string)) (body : string),
    sub_at path (VObj out) = Some (VObj out_l) /\
    NoDup (keys out_l) /\
    members K l = map (fun b => (fst b, VStr (snd b))) branches /\
    lookup K out_l = Some (VStr ("{count, plural, " ++ body ++ "}")) /\
    "{count, plural, " ++ body ++ "}"
    = rewrite_leaf
        ("{count, plural, "
         ++ Str.join " "
              (map (fun b => formMapping (fst b) ++ "{"
                             ++ convertInterpolation (snd b) ++ "}") branches)
         ++ "}") /\
    (forall k b f, In k (keys out_l) -> parsePluralKey k = Some (b, f) ->
       exists k', In k' (keys l) /\ In k (bases k')).
Proof.
  intros H Hlv HK Hset Hne Hstr.
  destruct (level_family _ _ _ _ _ _ K H Hlv HK Hset Hne) as (out_l & s & Hsub & Hc & Hs & Hl).
  destruct (members_strings _ Hstr) as (branches & Hmem).
  rewrite Hmem, createICUPlural_strings in Hs. inversion Hs as [Es]; clear Hs.
  rewrite <- Es in Hl.
  destruct (rewrite_leaf_frame
              (Str.join " "
                 (map (fun b => formMapping (fst b) ++ "{"
                                ++ convertInterpolation (snd b) ++ "}") branches)))
    as (body & Hbody).
  exists out_l, branches, body.
  split; [assumption|]. split; [eapply converted_NoDup; eauto|].
  split; [assumption|]. split; [now rewrite <- Hbody|]. split; [now rewrite <- Hbody|].
  intros k b f Hin Hp.
  destruct (converted_keys _ _ k Hc Hin) as [(_ & Hn & _)|?]; [congruence | assumption].
Qed.

Lemma plural_family_collapsed_witness :
  exists (out_l : obj) (branches : list (form * string)) (body : string),
    sub_at [] (VObj [("a", VStr "{count, plural, one{x}}");
                     ("a_one", VStr "{count, plural, one{y}}")])
    = Some (VObj out_l) /\
    NoDup (keys out_l) /\
    members "a" [("a_one", VStr "x"); ("a_one_one", VStr "y")]
    = map (fun b => (fst b, VStr (snd b))) branches /\
    lookup "a" out_l = Some (VStr ("{count, plural, " ++ body ++ "}")) /\
    "{count, plural, " ++ body ++ "}"
    = rewrite_leaf
        ("{count, plural, "
         ++ Str.join " "
              (map (fun b => formMapping (fst b) ++ "{"
                             ++ convertInterpolation (snd b) ++ "}") branches)
         ++ "}") /\
    (forall k b f, In k (keys out_l) -> parsePluralKey k = Some (b, f) ->
       exists k', In k' (keys [("a_one", VStr "x"); ("a_one_one", VStr "y")])
                  /\ In k (bases k')).
Proof.
  apply (plural_family_collapsed
           [] [("a_one", VStr "x"); ("a_one_one", VStr "y")]
           [("a_one", VStr "x"); ("a_one_one", VStr "y")] fresh
           [("a", VStr "{count, plural, one{x}}");
            ("a_one", VStr "{count, plural, one{y}}")] fresh "a").
  - vm_compute. reflexivity.
  - apply level_here. repeat constructor; simpl; intuition discriminate.
  - split; [discriminate | split; reflexivity].
  - left. reflexivity.
  - discriminate.
  - intros f v [E|[]]. inversion E; subst. now exists "x".
Defined.

(** C2 as stated fails: the suffixed key [a_one] of the family [a] is a
    key of the output, as the base key of [a_one_one]. *)
Lemma suffixed_key_left_in_output :
  convertTranslations [("a_one", VStr "x"); ("a_one_one", VStr "y")] fresh
  = Return [("a", VStr "{count, plural, one{x}}");
            ("a_one", VStr "{count, plural, one{y}}")] fresh /\
  parsePluralKey "a_one" = Some ("a", One) /\
  has_key "a_one" [("a", VStr "{count, plural, one{x}}");
                   ("a_one", VStr "{count, plural, one{y}}")] = true.
Proof. vm_compute. repeat split. Qed.

(** C6.  Where a level has a plain key [foo] and plural keys of base
    key [foo], the second loop of [groupPlurals] overwrites the value of
    the plain key with the compiled expression, as the level of [foo]
    below shows.  It misses the case where [foo] is a name that an
    object literal inherits from [Object.prototype]: for [constructor],
    [pluralGroups[baseKey]] reads the built-in function, no family is
    created, the members are written on that function, and the output
    keeps the value of the plain key. *)
Theorem plain_key_not_overwritten :
  parsePluralKey "constructor" = None /\
  members "constructor"
    [("constructor", VStr "x"); ("constructor_one", VStr "a");
     ("constructor_other", VStr "b")]
  = [(One, VStr "a"); (Other, VStr "b")] /\
  createICUPlural [(One, VStr "a"); (Other, VStr "b")]
  = Some "{count, plural, one{a} other{b}}" /\
  convertTranslations
    [("constructor", VStr "x"); ("constructor_one", VStr "a");
     ("constructor_other", VStr "b")] fresh
  = Return [("constructor", VStr "x")] fresh /\
  convertTranslations
    [("foo", VStr "x"); ("foo_one", VStr "a"); ("foo_other", VStr "b")] fresh
  = Return [("foo", VStr "{count, plural, one{a} other{b}}")] fresh.
Proof. vm_compute. repeat split. Qed.

(** C7, as the code has it.  A list that is the value of a kept key, at
    a level reached through kept keys, is in the output under the same
    path, unmodified. *)
Theorem list_under_kept_key_unchanged
    (path : list string) (t l : obj) (p : proto) (out : obj) (p' : proto)
    (k : string) (items : list value) :
  convertTranslations t p = Return out p' ->
  level_at path t l -> kept l k -> lookup k l = Some (VArr items) ->
  sub_at (path ++ [k]) (VObj out) = Some (VArr items).
Proof.
  intros H Hlv Hk Hl.
  destruct (converted_level _ _ _ _ Hlv (converted_top _ _ _ _ H)) as (out_l & Hsub & Hc).
  rewrite (sub_at_app _ k _ _ Hsub).
  pose proof (converted_kept _ _ k Hc (level_at_NoDup _ _ _ Hlv) Hk) as Hkept.
  now rewrite Hl in Hkept.
Qed.

Lemma list_under_kept_key_unchanged_witness :
  sub_at ([] ++ ["tags"])
         (VObj [("tags", VArr [VStr "{{a}}"; VNum "1"])])
  = Some (VArr [VStr "{{a}}"; VNum "1"]).
Proof.
  apply (list_under_kept_key_unchanged
           [] [("tags", VArr [VStr "{{a}}"; VNum "1"])]
           [("tags", VArr [VStr "{{a}}"; VNum "1"])] fresh
           [("tags", VArr [VStr "{{a}}"; VNum "1"])] fresh).
  - vm_compute. reflexivity.
  - apply level_here. repeat constructor; simpl; intuition discriminate.
  - split; [reflexivity | split; [discriminate|]].
    intros k' [<-|[]]. vm_compute. tauto.
  - reflexivity.
Defined.

(** C7 as stated fails: a list under a key that matches the plural
    pattern is printed into a branch of the plural expression. *)
Lemma list_under_plural_key_printed :
  convertTranslations [("k_one", VArr [VNum "1"; VNum "2"])] fresh
  = Return [("k", VStr "{count, plural, one{1,2}}")] fresh.
Proof. vm_compute. reflexivity. Qed.

(** C9, as the code has it.  At every orderly level reached through kept
    keys (below the top level: whose base keys do not match the plural
    pattern), the keys of the output are the plain keys of the level in
    their order, followed by the base keys in the order in which each
    first appears at the level. *)
Theorem plural_keys_after_plain_keys
    (path : list string) (t l : obj) (p : proto) (out : obj) (p' : proto) :
  convertTranslations t p = Return out p' ->
  level_at path t l -> orderly l ->
  path = [] \/ single_suffixed l ->
  exists out_l,
    sub_at path (VObj out) = Some (VObj out_l) /\
    keys out_l = (plain_keys l ++ base_keys l)%list.
Proof.
  intros H Hlv Hord [->|Hss].
  - apply level_at_top in Hlv as E. subst l. exists out. split; [reflexivity|].
    eapply top_order; eauto. eapply level_at_NoDup; eauto.
  - destruct (converted_level _ _ _ _ Hlv (converted_top _ _ _ _ H)) as (out_l & Hsub & Hc).
    exists out_l. split; [assumption|].
    apply converted_order; [assumption | eapply level_at_NoDup; eauto | assumption..].
Qed.

Lemma plural_keys_after_plain_keys_witness :
  exists out_l,
    sub_at ["n"]
      (VObj [("n", VObj [("welcome", VStr "W"); ("goodbye", VStr "G");
                         ("item", VStr "{count, plural, one{a} other{b}}");
                         ("note", VStr "{count, plural, other{n}}")])])
    = Some (VObj out_l) /\
    keys out_l
    = (plain_keys [("welcome", VStr "W"); ("item_one", VStr "a");
                   ("note_other", VStr "n"); ("goodbye", VStr "G");
                   ("item_other", VStr "b")]
       ++ base_keys [("welcome", VStr "W"); ("item_one", VStr "a");
                     ("note_other", VStr "n"); ("goodbye", VStr "G");
                     ("item_other", VStr "b")])%list.
Proof.
  apply (plural_keys_after_plain_keys
           ["n"]
           [("n", VObj [("welcome", VStr "W"); ("item_one", VStr "a");
                        ("note_other", VStr "n"); ("goodbye", VStr "G");
                        ("item_other", VStr "b")])]
           [("welcome", VStr "W"); ("item_one", VStr "a");
            ("note_other", VStr "n"); ("goodbye", VStr "G");
            ("item_other", VStr "b")] fresh
           [("n", VObj [("welcome", VStr "W"); ("goodbye", VStr "G");
                        ("item", VStr "{count, plural, one{a} other{b}}");
                        ("note", VStr "{count, plural, other{n}}")])] fresh).
  - vm_compute. reflexivity.
  - apply level_down with (c := [("welcome", VStr "W"); ("item_one", VStr "a");
                                  ("note_other", VStr "n"); ("goodbye", VStr "G");
                                  ("item_other", VStr "b")]).
    + repeat constructor; simpl; intuition discriminate.
    + split; [reflexivity | split; [discriminate|]].
      intros k' [<-|[]]. vm_compute. tauto.
    + reflexivity.
    + apply level_here. repeat constructor; simpl; intuition discriminate.
  - split.
    + intros k Hin _. simpl in Hin.
      destruct Hin as [<-|[<-|[<-|[<-|[<-|[]]]]]];
        (split; [discriminate | reflexivity]).
    + intros k b f Hin Hp. simpl in Hin.
      destruct Hin as [<-|[<-|[<-|[<-|[<-|[]]]]]];
        vm_compute in Hp; inversion Hp; subst;
        (split; [split; [discriminate | split; reflexivity]|]);
        (split; [reflexivity|]);
        simpl; intuition discriminate.
  - right. intros k b f Hin Hp. simpl in Hin.
    destruct Hin as [<-|[<-|[<-|[<-|[<-|[]]]]]];
      vm_compute in Hp; inversion Hp; subst; reflexivity.
Defined.

(** C9 as stated fails: the family [foo] is compiled under the key of
    the plain key [foo], which keeps its place before the plain key
    [bar]. *)
Lemma plural_key_before_plain_key :
  convertTranslations
    [("foo", VStr "x"); ("bar", VStr "y"); ("foo_one", VStr "z")] fresh
  = Return [("foo", VStr "{count, plural, one{z}}"); ("bar", VStr "y")] fresh /\
  plain_keys [("foo", VStr "x"); ("bar", VStr "y"); ("foo_one", VStr "z")]
  = ["foo"; "bar"] /\
  base_keys [("foo", VStr "x"); ("bar", VStr "y"); ("foo_one", VStr "z")]
  = ["foo"].
Proof. vm_compute. repeat split. Qed.

(** C5.  A tree without plural keys keeps its keys and its shape, as the
    specification says ([plain_tree_converted]), except for a key named
    [__proto__]: the assignment [result[key] = value] of [groupPlurals]
    then reaches the setter of [Object.prototype] and creates no
    property, and the key is missing from the output. *)
Theorem proto_key_dropped :
  parsePluralKey "__proto__" = None /\ parsePluralKey "a" = None /\
  convertTranslations [("__proto__", VStr "x"); ("a", VStr "y")] fresh
  = Return [("a", VStr "y")] fresh /\
  has_key "__proto__" [("a", VStr "y")] = false.
Proof. vm_compute. repeat split. Qed.

(** C8.  The conversion terminates on every tree, but it does not always
    return.  A member of a plural family that is an object with a
    property [toString] cannot be printed into its branch: the template
    literal of [createICUPlural] raises a [TypeError].  So does the write
    of a member on a string that an earlier member, of base key
    [__proto__], has put on [Object.prototype]. *)
Theorem conversion_raises_TypeError :
  (forall t p, convertTranslations t p <> OutOfFuel) /\
  convertTranslations [("k_one", VObj [("toString", VNum "1")])] fresh
  = Throw TypeError fresh /\
  convertTranslations [("__proto___one", VStr "x"); ("one_other", VStr "y")] fresh
  = Throw TypeError [(One, hold (VStr "x"))].
Proof.
  split; [exact convertTranslations_halts|].
  vm_compute. split; reflexivity.
Qed.

(** ** Further runs of the converter

    The literal scenarios of the specification, and the inputs that show
    why the statements above speak of kept keys, of names that
    [pluralGroups] does not inherit and of orderly levels. *)

Example scenario_nested :
  convertTranslations [("a", VObj [("b", VStr "Hi {{x}}")])] fresh
  = Return [("a", VObj [("b", VStr "Hi {x}")])] fresh.
Proof. vm_compute. reflexivity. Qed.

Example scenario_reference :
  convertTranslations [("msg", VStr "See $t(other.key)")] fresh
  = Return [("msg", VStr "See [REF:other.key]")] fresh.
Proof. vm_compute. reflexivity. Qed.

Example scenario_scalars :
  convertTranslations [("n", VNum "5"); ("b", VBool true); ("z", VNull)] fresh
  = Return [("n", VNum "5"); ("b", VBool true); ("z", VNull)] fresh.
Proof. vm_compute. reflexivity. Qed.

Example scenario_mixed :
  convertTranslations
    [("welcome", VStr "Welcome {{user}}"); ("item_zero", VStr "No items");
     ("item_one", VStr "{{count}} item"); ("item_other", VStr "{{count}} items");
     ("goodbye", VStr "Goodbye {{user}}")] fresh
  = Return
      [("welcome", VStr "Welcome {user}"); ("goodbye", VStr "Goodbye {user}");
       ("item",
        VStr "{count, plural, =0{No items} one{{count} item} other{{count} items}}")]
      fresh.
Proof. vm_compute. reflexivity. Qed.

(** A family whose base key names a method of [Object.prototype] is
    written on that method and never compiled; a plain key of that name
    keeps its value. *)
Example inherited_base_key :
  convertTranslations [("constructor_one", VStr "y")] fresh = Return [] fresh /\
  convertTranslations
    [("constructor", VStr "x"); ("constructor_one", VStr "y")] fresh
  = Return [("constructor", VStr "x")] fresh.
Proof. vm_compute. split; reflexivity. Qed.

(** A member under the base key [__proto__] is written on
    [Object.prototype] and stays there after the call; a later family
    whose base key is that form name finds it: an object or an array
    takes the member, a string refuses it. *)
Example prototype_written :
  convertTranslations [("__proto___one", VArr []); ("one_other", VStr "y")] fresh
  = Return [] [(One, Held (VArr []) [(Other, VStr "y")])] /\
  convertTranslations
    [("__proto___one", VObj [("a", VNum "1")]); ("one_other", VStr "y")] fresh
  = Return [] [(One, hold (VObj [("a", VNum "1"); ("other", VStr "y")]))].
Proof. vm_compute. split; reflexivity. Qed.

(** A nested level goes through [groupPlurals] twice: the base key
    [a_one] of the first pass is a member of the family [a] in the
    second, whose expression replaces that of the first pass.  At the
    top level there is one pass only. *)
Example nested_level_grouped_twice :
  convertTranslations
    [("n", VObj [("a_one", VStr "x"); ("a_one_one", VStr "y")])] fresh
  = Return
      [("n", VObj [("a", VStr "{count, plural, one{count, plural, one{y}}}")])]
      fresh.
Proof. vm_compute. reflexivity. Qed.

(** A key that is an array index comes first in the output, whenever it
    was created. *)
Example array_index_base_key :
  convertTranslations [("a", VStr "x"); ("1_one", VStr "z")] fresh
  = Return [("1", VStr "{count, plural, one{z}}"); ("a", VStr "x")] fresh.
Proof. vm_compute. reflexivity. Qed.

(** A level inside a list is not a level of the converter. *)
Example level_inside_list :
  convertTranslations [("l", VArr [VObj [("a_one", VStr "{{x}}")]])] fresh
  = Return [("l", VArr [VObj [("a_one", VStr "{{x}}")]])] fresh.
Proof. vm_compute. reflexivity. Qed.

(** Members that are not strings are printed by the template literal. *)
Example members_printed :
  convertTranslations
    [("k_zero", VNull); ("k_one", VNum "1.5"); ("k_two", VBool true);
     ("k_few", VObj [("a", VStr "b")]); ("k_many", VArr [VNull; VArr [VStr "c"; VNum "2"]])]
    fresh
  = Return
      [("k", VStr "{count, plural, =0{null} one{1.5} two{true} few{[object Object]} many{,c,2}}")]
      fresh.
Proof. vm_compute. reflexivity. Qed.

(** The dot of the plural pattern refuses line terminators: such a key
    is a plain key. *)
Example line_terminator_in_key :
  parsePluralKey (String "a" (String "010" "b_one")) = None /\
  parsePluralKey (String "226" (String "128" (String "168" "_one"))) = None /\
  parsePluralKey (String "226" (String "128" (String "167" "_one")))
  = Some (String "226" (String "128" (String "167" "")), One).
Proof. vm_compute. repeat split. Qed.

(** * Further properties of the converter *)

(** ** Leaf rewriting *)

Lemma contains_cons_false (needle : string) (a : ascii) (s : string) :
  contains needle (String a s) = false ->
  Str.strip_prefix needle (String a s) = None /\ contains needle s = false.
Proof.
  simpl contains. destruct (Str.strip_prefix needle (String a s)); [discriminate | auto].
Qed.

Lemma match_interpolation_needs_braces (s : string) :
  Str.strip_prefix "{{" s = None -> match_interpolation s = None.
Proof. intros H. unfold match_interpolation. now rewrite H. Qed.

Lemma match_nesting_needs_call (s : string) :
  Str.strip_prefix "$t(" s = None -> match_nesting s = None.
Proof. intros H. unfold match_nesting. now rewrite H. Qed.

(** X2.  [convertInterpolation] leaves a string without two consecutive
    opening braces as it is. *)
Theorem interpolation_noop (s : string) :
  contains "{{" s = false -> convertInterpolation s = s.
Proof.
  induction s as [|a s IH]; intros H.
  - apply convertInterpolation_nil.
  - apply contains_cons_false in H as [Hp Hc].
    rewrite convertInterpolation_skip by now apply match_interpolation_needs_braces.
    now rewrite IH.
Qed.

Lemma interpolation_noop_witness :
  convertInterpolation "Hello {name}, {count, plural, one{x}}"
  = "Hello {name}, {count, plural, one{x}}".
Proof. apply interpolation_noop. vm_compute. reflexivity. Defined.

(** X3.  [convertNesting] leaves a string without the text [$t(] as it
    is. *)
Theorem nesting_noop (s : string) :
  contains "$t(" s = false -> convertNesting s = s.
Proof.
  induction s as [|a s IH]; intros H.
  - apply convertNesting_nil.
  - apply contains_cons_false in H as [Hp Hc].
    rewrite convertNesting_skip by now apply match_nesting_needs_call.
    now rewrite IH.
Qed.

Lemma nesting_noop_witness :
  convertNesting "costs $5 (t) and $t" = "costs $5 (t) and $t".
Proof. apply nesting_noop. vm_compute. reflexivity. Defined.

(** X1.  Nesting rewriting scans the string from the left.  Where the
    text at hand is [$t(], one or more characters other than a closing
    parenthesis, and a closing parenthesis, it emits [[REF:], those
    characters as they are and [ ] ], and goes on after the match;
    elsewhere it copies one character and goes on. *)
Theorem nesting_rewriting (s : string) :
  (forall key rest,
      key <> "" -> Str.mem_char ")" key = false ->
      s = "$t(" ++ key ++ ")" ++ rest ->
      convertNesting s = "[REF:" ++ key ++ "]" ++ convertNesting rest) /\
  (forall a s',
      s = String a s' ->
      (forall key rest,
          key <> "" -> Str.mem_char ")" key = false ->
          s <> "$t(" ++ key ++ ")" ++ rest) ->
      convertNesting s = String a (convertNesting s')) /\
  (s = "" -> convertNesting s = "").
Proof.
  split; [|split].
  - intros key rest Hne Hm ->. now apply convertNesting_match.
  - intros a s' -> Hno. apply convertNesting_skip.
    destruct (match_nesting (String a s')) as [[c r]|] eqn:E; [|reflexivity].
    apply match_nesting_iff in E as (Hne & Hm & E).
    now destruct (Hno c r Hne Hm).
  - intros ->. apply convertNesting_nil.
Qed.

Lemma nesting_rewriting_witness :
  convertNesting "$t(a.b) and $t()"
  = "[REF:" ++ "a.b" ++ "]" ++ convertNesting " and $t()" /\
  convertNesting "$t()x" = String "$" (convertNesting "t()x").
Proof.
  split.
  - apply (proj1 (nesting_rewriting "$t(a.b) and $t()") "a.b" " and $t()");
      [discriminate | reflexivity | reflexivity].
  - apply (proj1 (proj2 (nesting_rewriting "$t()x")) "$"%char "t()x");
      [reflexivity|].
    intros key rest Hne Hm H. simpl in H.
    destruct key as [|c key]; [congruence|].
    simpl in H. inversion H; subst.
    simpl in Hm. discriminate Hm.
Defined.

Lemma remove_braces_app (a b : string) :
  remove_braces (a ++ b) = remove_braces a ++ remove_braces b.
Proof.
  induction a as [|x a IH]; simpl; [reflexivity|].
  rewrite IH. destruct (Ascii.eqb x "{" || Ascii.eqb x "}"); reflexivity.
Qed.

(** X4.  Interpolation rewriting only deletes braces: the other
    characters of the string are kept, in their order, and the result is
    never longer than the string. *)
Theorem interpolation_deletes_braces_only (s : string) :
  remove_braces (convertInterpolation s) = remove_braces s /\
  String.length (convertInterpolation s) <= String.length s.
Proof.
  remember (String.length s) as n eqn:Hn. revert s Hn.
  induction n as [n IH] using lt_wf_ind. intros s ->.
  destruct (match_interpolation s) as [[c r]|] eqn:E.
  - pose proof (match_interpolation_shrinks _ _ _ E) as Hlt.
    apply match_interpolation_iff in E as (Hne & Hm & ->).
    rewrite convertInterpolation_match by assumption.
    destruct (IH _ Hlt r eq_refl) as [IH1 IH2].
    rewrite !remove_braces_app, IH1, !length_append. simpl. split; [reflexivity | lia].
  - destruct s as [|a s].
    + rewrite convertInterpolation_nil. split; [reflexivity | lia].
    + rewrite (convertInterpolation_skip _ _ E).
      destruct (IH (String.length s) (Nat.lt_succ_diag_r _) s eq_refl) as [IH1 IH2].
      simpl. rewrite IH1. split; [reflexivity | lia].
Qed.

(** ** Plural keys *)

Lemma mem_char_app (c : ascii) (a b : string) :
  Str.mem_char c (a ++ b) = Str.mem_char c a || Str.mem_char c b.
Proof.
  induction a as [|x a IH]; simpl; [reflexivity|].
  rewrite IH. now rewrite orb_assoc.
Qed.

Lemma form_name_no_underscore (f : form) : Str.mem_char "_" (form_name f) = false.
Proof. destruct f; reflexivity. Qed.

Lemma form_name_inj (f g : form) : form_name f = form_name g -> f = g.
Proof. destruct f, g; simpl; intros H; try reflexivity; discriminate H. Qed.

(** A string has one decomposition into a text, an underscore and a
    text without underscore. *)
Lemma last_underscore_unique (x y n m : string) :
  Str.mem_char "_" n = false -> Str.mem_char "_" m = false ->
  x ++ "_" ++ n = y ++ "_" ++ m -> x = y /\ n = m.
Proof.
  intros Hn Hm. revert y. induction x as [|a x IH]; intros y E.
  - destruct y as [|b y]; simpl in E.
    + inversion E. auto.
    + inversion E as [[Eb En]]. subst.
      rewrite mem_char_app in Hn. simpl in Hn.
      rewrite orb_true_r in Hn. discriminate.
  - destruct y as [|b y]; simpl in E.
    + inversion E as [[Ea Em]]. subst.
      rewrite mem_char_app in Hm. simpl in Hm.
      rewrite orb_true_r in Hm. discriminate.
    + inversion E as [[Ea E']]. subst.
      destruct (IH _ E') as [-> ->]. auto.
Qed.

Lemma strip_suffix_app (b suf : string) : Str.strip_suffix suf (b ++ suf) = Some b.
Proof.
  induction b as [|a b IH]; rewrite strip_suffix_unfold.
  - simpl. now rewrite String.eqb_refl.
  - destruct (String.eqb_spec (String a b ++ suf) suf) as [E|_].
    + apply (f_equal String.length) in E. rewrite length_append in E.
      simpl in E. lia.
    + simpl. now rewrite IH.
Qed.

Lemma match_form_app (b : string) (f : form) :
  b <> "" -> has_line_terminator b = false ->
  match_form (b ++ "_" ++ form_name f) f = Some (b, f).
Proof.
  intros Hne Hlt. unfold match_form. rewrite strip_suffix_app.
  apply is_empty_false in Hne. now rewrite Hne, Hlt.
Qed.

Lemma first_match_app (b : string) (f : form) (fs : list form) :
  b <> "" -> has_line_terminator b = false -> In f fs ->
  first_match (b ++ "_" ++ form_name f) fs = Some (b, f).
Proof.
  intros Hne Hlt. induction fs as [|g fs IH]; intros Hin; [contradiction|].
  cbn [first_match].
  destruct (match_form (b ++ "_" ++ form_name f) g) as [[b' g']|] eqn:E.
  - apply match_form_Some in E as (-> & E & _ & _).
    apply last_underscore_unique in E as [-> E];
      try apply form_name_no_underscore.
    now rewrite (form_name_inj _ _ E).
  - destruct Hin as [->|Hin]; [|auto].
    rewrite match_form_app in E by assumption. discriminate.
Qed.

(** X5.  [parsePluralKey] accepts exactly the keys made of a non-empty
    base key without line terminator, an underscore and the name of a
    form, and returns that base key and that form: splitting a key and
    putting it together again are inverse to each other. *)
Theorem parsePluralKey_iff (key b : string) (f : form) :
  parsePluralKey key = Some (b, f) <->
  key = b ++ "_" ++ form_name f /\ b <> "" /\ has_line_terminator b = false.
Proof.
  split.
  - apply parsePluralKey_Some.
  - intros (-> & Hne & Hlt). apply first_match_app; auto.
    destruct f; simpl; auto 10.
Qed.

(** ** Values at a level of the tree *)

Lemma convert_entries_no_proto (rec : obj -> M obj) es : forall result p out p',
  convert_entries rec es result p = Return out p' ->
  ~ In "__proto__" (keys result) -> ~ In "__proto__" (keys out).
Proof.
  induction es as [|[key v] es IH]; intros result p out p' H Hn.
  - simpl in H. unfold ret in H. now inversion H; subst.
  - simpl in H. apply bind_Return in H as (v1 & p1 & _ & H).
    eapply IH; eauto. now apply assign_no_proto.
Qed.

Lemma converted_no_proto (l out : obj) :
  converted l out -> ~ In "__proto__" (keys out).
Proof.
  intros Hc.
  apply converted_inv in Hc as (x & n & p & g & p1 & p' & _ & _ & Hc).
  eapply convert_entries_no_proto; eauto.
Qed.

(** X6.  A value that is not an object, under a kept key of a level
    reached through kept keys, is in the output under the same path: a
    string after one leaf rewriting (interpolation, then nesting), a
    number, a boolean, [null] or a list as it is. *)
Theorem leaf_under_kept_key
    (path : list string) (t l : obj) (p : proto) (out : obj) (p' : proto)
    (k : string) (v : value) :
  convertTranslations t p = Return out p' ->
  level_at path t l -> kept l k -> lookup k l = Some v ->
  (forall es, v <> VObj es) ->
  sub_at (path ++ [k]) (VObj out) = Some (leaf_image v).
Proof.
  intros H Hlv Hk Hl Hv.
  destruct (converted_level _ _ _ _ Hlv (converted_top _ _ _ _ H)) as (out_l & Hsub & Hc).
  rewrite (sub_at_app _ k _ _ Hsub).
  pose proof (converted_kept _ _ k Hc (level_at_NoDup _ _ _ Hlv) Hk) as Hkept.
  rewrite Hl in Hkept. destruct v; try exact Hkept.
  now destruct (Hv entries).
Qed.

Lemma leaf_under_kept_key_witness :
  sub_at (["a"] ++ ["b"])
         (VObj [("a", VObj [("b", VStr "Hi {x}, see [REF:k]"); ("n", VNum "5")])])
  = Some (leaf_image (VStr "Hi {{x}}, see $t(k)")).
Proof.
  apply (leaf_under_kept_key
           ["a"] [("a", VObj [("b", VStr "Hi {{x}}, see $t(k)"); ("n", VNum "5")])]
           [("b", VStr "Hi {{x}}, see $t(k)"); ("n", VNum "5")] fresh
           [("a", VObj [("b", VStr "Hi {x}, see [REF:k]"); ("n", VNum "5")])] fresh).
  - vm_compute. reflexivity.
  - apply level_down with (c := [("b", VStr "Hi {{x}}, see $t(k)"); ("n", VNum "5")]).
    + repeat constructor; simpl; intuition discriminate.
    + split; [reflexivity | split; [discriminate|]].
      intros k' [<-|[]]. vm_compute. tauto.
    + reflexivity.
    + apply level_here. repeat constructor; simpl; intuition discriminate.
  - split; [reflexivity | split; [discriminate|]].
    intros k' [<-|[<-|[]]]; vm_compute; tauto.
  - reflexivity.
  - discriminate.
Defined.

(** X8.  The converter invents no key.  At every level reached through
    kept keys, the keys of the output are distinct, none is [__proto__],
    and each is a plain key of the level or a base key of one of its
    keys. *)
Theorem output_keys_come_from_level
    (path : list string) (t l : obj) (p : proto) (out : obj) (p' : proto) :
  convertTranslations t p = Return out p' ->
  level_at path t l ->
  exists out_l,
    sub_at path (VObj out) = Some (VObj out_l) /\
    NoDup (keys out_l) /\
    ~ In "__proto__" (keys out_l) /\
    forall k, In k (keys out_l) ->
      (In k (keys l) /\ parsePluralKey k = None) \/
      exists k', In k' (keys l) /\ In k (bases k').
Proof.
  intros H Hlv.
  destruct (converted_level _ _ _ _ Hlv (converted_top _ _ _ _ H)) as (out_l & Hsub & Hc).
  exists out_l. split; [assumption|].
  split; [eapply converted_NoDup; eauto|].
  split; [eapply converted_no_proto; eauto|].
  intros k Hin.
  destruct (converted_keys _ _ k Hc Hin) as [(? & ? & _)|?]; auto.
Qed.

Lemma output_keys_come_from_level_witness :
  exists out_l,
    sub_at [] (VObj [("a", VStr "{count, plural, one{x}}")]) = Some (VObj out_l) /\
    NoDup (keys out_l) /\
    ~ In "__proto__" (keys out_l) /\
    forall k, In k (keys out_l) ->
      (In k (keys [("a_one", VStr "x"); ("__proto__", VNull)])
       /\ parsePluralKey k = None) \/
      exists k', In k' (keys [("a_one", VStr "x"); ("__proto__", VNull)])
                 /\ In k (bases k').
Proof.
  apply (output_keys_come_from_level
           [] [("a_one", VStr "x"); ("__proto__", VNull)]
           [("a_one", VStr "x"); ("__proto__", VNull)] fresh
           [("a", VStr "{count, plural, one{x}}")] fresh).
  - vm_compute. reflexivity.
  - apply level_here. repeat constructor; simpl; intuition discriminate.
Defined.

(** X7.  The object under a plain key of the argument, other than
    [__proto__], that is the base key of no key is first grouped by the
    recursion of [groupPlurals], and the result of that grouping is then
    converted by [convertTranslations], which groups it once more.  (An
    object under the key [__proto__] is not in the output at all.) *)
Theorem nested_object_grouped_then_converted
    (t : obj) (p : proto) (out : obj) (p' : proto) (k : string) (c : obj) :
  convertTranslations t p = Return out p' ->
  NoDup (keys t) ->
  parsePluralKey k = None -> k <> "__proto__" ->
  (forall k' f, In k' (keys t) -> parsePluralKey k' <> Some (k, f)) ->
  lookup k t = Some (VObj c) ->
  exists g out_c p1 p2 p3 p4,
    groupPlurals c p1 = Return g p2 /\
    convertTranslations g p3 = Return out_c p4 /\
    lookup k out = Some (VObj out_c).
Proof.
  intros H Hnd Hk Hpr Hbase Hl. unfold convertTranslations in H.
  apply convertTranslations_fuel_Return in H as (m & G & q & Hm & HG & Hc).
  pose proof (pass_kept _ _ _ _ k HG Hnd Hk Hpr Hbase) as Hkept.
  rewrite Hl in Hkept. destruct Hkept as (v' & p1 & p2 & Hpass & HlG).
  simpl in Hpass. apply bind_Return in Hpass as (g & p2' & Hg & Hret).
  unfold ret in Hret. inversion Hret; subst v' p2'.
  change (groupPlurals_value (VObj c) p1) with (groupPlurals c p1) in Hg.
  apply convert_entries_Return in Hc as [Hc _].
  specialize (Hc (proj1 (pass_keys _ _ _ _ HG)) k Hpr).
  rewrite HlG in Hc. destruct Hc as (v'' & p3 & p4 & Hcv & Hout).
  simpl in Hcv. apply bind_Return in Hcv as (r & p4' & Hrec & Hret').
  unfold ret in Hret'. inversion Hret'; subst v'' p4'.
  exists g, r, p1, p2, p3, p4. split; [assumption|]. split; [|assumption].
  rewrite <- Hrec. symmetry. apply convertTranslations_fuel_more.
  destruct (groupPlurals_depth _ t p (le_n _)) as [_ Hle].
  specialize (Hle _ _ HG). rewrite Hm in Hle.
  apply depth_obj in Hle. unfold shallow in Hle. rewrite Forall_forall in Hle.
  exact (Hle _ (lookup_In_pair _ _ _ HlG)).
Qed.

Lemma nested_object_grouped_then_converted_witness :
  exists g out_c p1 p2 p3 p4,
    groupPlurals [("a_one", VStr "x"); ("a_one_one", VStr "y")] p1 = Return g p2 /\
    convertTranslations g p3 = Return out_c p4 /\
    lookup "n" [("n", VObj [("a", VStr "{count, plural, one{count, plural, one{y}}}")])]
    = Some (VObj out_c).
Proof.
  apply (nested_object_grouped_then_converted
           [("n", VObj [("a_one", VStr "x"); ("a_one_one", VStr "y")])] fresh
           [("n", VObj [("a", VStr "{count, plural, one{count, plural, one{y}}}")])]
           fresh "n").
  - vm_compute. reflexivity.
  - repeat constructor; simpl; intuition discriminate.
  - reflexivity.
  - discriminate.
  - intros k' f [<-|[]]. vm_compute. discriminate.
  - reflexivity.
Defined.

Lemma parsePluralKey_iff_witness :
  parsePluralKey "user_items_other" = Some ("user_items", Other).
Proof.
  apply (proj2 (parsePluralKey_iff "user_items_other" "user_items" Other)).
  split; [reflexivity | split; [discriminate | reflexivity]].
Defined.

(** ** Printing the members of a family *)

Lemma sequence_None {A : Type} (l : list (option A)) :
  sequence l = None <-> In None l.
Proof.
  induction l as [|[x|] l IH]; simpl.
  - split; [discriminate | tauto].
  - destruct (sequence l).
    + split; [discriminate|]. intros [H|H]; [discriminate|].
      apply IH in H. discriminate.
    + split; [intros _; right; now apply IH | reflexivity].
  - split; [auto | reflexivity].
Qed.

Lemma plural_part_None (f : form) (v : value) :
  plural_part (f, v) = None <-> toString v = None.
Proof.
  unfold plural_part.
  destruct v; simpl; try (split; discriminate).
  - destruct b; split; discriminate.
  - destruct (option_map (Str.join ",") _); split; congruence.
  - destruct (has_key "toString" entries); split; congruence.
Qed.

(** X10.  [createICUPlural] raises exactly when one member of the family
    cannot be printed by the template literal; otherwise it returns a
    string that opens with ["{count, plural, "] and closes with ["}"].
    Strings, numbers, booleans and [null] can always be printed. *)
Theorem createICUPlural_fails_iff (forms : family) :
  (createICUPlural forms = None <->
   exists f v, In (f, v) forms /\ toString v = None) /\
  (forall s, createICUPlural forms = Some s ->
     exists body, s = "{count, plural, " ++ body ++ "}") /\
  (forall v, (forall items, v <> VArr items) -> (forall es, v <> VObj es) ->
     toString v <> None).
Proof.
  split; [|split].
  - unfold createICUPlural.
    destruct (sequence (map plural_part forms)) as [parts|] eqn:E.
    + split; [discriminate|]. intros (f & v & Hin & Hv).
      assert (In None (map plural_part forms)) as HN.
      { apply in_map_iff. exists (f, v). split; [now apply plural_part_None | assumption]. }
      apply sequence_None in HN. congruence.
    + split; [|reflexivity]. intros _.
      apply sequence_None in E. apply in_map_iff in E as ([f v] & Hp & Hin).
      exists f, v. split; [assumption | now apply plural_part_None in Hp].
  - unfold createICUPlural. intros s.
    destruct (sequence (map plural_part forms)) as [parts|]; [|discriminate].
    intros H. inversion H. now exists (Str.join " " parts).
  - intros v Ha Ho. destruct v; simpl; try discriminate.
    + destruct b; discriminate.
    + now destruct (Ha items).
    + now destruct (Ho entries).
Qed.

(** ** Base keys found on [Object.prototype] *)

Lemma depth_child (es : obj) (k : string) (c : value) (n : nat) :
  depth (VObj es) <= S n -> In (k, c) es -> depth c <= n.
Proof.
  intros Hd Hin. apply depth_obj in Hd. unfold shallow in Hd.
  rewrite Forall_forall in Hd. exact (Hd _ Hin).
Qed.

Lemma prototype_method_plain (K : string) :
  is_prototype_method K = true ->
  parsePluralKey K = None /\ K <> "__proto__".
Proof.
  unfold is_prototype_method. rewrite existsb_exists.
  intros (x & Hin & E). apply String.eqb_eq in E. subst x.
  simpl in Hin.
  repeat (destruct Hin as [<-|Hin]; [split; [reflexivity | discriminate]|]).
  contradiction.
Qed.

Lemma add_form_method (pg : groups) (K : string) (f : form) (v : value) (p : proto) :
  is_prototype_method K = true -> lookup K pg = None ->
  add_form pg K f v p = Return pg p.
Proof.
  intros Hm Hl. destruct (prototype_method_plain _ Hm) as [_ Hp].
  unfold add_form, read_group. rewrite Hl, Hm.
  apply String.eqb_neq in Hp. now rewrite Hp.
Qed.

Lemma scan_method (nested : value -> M obj) (K : string) es :
  is_prototype_method K = true ->
  forall result pg p result' pg' p',
    scan nested es result pg p = Return (result', pg') p' ->
    lookup K pg = None -> lookup K pg' = None.
Proof.
  intros Hm. induction es as [|[key v] es IH]; intros result pg p result' pg' p' H Hl.
  - simpl in H. unfold ret in H. now inversion H; subst.
  - destruct (parsePluralKey key) as [[b f]|] eqn:E.
    + rewrite (scan_cons_plural _ _ _ _ _ _ _ _ _ E) in H.
      apply bind_Return in H as (pg1 & p1 & Ha & H).
      eapply IH; eauto.
      destruct (String.eqb_spec b K) as [->|Hne].
      * rewrite (add_form_method _ _ _ _ _ Hm Hl) in Ha. now inversion Ha; subst.
      * now rewrite (add_form_lookup_other _ _ _ _ _ _ _ _ Ha Hne).
    + rewrite (scan_cons_plain _ _ _ _ _ _ _ E) in H.
      apply bind_Return in H as (v1 & p1 & _ & H). eapply IH; eauto.
Qed.

(** X13.  A family whose base key is the name of a method of
    [Object.prototype] (such as [constructor] or [toString]) is never
    compiled: its members are written on that method.  The output has
    that key only when the argument has it as a plain key, and then with
    what the conversion makes of the value of the plain key: a string
    after the leaf rewriting, a number, a boolean, [null] or a list as
    it is, an object grouped and then converted. *)
Theorem inherited_base_key_never_compiled
    (t : obj) (p : proto) (out : obj) (p' : proto) (K : string) :
  convertTranslations t p = Return out p' ->
  NoDup (keys t) -> is_prototype_method K = true ->
  (lookup K t = None -> lookup K out = None) /\
  (forall v, lookup K t = Some v -> (forall es, v <> VObj es) ->
     lookup K out = Some (leaf_image v)) /\
  (forall c, lookup K t = Some (VObj c) ->
     exists g out_c p1 p2 p3 p4,
       groupPlurals c p1 = Return g p2 /\
       convertTranslations g p3 = Return out_c p4 /\
       lookup K out = Some (VObj out_c)).
Proof.
  intros H Hnd Hm. destruct (prototype_method_plain _ Hm) as [Hk Hp].
  unfold convertTranslations in H.
  apply convertTranslations_fuel_Return in H as (m & G & q & Hfuel & HG & Hc).
  pose proof (proj1 (pass_keys _ _ _ _ HG)) as HndG.
  pose proof (proj2 (groupPlurals_depth _ t p (le_n _)) _ _ HG) as Hdepth.
  apply groupPlurals_Return in HG as (result & pg & p1 & Hs & Hcg).
  pose proof (scan_plain _ _ _ _ _ _ _ _ Hs Hnd K Hk Hp) as Hplain.
  pose proof (scan_method _ K _ Hm _ _ _ _ _ _ Hs eq_refl) as Hpg.
  destruct (scan_keys _ _ _ _ _ _ _ _ Hs) as (_ & _ & _ & S4).
  destruct (compile_groups_Return _ _ _ _ _ Hcg) as (_ & C2 & _ & _).
  specialize (C2 (S4 (NoDup_nil _)) K Hp). rewrite Hpg in C2.
  apply convert_entries_Return in Hc as [Hc _].
  specialize (Hc HndG K Hp). rewrite C2 in Hc.
  split; [|split].
  - intros Hl. rewrite Hl in Hplain. simpl in Hplain.
    now rewrite Hplain in Hc.
  - intros v Hl Hv. rewrite Hl in Hplain.
    destruct Hplain as (v' & q1 & q2 & Hpass & Hres). rewrite Hres in Hc.
    destruct Hc as (v'' & q3 & q4 & Hcv & Hout). rewrite Hout.
    destruct v; simpl in Hpass; unfold ret in Hpass;
      try (inversion Hpass; subst v'; simpl in Hcv; unfold ret in Hcv;
           now inversion Hcv).
    now destruct (Hv entries).
  - intros c Hl. rewrite Hl in Hplain.
    destruct Hplain as (v' & q1 & q2 & Hpass & Hres).
    assert (In (K, v') G) as HinG by (apply lookup_In_pair; congruence).
    rewrite Hres in Hc. destruct Hc as (v'' & q3 & q4 & Hcv & Hout).
    simpl in Hpass. apply bind_Return in Hpass as (g & q2' & Hg & Hret).
    unfold ret in Hret. inversion Hret; subst v' q2'.
    change (groupPlurals_value (VObj c) q1) with (groupPlurals c q1) in Hg.
    simpl in Hcv. apply bind_Return in Hcv as (r & q4' & Hrec & Hret').
    unfold ret in Hret'. inversion Hret'; subst v'' q4'.
    exists g, r, q1, q2, q3, q4. split; [assumption|]. split; [|assumption].
    rewrite <- Hrec. symmetry. apply convertTranslations_fuel_more.
    rewrite Hfuel in Hdepth. exact (depth_child _ _ _ _ Hdepth HinG).
Qed.

Lemma inherited_base_key_never_compiled_witness :
  (lookup "toString" [("toString_one", VStr "a"); ("toString_other", VStr "b")] = None ->
   lookup "toString" ([] : obj) = None) /\
  (forall v,
     lookup "constructor"
       [("constructor", VStr "{{x}}"); ("constructor_one", VStr "y")] = Some v ->
     (forall es, v <> VObj es) ->
     lookup "constructor" [("constructor", VStr "{x}")] = Some (leaf_image v)) /\
  (forall c,
     lookup "valueOf"
       [("valueOf", VObj [("a_one", VStr "$t(k)")]); ("valueOf_other", VStr "y")]
     = Some (VObj c) ->
     exists g out_c p1 p2 p3 p4,
       groupPlurals c p1 = Return g p2 /\
       convertTranslations g p3 = Return out_c p4 /\
       lookup "valueOf"
         [("valueOf", VObj [("a", VStr "{count, plural, one{[REF:k]}}")])]
       = Some (VObj out_c)).
Proof.
  split; [|split].
  - apply (inherited_base_key_never_compiled
             [("toString_one", VStr "a"); ("toString_other", VStr "b")] fresh
             [] fresh "toString").
    + vm_compute. reflexivity.
    + repeat constructor; simpl; intuition discriminate.
    + reflexivity.
  - apply (inherited_base_key_never_compiled
             [("constructor", VStr "{{x}}"); ("constructor_one", VStr "y")] fresh
             [("constructor", VStr "{x}")] fresh "constructor").
    + vm_compute. reflexivity.
    + repeat constructor; simpl; intuition discriminate.
    + reflexivity.
  - apply (inherited_base_key_never_compiled
             [("valueOf", VObj [("a_one", VStr "$t(k)")]); ("valueOf_other", VStr "y")]
             fresh
             [("valueOf", VObj [("a", VStr "{count, plural, one{[REF:k]}}")])]
             fresh "valueOf").
    + vm_compute. reflexivity.
    + repeat constructor; simpl; intuition discriminate.
    + reflexivity.
Defined.

(** ** Trees without plural keys *)

(** X11.  On a tree without plural keys and without a key [__proto__],
    with distinct keys at every level, the conversion returns, leaves
    [Object.prototype] as it found it, and gives a tree of the same
    shape: the same keys at every level, objects for objects, strings
    for strings, and the other leaves unchanged. *)
Theorem plural_free_tree_keeps_shape (t : obj) (p : proto) :
  plain_tree (VObj t) ->
  exists out,
    convertTranslations t p = Return out p /\ same_shape (VObj t) (VObj out).
Proof. apply plain_tree_converted. Qed.

Lemma plural_free_tree_keeps_shape_witness :
  exists out,
    convertTranslations
      [("1", VNum "5"); ("a", VObj [("b", VStr "Hi {{x}}"); ("l", VArr [VNull])])]
      [(One, hold (VStr "x"))]
    = Return out [(One, hold (VStr "x"))] /\
    same_shape
      (VObj [("1", VNum "5"); ("a", VObj [("b", VStr "Hi {{x}}"); ("l", VArr [VNull])])])
      (VObj out).
Proof.
  apply plural_free_tree_keeps_shape.
  apply plain_obj; [repeat constructor; simpl; intuition discriminate|].
  intros k c [E|[E|[]]]; inversion E; subst;
    (split; [reflexivity | split; [discriminate|]]).
  - apply plain_leaf. discriminate.
  - apply plain_obj; [repeat constructor; simpl; intuition discriminate|].
    intros k c [E'|[E'|[]]]; inversion E'; subst;
      (split; [reflexivity | split; [discriminate|]]);
      apply plain_leaf; discriminate.
Defined.

(** ** Trees of plain keys, in order *)

Lemma assign_append (o : obj) (k : string) (v : value) :
  k <> "__proto__" -> array_index k = None -> ~ In k (keys o) ->
  assign k v o = (o ++ [(k, v)])%list.
Proof.
  intros Hp Hi Hk. unfold assign, define.
  apply String.eqb_neq in Hp. rewrite Hp.
  apply has_key_false in Hk. rewrite Hk. now apply place_append.
Qed.

Lemma fresh_keys_step (key : string) (v w : value) (es result : obj) :
  NoDup (keys ((key, v) :: es)) ->
  (forall k, In k (keys ((key, v) :: es)) -> ~ In k (keys result)) ->
  forall k, In k (keys es) -> ~ In k (keys (result ++ [(key, w)])%list).
Proof.
  intros Hnd Hf k Hk Hin. inversion Hnd as [|? ? Hnotin _]; subst.
  unfold keys in Hin. rewrite map_app in Hin. apply in_app_or in Hin as [Hin|Hin].
  - apply (Hf k); simpl; auto.
  - simpl in Hin. destruct Hin as [<-|[]]. auto.
Qed.

Lemma scan_simple (nested : value -> M obj) es : forall result pg p,
  (forall k c, In (k, c) es ->
     parsePluralKey k = None /\ k <> "__proto__" /\ array_index k = None /\
     forall q, pass_value nested c q = Return c q) ->
  NoDup (keys es) ->
  (forall k, In k (keys es) -> ~ In k (keys result)) ->
  scan nested es result pg p = Return ((result ++ es)%list, pg) p.
Proof.
  induction es as [|[key v] es IH]; intros result pg p Hes Hnd Hf.
  - simpl. now rewrite app_nil_r.
  - destruct (Hes key v (in_eq _ _)) as (Hk & Hp & Hi & Hv).
    rewrite (scan_cons_plain _ _ _ _ _ _ _ Hk). unfold bind. rewrite Hv.
    rewrite assign_append; [|assumption|assumption|apply Hf; simpl; auto].
    rewrite IH.
    + now rewrite <- app_assoc.
    + intros k c Hin. apply Hes. now right.
    + now inversion Hnd.
    + now apply fresh_keys_step with (v := v).
Qed.

Lemma convert_entries_simple (rec : obj -> M obj) es : forall result p,
  (forall k c, In (k, c) es ->
     k <> "__proto__" /\ array_index k = None /\
     forall q, convertValue rec c q = Return (rewrite_value c) q) ->
  NoDup (keys es) ->
  (forall k, In k (keys es) -> ~ In k (keys result)) ->
  convert_entries rec es result p = Return ((result ++ rewrite_entries es)%list) p.
Proof.
  induction es as [|[key v] es IH]; intros result p Hes Hnd Hf.
  - simpl. now rewrite app_nil_r.
  - destruct (Hes key v (in_eq _ _)) as (Hp & Hi & Hv).
    simpl. unfold bind. rewrite Hv.
    rewrite assign_append; [|assumption|assumption|apply Hf; simpl; auto].
    rewrite IH.
    + now rewrite <- app_assoc.
    + intros k c Hin. apply Hes. now right.
    + now inversion Hnd.
    + now apply fresh_keys_step with (v := v).
Qed.

Lemma simple_tree_inv (es : obj) :
  simple_tree (VObj es) ->
  NoDup (keys es) /\
  forall k c, In (k, c) es ->
    parsePluralKey k = None /\ k <> "__proto__" /\ array_index k = None /\
    simple_tree c.
Proof.
  intros H. inversion H as [v Hv|es' Hnd Hes]; subst; [now destruct (Hv es)|].
  auto.
Qed.

Lemma groupPlurals_simple (n : nat) : forall t p,
  depth (VObj t) <= n -> simple_tree (VObj t) ->
  groupPlurals t p = Return t p.
Proof.
  induction n as [|n IH]; intros t p Hd Hs.
  - pose proof (depth_obj_pos t). lia.
  - apply simple_tree_inv in Hs as [Hnd Hes].
    rewrite groupPlurals_unfold. unfold bind.
    rewrite (scan_simple groupPlurals_value t [] [] p); [reflexivity| |assumption|auto].
    intros k c Hin. destruct (Hes k c Hin) as (Hk & Hp & Hi & Hc).
    split; [assumption|split; [assumption|split; [assumption|]]].
    intros q. destruct c; try reflexivity.
    unfold pass_value, bind.
    change (groupPlurals_value (VObj entries) q) with (groupPlurals entries q).
    rewrite IH; [reflexivity| |assumption].
    exact (depth_child _ _ _ _ Hd Hin).
Qed.

Lemma convertTranslations_fuel_simple (n : nat) : forall t p,
  depth (VObj t) <= n -> simple_tree (VObj t) ->
  convertTranslations_fuel n t p = Return (rewrite_entries t) p.
Proof.
  induction n as [|n IH]; intros t p Hd Hs.
  - pose proof (depth_obj_pos t). lia.
  - simpl. unfold bind. rewrite (groupPlurals_simple _ t p (le_n _) Hs).
    apply simple_tree_inv in Hs as [Hnd Hes].
    rewrite (convert_entries_simple _ t [] p); [reflexivity| |assumption|auto].
    intros k c Hin. destruct (Hes k c Hin) as (Hk & Hp & Hi & Hc).
    split; [assumption|split; [assumption|]].
    intros q. destruct c; try reflexivity.
    unfold convertValue, bind.
    rewrite IH; [reflexivity| |assumption].
    exact (depth_child _ _ _ _ Hd Hin).
Qed.

(** X12.  On a tree whose keys, at every level, are distinct, do not
    match the plural pattern and are neither [__proto__] nor array
    indices, the conversion is the leaf rewriting applied to every
    string outside lists: same keys in the same order, lists, numbers,
    booleans and [null] untouched, [Object.prototype] untouched. *)
Theorem plain_tree_is_mapped (t : obj) (p : proto) :
  simple_tree (VObj t) ->
  convertTranslations t p = Return (rewrite_entries t) p.
Proof.
  intros Hs. unfold convertTranslations.
  now apply convertTranslations_fuel_simple.
Qed.

Lemma plain_tree_is_mapped_witness :
  convertTranslations
    [("b", VStr "Hi {{x}}"); ("a", VObj [("l", VArr [VStr "{{y}}"]); ("r", VStr "$t(k)")])]
    fresh
  = Return
      [("b", VStr "Hi {x}"); ("a", VObj [("l", VArr [VStr "{{y}}"]); ("r", VStr "[REF:k]")])]
      fresh.
Proof.
  apply (plain_tree_is_mapped
           [("b", VStr "Hi {{x}}");
            ("a", VObj [("l", VArr [VStr "{{y}}"]); ("r", VStr "$t(k)")])] fresh).
  apply simple_obj; [repeat constructor; simpl; intuition discriminate|].
  intros k c [E|[E|[]]]; inversion E; subst;
    (split; [reflexivity | split; [discriminate | split; [reflexivity|]]]).
  - apply simple_leaf. discriminate.
  - apply simple_obj; [repeat constructor; simpl; intuition discriminate|].
    intros k c [E'|[E'|[]]]; inversion E'; subst;
      (split; [reflexivity | split; [discriminate | split; [reflexivity|]]]);
      apply simple_leaf; discriminate.
Defined.

(** ** The entries of a grouped level *)

Lemma pass_value_Return (nested : value -> M obj) (c v : value) (q q' : proto) :
  pass_value nested c q = Return v q' ->
  (exists es r, c = VObj es /\ nested c q = Return r q' /\ v = VObj r) \/
  ((forall es, c <> VObj es) /\ v = c /\ q' = q).
Proof.
  destruct c; simpl; unfold ret; intros H;
    try (right; inversion H; subst; split; [discriminate | auto]).
  left. apply bind_Return in H as (r & p1 & Hn & Hr).
  unfold ret in Hr. inversion Hr; subst. eauto.
Qed.

Lemma scan_entries (nested : value -> M obj) es :
  forall result pg p result' pg' p',
    scan nested es result pg p = Return (result', pg') p' ->
    forall k v, In (k, v) result' ->
      In (k, v) result \/
      (parsePluralKey k = None /\
       exists c q q', In (k, c) es /\ pass_value nested c q = Return v q').
Proof.
  induction es as [|[key c] es IH]; intros result pg p result' pg' p' H k v Hin.
  - simpl in H. unfold ret in H. inversion H; subst. now left.
  - destruct (parsePluralKey key) as [[b f]|] eqn:E.
    + rewrite (scan_cons_plural _ _ _ _ _ _ _ _ _ E) in H.
      apply bind_Return in H as (pg1 & p1 & _ & H).
      destruct (IH _ _ _ _ _ _ H k v Hin) as [?|(Hk & c' & q & q' & Hc & Hp)]; [auto|].
      right. split; [assumption|]. exists c', q, q'. split; [now right | assumption].
    + rewrite (scan_cons_plain _ _ _ _ _ _ _ E) in H.
      apply bind_Return in H as (v1 & p1 & Hv & H).
      destruct (IH _ _ _ _ _ _ H k v Hin) as [Hr|(Hk & c' & q & q' & Hc & Hp)].
      * apply in_assign in Hr as [[Heq _]|?]; [|auto].
        inversion Heq; subst. right. split; [assumption|].
        exists c, p, p1. split; [now left | assumption].
      * right. split; [assumption|]. exists c', q, q'. split; [now right | assumption].
Qed.

Lemma compile_groups_entries gs : forall result p result' p',
  compile_groups gs result p = Return result' p' ->
  forall k v, In (k, v) result' ->
    In (k, v) result \/ (In k (keys gs) /\ exists s, v = VStr s).
Proof.
  induction gs as [|[B fam] gs IH]; intros result p result' p' H k v Hin.
  - simpl in H. unfold ret in H. inversion H; subst. now left.
  - simpl in H. apply bind_Return in H as (text & p1 & _ & H).
    destruct (IH _ _ _ _ H k v Hin) as [Hr|[Hk Hs]].
    + apply in_assign in Hr as [[Heq _]|?]; [|auto].
      inversion Heq; subst. right. split; [now left | eauto].
    + right. split; [now right | assumption].
Qed.

Lemma groupPlurals_entries (t : obj) (p : proto) (g : obj) (p' : proto) :
  groupPlurals t p = Return g p' ->
  forall k v, In (k, v) g ->
    (parsePluralKey k = None /\
     exists c q q', In (k, c) t /\ pass_value groupPlurals_value c q = Return v q') \/
    (exists s k' f, v = VStr s /\ In k' (keys t) /\ parsePluralKey k' = Some (k, f)).
Proof.
  intros H k v Hin. apply groupPlurals_Return in H as (result & pg & p1 & Hs & Hc).
  destruct (compile_groups_entries _ _ _ _ _ Hc k v Hin) as [Hr|[Hk [s ->]]].
  - destruct (scan_entries _ _ _ _ _ _ _ _ Hs k v Hr) as [[]|?]. now left.
  - destruct (scan_keys _ _ _ _ _ _ _ _ Hs) as (_ & S2 & _ & _).
    destruct (S2 k Hk) as [[]|(k' & f & Hk' & Hp)]. right. eauto 6.
Qed.

Lemma in_keys_entry {A : Type} (o : list (string * A)) (k : string) :
  In k (keys o) -> exists v, In (k, v) o.
Proof.
  unfold keys. rewrite in_map_iff. intros ([k' v] & <- & Hin). now exists v.
Qed.

(** ** When [Object.prototype] is left alone *)

Lemma quiet_bind {A B : Type} (m : M A) (k : A -> M B) (p : proto) :
  quiet m p -> (forall a, m p = Return a p -> quiet (k a) p) ->
  quiet (bind m k) p.
Proof.
  unfold quiet at 1 3, bind. destruct (m p) as [a p1|e p1|] eqn:E; intros H1 H2.
  - subst p1. exact (H2 a eq_refl).
  - assumption.
  - exact I.
Qed.

Lemma quiet_eq {A : Type} (m m' : M A) (p : proto) :
  m p = m' p -> quiet m' p -> quiet m p.
Proof. unfold quiet. now intros ->. Qed.

Lemma quiet_ret {A : Type} (a : A) (p : proto) : quiet (ret a) p.
Proof. reflexivity. Qed.

Lemma add_form_quiet (pg : groups) (B : string) (f : form) (v : value) (p : proto) :
  reaches p B = false -> quiet (add_form pg B f v) p.
Proof.
  unfold reaches. intros HB. apply orb_false_iff in HB as [HB Hf].
  unfold quiet, add_form, read_group. rewrite HB.
  destruct (lookup B pg); [reflexivity|].
  destruct (is_prototype_method B); [reflexivity|].
  destruct (form_of_string B) as [g|]; [|reflexivity].
  destruct (proto_get g p) as [h|]; [|reflexivity].
  destruct (truthy (held_value h)); [|reflexivity].
  destruct (held_value h); try reflexivity; discriminate.
Qed.

Lemma base_not_proto (k b : string) (f : form) :
  parsePluralKey k = Some (b, f) -> ~ In "__proto__" (bases k) -> b <> "__proto__".
Proof.
  intros Hp Hn ->. apply Hn. eapply bases_direct; eauto.
Qed.

Lemma scan_quiet (nested : value -> M obj) (p : proto) es : forall result pg,
  (forall k c, In (k, c) es ->
     (forall B, In B (bases k) -> reaches p B = false) /\
     (parsePluralKey k = None -> quiet (pass_value nested c) p)) ->
  quiet (scan nested es result pg) p.
Proof.
  induction es as [|[key c] es IH]; intros result pg Hes.
  - reflexivity.
  - destruct (Hes key c (in_eq _ _)) as [Hb Hc].
    assert (forall k c, In (k, c) es ->
              (forall B, In B (bases k) -> reaches p B = false) /\
              (parsePluralKey k = None -> quiet (pass_value nested c) p)) as Hes'
      by (intros k c' Hin; apply Hes; now right).
    destruct (parsePluralKey key) as [[b f]|] eqn:E.
    + eapply quiet_eq; [apply (scan_cons_plural _ _ _ _ _ _ _ _ _ E)|].
      apply quiet_bind.
      * apply add_form_quiet. apply Hb. eapply bases_direct; eauto.
      * intros pg1 _. now apply IH.
    + eapply quiet_eq; [apply (scan_cons_plain _ _ _ _ _ _ _ E)|].
      apply quiet_bind; [now apply Hc|].
      intros v1 _. now apply IH.
Qed.

Lemma compile_groups_quiet (p : proto) gs : forall result,
  quiet (compile_groups gs result) p.
Proof.
  induction gs as [|[B fam] gs IH]; intros result; [reflexivity|].
  simpl. apply quiet_bind.
  - unfold quiet. destruct (createICUPlural fam); reflexivity.
  - intros text _. apply IH.
Qed.

Lemma proto_free_inv (p : proto) (es : obj) :
  proto_free p (VObj es) ->
  forall k c, In (k, c) es ->
    (forall B, In B (bases k) -> reaches p B = false) /\
    (parsePluralKey k = None -> proto_free p c).
Proof.
  intros H. inversion H as [v Hv|es' Hes]; subst; [now destruct (Hv es)|].
  assumption.
Qed.

(** The trees that [groupPlurals] returns from a [proto_free] tree are
    [proto_free], whatever the state of the call. *)
Lemma groupPlurals_keeps_free (p : proto) (n : nat) : forall t q g q',
  depth (VObj t) <= n -> proto_free p (VObj t) ->
  groupPlurals t q = Return g q' ->
  forall k c, In (k, c) g ->
    (forall B, In B (bases k) -> reaches p B = false) /\ proto_free p c.
Proof.
  induction n as [|n IH]; intros t q g q' Hd Hf HG k v Hin.
  - pose proof (depth_obj_pos t). lia.
  - pose proof (proto_free_inv _ _ Hf) as Hes.
    destruct (groupPlurals_entries _ _ _ _ HG k v Hin)
      as [(Hk & c & q1 & q2 & Hc & Hp)|(s & k' & f & -> & Hk' & Hp)].
    + split; [rewrite (bases_plain _ Hk); intros B []|].
      destruct (Hes k c Hc) as [_ Hfc]. specialize (Hfc Hk).
      apply pass_value_Return in Hp as [(es & r & -> & Hr & ->)|(_ & -> & _)];
        [|assumption].
      apply proto_free_obj. intros k1 c1 Hin1.
      destruct (IH es q1 r q2 (depth_child _ _ _ _ Hd Hc) Hfc Hr k1 c1 Hin1).
      auto.
    + split; [|apply proto_free_leaf; discriminate].
      apply in_keys_entry in Hk' as [c' Hc'].
      destruct (Hes k' c' Hc') as [Hb _]. intros B HB. apply Hb.
      eapply bases_trans; [exact HB | eapply bases_direct; eauto].
Qed.

Lemma groupPlurals_quiet (p : proto) (n : nat) : forall t,
  depth (VObj t) <= n -> proto_free p (VObj t) -> quiet (groupPlurals t) p.
Proof.
  induction n as [|n IH]; intros t Hd Hf.
  - pose proof (depth_obj_pos t). lia.
  - pose proof (proto_free_inv _ _ Hf) as Hes.
    eapply quiet_eq; [apply groupPlurals_unfold|].
    apply quiet_bind; [|intros rg _; apply compile_groups_quiet].
    apply scan_quiet. intros k c Hin.
    destruct (Hes k c Hin) as [Hb Hc]. split; [assumption|].
    intros Hk. destruct c; try apply quiet_ret.
    unfold pass_value. apply quiet_bind; [|intros; apply quiet_ret].
    apply (IH entries); [exact (depth_child _ _ _ _ Hd Hin) | auto].
Qed.

Lemma convert_entries_quiet (rec : obj -> M obj) (p : proto) es : forall result,
  (forall k c, In (k, c) es -> quiet (convertValue rec c) p) ->
  quiet (convert_entries rec es result) p.
Proof.
  induction es as [|[key c] es IH]; intros result Hes; [reflexivity|].
  simpl. apply quiet_bind; [apply (Hes key c); now left|].
  intros v _. apply IH. intros k c' Hin. apply (Hes k c'). now right.
Qed.

Lemma convertTranslations_fuel_quiet (p : proto) (n : nat) : forall t,
  depth (VObj t) <= n -> proto_free p (VObj t) ->
  quiet (convertTranslations_fuel n t) p.
Proof.
  induction n as [|n IH]; intros t Hd Hf; [exact I|].
  simpl. apply quiet_bind; [now apply (groupPlurals_quiet p (S n))|].
  intros g HG.
  pose proof (proj2 (groupPlurals_depth (S n) t p Hd) g p HG) as Hdg.
  apply convert_entries_quiet. intros k c Hin.
  destruct (groupPlurals_keeps_free p (S n) t p g p Hd Hf HG k c Hin) as [_ Hc].
  destruct c; try apply quiet_ret.
  unfold convertValue. apply quiet_bind; [|intros; apply quiet_ret].
  apply IH; [|assumption].
  apply (depth_child g k _ n); [lia | assumption].
Qed.

(** X14.  A call of [convertTranslations] changes [Object.prototype], or
    an object or a list that [Object.prototype] holds under the name of
    a plural form, only through a key that has, somewhere up its chain
    of base keys, the base key [__proto__] or the name of a form under
    which [Object.prototype] holds an object or a list.  On a tree with
    no such key at the levels it scans, the call leaves that state as
    it found it, whether it returns or raises [TypeError]. *)
Theorem prototype_left_alone (t : obj) (p : proto) :
  proto_free p (VObj t) ->
  (forall out p', convertTranslations t p = Return out p' -> p' = p) /\
  (forall e p', convertTranslations t p = Throw e p' -> p' = p).
Proof.
  intros Hf.
  pose proof (convertTranslations_fuel_quiet p _ t (le_n _) Hf) as Hq.
  unfold quiet in Hq. fold (convertTranslations t) in Hq.
  split; intros x p' H; rewrite H in Hq; assumption.
Qed.

Lemma prototype_left_alone_witness :
  (forall out p',
     convertTranslations
       [("one_other", VStr "y"); ("two_one", VStr "z"); ("a", VObj [("k_one", VNull)])]
       [(One, hold VNull); (Few, hold (VObj []))]
     = Return out p' -> p' = [(One, hold VNull); (Few, hold (VObj []))]) /\
  (forall e p',
     convertTranslations
       [("one_other", VStr "y"); ("two_one", VStr "z"); ("a", VObj [("k_one", VNull)])]
       [(One, hold VNull); (Few, hold (VObj []))]
     = Throw e p' -> p' = [(One, hold VNull); (Few, hold (VObj []))]).
Proof.
  apply prototype_left_alone.
  apply proto_free_obj. intros k c [E|[E|[E|[]]]]; inversion E; subst.
  - split; [|discriminate]. intros B [<-|[]]. reflexivity.
  - split; [|discriminate]. intros B [<-|[]]. reflexivity.
  - split; [intros B []|]. intros _.
    apply proto_free_obj. intros k c [E'|[]]; inversion E'; subst.
    split; [|discriminate]. intros B [<-|[]]. reflexivity.
Defined.

(** The condition of [prototype_left_alone] is needed: a key whose
    base key names a form under which [Object.prototype] holds an
    object has its value written on that object. *)
Example inherited_object_written :
  convertTranslations [("one_other", VStr "y")] [(One, hold (VObj [("a", VNum "1")]))]
  = Return [] [(One, hold (VObj [("a", VNum "1"); ("other", VStr "y")]))] /\
  reaches [(One, hold (VObj [("a", VNum "1")]))] "one" = true.
Proof. vm_compute. split; reflexivity. Qed.

(** ** When the conversion returns *)

Lemma set_form_in (f g : form) (v w : value) (fam : family) :
  In (g, w) (set_form f v fam) -> (g, w) = (f, v) \/ In (g, w) fam.
Proof.
  induction fam as [|[h u] fam IH]; simpl.
  - intros [H|[]]. now left.
  - destruct (form_eqb_spec h f) as [->|Hne]; simpl.
    + intros [H|H]; auto.
    + intros [H|H]; auto. destruct (IH H); auto.
Qed.

Lemma printable_set_form (f : form) (v : value) (fam : family) :
  toString v <> None -> printable fam -> printable (set_form f v fam).
Proof.
  intros Hv Hf g w Hin. apply set_form_in in Hin as [E|Hin].
  - now inversion E; subst.
  - eapply Hf; eauto.
Qed.

Lemma printable_compiles (fam : family) :
  printable fam -> exists s, createICUPlural fam = Some s.
Proof.
  intros Hf. unfold createICUPlural.
  destruct (sequence (map plural_part fam)) as [parts|] eqn:E; [eauto|].
  apply sequence_None in E. apply in_map_iff in E as ([f v] & Hp & Hin).
  apply plural_part_None in Hp. now destruct (Hf f v Hin).
Qed.

Lemma printable_compiles_inv (fam : family) (s : string) :
  createICUPlural fam = Some s -> printable fam.
Proof.
  unfold createICUPlural. intros H f v Hin Hv.
  destruct (sequence (map plural_part fam)) as [parts|] eqn:E; [|discriminate].
  assert (In None (map plural_part fam)) as HN.
  { apply in_map_iff. exists (f, v). split; [now apply plural_part_None | assumption]. }
  apply sequence_None in HN. congruence.
Qed.

Lemma add_form_fresh (pg : groups) (B : string) (f : form) (v : value) :
  B <> "__proto__" -> toString v <> None ->
  (forall K fam, In (K, fam) pg -> printable fam) ->
  exists pg1,
    add_form pg B f v fresh = Return pg1 fresh /\
    forall K fam, In (K, fam) pg1 -> printable fam.
Proof.
  intros HB Hv Hpg. apply String.eqb_neq in HB.
  assert (forall fam, printable fam ->
            forall K fam', In (K, fam') (define B (set_form f v fam) pg) ->
              printable fam') as Hdef.
  { intros fam Hfam K fam' Hin. apply in_define in Hin as [E|Hin].
    - inversion E; subst. now apply printable_set_form.
    - eapply Hpg; eauto. }
  unfold add_form, read_group. rewrite HB.
  destruct (lookup B pg) as [fam|] eqn:El.
  - eexists. split; [reflexivity|]. apply Hdef.
    apply lookup_In_pair in El. eapply Hpg; eauto.
  - assert (printable []) as Hnil by (intros ? ? []).
    destruct (is_prototype_method B); [eauto|].
    destruct (form_of_string B) as [g|]; simpl;
      (eexists; split; [reflexivity | exact (Hdef [] Hnil)]).
Qed.

Lemma scan_fresh (nested : value -> M obj) es : forall result pg,
  (forall k c, In (k, c) es ->
     ~ In "__proto__" (bases k) /\
     (parsePluralKey k <> None -> toString c <> None) /\
     (parsePluralKey k = None ->
      exists v', pass_value nested c fresh = Return v' fresh)) ->
  (forall K fam, In (K, fam) pg -> printable fam) ->
  exists result' pg',
    scan nested es result pg fresh = Return (result', pg') fresh /\
    forall K fam, In (K, fam) pg' -> printable fam.
Proof.
  induction es as [|[key c] es IH]; intros result pg Hes Hpg.
  - exists result, pg. split; [reflexivity | assumption].
  - destruct (Hes key c (in_eq _ _)) as (Hb & Hpl & Hpn).
    assert (forall k c, In (k, c) es ->
              ~ In "__proto__" (bases k) /\
              (parsePluralKey k <> None -> toString c <> None) /\
              (parsePluralKey k = None ->
               exists v', pass_value nested c fresh = Return v' fresh)) as Hes'
      by (intros k c' Hin; apply Hes; now right).
    destruct (parsePluralKey key) as [[b f]|] eqn:E.
    + rewrite (scan_cons_plural _ _ _ _ _ _ _ _ _ E). unfold bind.
      destruct (add_form_fresh pg b f c) as (pg1 & Ha & Hpg1);
        [eapply base_not_proto; eauto | apply Hpl; discriminate | assumption|].
      rewrite Ha. now apply IH.
    + rewrite (scan_cons_plain _ _ _ _ _ _ _ E). unfold bind.
      destruct (Hpn eq_refl) as [v' Hv']. rewrite Hv'. now apply IH.
Qed.

Lemma compile_groups_fresh gs : forall result,
  (forall K fam, In (K, fam) gs -> printable fam) ->
  exists result', compile_groups gs result fresh = Return result' fresh.
Proof.
  induction gs as [|[B fam] gs IH]; intros result Hgs.
  - now exists result.
  - simpl. unfold bind.
    destruct (printable_compiles fam) as [s Hs]; [apply (Hgs B); now left|].
    rewrite Hs. simpl. apply IH. intros K fam' Hin. apply (Hgs K). now right.
Qed.

Lemma tame_inv (es : obj) :
  tame (VObj es) ->
  forall k c, In (k, c) es ->
    ~ In "__proto__" (bases k) /\
    (parsePluralKey k <> None -> toString c <> None) /\
    (parsePluralKey k = None -> tame c).
Proof.
  intros H. inversion H as [v Hv|es' Hes]; subst; [now destruct (Hv es)|].
  assumption.
Qed.

Lemma groupPlurals_tame (n : nat) : forall t p g p',
  depth (VObj t) <= n -> tame (VObj t) ->
  groupPlurals t p = Return g p' ->
  forall k c, In (k, c) g -> ~ In "__proto__" (bases k) /\ tame c.
Proof.
  induction n as [|n IH]; intros t p g p' Hd Ht HG k v Hin.
  - pose proof (depth_obj_pos t). lia.
  - pose proof (tame_inv _ Ht) as Hes.
    destruct (groupPlurals_entries _ _ _ _ HG k v Hin)
      as [(Hk & c & q & q' & Hc & Hp)|(s & k' & f & -> & Hk' & Hp)].
    + split; [now rewrite (bases_plain _ Hk)|].
      destruct (Hes k c Hc) as (_ & _ & Htc). specialize (Htc Hk).
      apply pass_value_Return in Hp as [(es & r & -> & Hr & ->)|(_ & -> & _)];
        [|assumption].
      apply tame_obj. intros k1 c1 Hin1.
      destruct (IH es q r q' (depth_child _ _ _ _ Hd Hc) Htc Hr k1 c1 Hin1)
        as [Hb1 Ht1].
      split; [assumption|split; [|auto]].
      intros Hpl.
      destruct (groupPlurals_entries _ _ _ _ Hr k1 c1 Hin1)
        as [(Hk1 & _)|(s & _ & _ & -> & _)]; [contradiction | discriminate].
    + split; [|apply tame_leaf; discriminate].
      apply in_keys_entry in Hk' as [c' Hc'].
      destruct (Hes k' c' Hc') as (Hb & _). intros Hin'. apply Hb.
      eapply bases_trans; [exact Hin' | eapply bases_direct; eauto].
Qed.

Lemma groupPlurals_fresh (n : nat) : forall t,
  depth (VObj t) <= n -> tame (VObj t) ->
  exists g, groupPlurals t fresh = Return g fresh.
Proof.
  induction n as [|n IH]; intros t Hd Ht.
  - pose proof (depth_obj_pos t). lia.
  - pose proof (tame_inv _ Ht) as Hes.
    rewrite groupPlurals_unfold. unfold bind.
    destruct (scan_fresh groupPlurals_value t [] []) as (result & pg & Hs & Hpg).
    + intros k c Hin. destruct (Hes k c Hin) as (Hb & Hpl & Hpn).
      split; [assumption|split; [assumption|]].
      intros Hk. specialize (Hpn Hk).
      destruct c; try (eexists; reflexivity).
      destruct (IH entries (depth_child _ _ _ _ Hd Hin) Hpn) as [r Hr].
      exists (VObj r). unfold pass_value, bind.
      change (groupPlurals_value (VObj entries) fresh) with (groupPlurals entries fresh).
      now rewrite Hr.
    + intros K fam [].
    + rewrite Hs. simpl. now apply compile_groups_fresh.
Qed.

Lemma convert_entries_fresh (rec : obj -> M obj) es : forall result,
  (forall k c, In (k, c) es -> exists v', convertValue rec c fresh = Return v' fresh) ->
  exists out, convert_entries rec es result fresh = Return out fresh.
Proof.
  induction es as [|[key c] es IH]; intros result Hes.
  - now exists result.
  - simpl. unfold bind.
    destruct (Hes key c (in_eq _ _)) as [v' Hv']. rewrite Hv'.
    apply IH. intros k c' Hin. apply (Hes k c'). now right.
Qed.

Lemma convertTranslations_fuel_fresh (n : nat) : forall t,
  depth (VObj t) <= n -> tame (VObj t) ->
  exists out, convertTranslations_fuel n t fresh = Return out fresh.
Proof.
  induction n as [|n IH]; intros t Hd Ht.
  - pose proof (depth_obj_pos t). lia.
  - simpl. unfold bind.
    destruct (groupPlurals_fresh (S n) t Hd Ht) as [g HG]. rewrite HG.
    pose proof (proj2 (groupPlurals_depth (S n) t fresh Hd) g fresh HG) as Hdg.
    apply convert_entries_fresh. intros k c Hin.
    destruct (groupPlurals_tame (S n) t fresh g fresh Hd Ht HG k c Hin) as [_ Hc].
    destruct c; try (eexists; reflexivity).
    destruct (IH entries) as [out Hout]; [|assumption|].
    + apply (depth_child g k _ n); [lia | assumption].
    + exists (VObj out). unfold convertValue, bind. now rewrite Hout.
Qed.

(** X9.  When no key of the levels that are scanned has a chain of base
    keys reaching [__proto__], and every value under a plural key can
    be printed by a template literal, a call of [convertFile] made while
    [Object.prototype] has no property named by a plural form returns
    a tree, and leaves [Object.prototype] without such a property. *)
Theorem conversion_returns (data : obj) :
  tame (VObj data) ->
  exists out, convertFile data fresh = Return out fresh.
Proof.
  intros Ht. unfold convertFile, convertTranslations.
  now apply convertTranslations_fuel_fresh.
Qed.

Lemma conversion_returns_witness :
  exists out,
    convertFile
      [("constructor_one", VNull);
       ("a", VObj [("n_one", VArr [VNull; VNum "2"]); ("n_other", VObj [])])]
      fresh
    = Return out fresh.
Proof.
  apply conversion_returns.
  apply tame_obj. intros k c [E|[E|[]]]; inversion E; subst.
  - split; [vm_compute; intuition discriminate|].
    split; [discriminate|discriminate].
  - split; [vm_compute; tauto|].
    split; [intros H; now destruct H|]. intros _.
    apply tame_obj. intros k c [E'|[E'|[]]]; inversion E'; subst;
      (split; [vm_compute; intuition discriminate|]);
      (split; [discriminate | discriminate]).
Defined.

(** ** What is written on [Object.prototype] stays there *)

Lemma proto_get_set_form (f g : form) (v : held) (p : proto) :
  proto_get g (set_form f v p) = if form_eqb f g then Some v else proto_get g p.
Proof.
  induction p as [|[h w] p IH]; simpl.
  - destruct (form_eqb f g); reflexivity.
  - destruct (form_eqb_spec h f) as [->|Hne]; simpl.
    + destruct (form_eqb f g); reflexivity.
    + rewrite IH. destruct (form_eqb_spec h g) as [->|Hne']; [|reflexivity].
      destruct (form_eqb_spec f g) as [->|_]; [congruence | reflexivity].
Qed.

Lemma growing_bind {A B : Type} (m : M A) (k : A -> M B) :
  growing m -> (forall a, growing (k a)) -> growing (bind m k).
Proof.
  intros Hm Hk p b p' H f Hf.
  apply bind_Return in H as (a & p1 & H1 & H2).
  exact (Hk a p1 b p' H2 f (Hm p a p1 H1 f Hf)).
Qed.

Lemma growing_ret {A : Type} (a : A) : growing (ret a).
Proof. intros p b p' H f Hf. unfold ret in H. now inversion H; subst. Qed.

Lemma growing_eq {A : Type} (m m' : M A) :
  (forall p, m p = m' p) -> growing m' -> growing m.
Proof. intros E H p a p' Hr. rewrite E in Hr. exact (H p a p' Hr). Qed.

Lemma write_on_growing (g : form) (h : held) (f : form) (v : value) (p : proto)
    (x : form) :
  proto_get x p <> None -> proto_get x (write_on g h f v p) <> None.
Proof.
  intros Hx. unfold write_on.
  destruct (held_value h); try assumption;
    rewrite proto_get_set_form; destruct (form_eqb g x); [discriminate | assumption
                                                         | discriminate | assumption].
Qed.

Lemma add_form_growing (pg : groups) (B : string) (f : form) (v : value) :
  growing (add_form pg B f v).
Proof.
  intros p pg1 p' H x Hx. unfold add_form in H.
  destruct (read_group pg B p) as [fam| | |g h|];
    try (inversion H; subst; assumption).
  - inversion H; subst. rewrite proto_get_set_form.
    destruct (form_eqb f x); [discriminate | assumption].
  - destruct (truthy (held_value h)); [|inversion H; subst; assumption].
    destruct (held_value h) eqn:Eh; inversion H; subst;
      now apply write_on_growing.
Qed.

Lemma scan_growing (nested : value -> M obj) es :
  (forall k c, In (k, c) es -> growing (nested c)) ->
  forall result pg, growing (scan nested es result pg).
Proof.
  induction es as [|[key c] es IH]; intros Hes result pg.
  - apply growing_ret.
  - assert (forall k c, In (k, c) es -> growing (nested c)) as Hes'
      by (intros k c' Hin; apply (Hes k); now right).
    destruct (parsePluralKey key) as [[b f]|] eqn:E.
    + eapply growing_eq;
        [intros p; apply (scan_cons_plural _ _ _ _ _ _ _ _ _ E)|].
      apply growing_bind; [apply add_form_growing|].
      intros pg1. now apply IH.
    + eapply growing_eq;
        [intros p; apply (scan_cons_plain _ _ _ _ _ _ _ E)|].
      apply growing_bind.
      * destruct c; try apply growing_ret.
        unfold pass_value. apply growing_bind; [|intros; apply growing_ret].
        apply (Hes key). now left.
      * intros v1. now apply IH.
Qed.

Lemma compile_groups_growing gs : forall result, growing (compile_groups gs result).
Proof.
  intros result p out p' H f Hf.
  now destruct (compile_groups_Return _ _ _ _ _ H) as (-> & _).
Qed.

Lemma groupPlurals_growing (n : nat) : forall t,
  depth (VObj t) <= n -> growing (groupPlurals t).
Proof.
  induction n as [|n IH]; intros t Hd.
  - pose proof (depth_obj_pos t). lia.
  - eapply growing_eq; [intros p; apply groupPlurals_unfold|].
    apply growing_bind; [|intros rg; apply compile_groups_growing].
    apply scan_growing. intros k c Hin.
    destruct c; try apply growing_ret.
    apply (IH entries). exact (depth_child _ _ _ _ Hd Hin).
Qed.

Lemma convert_entries_growing (rec : obj -> M obj) :
  (forall o, growing (rec o)) ->
  forall es result, growing (convert_entries rec es result).
Proof.
  intros Hrec. induction es as [|[key c] es IH]; intros result.
  - apply growing_ret.
  - simpl. apply growing_bind; [|intros v; apply IH].
    destruct c; try apply growing_ret.
    unfold convertValue. apply growing_bind; [apply Hrec | intros; apply growing_ret].
Qed.

Lemma convertTranslations_fuel_growing (n : nat) : forall t,
  growing (convertTranslations_fuel n t).
Proof.
  induction n as [|n IH]; intros t; [intros p a p' H; discriminate|].
  simpl. apply growing_bind.
  - apply (groupPlurals_growing _ t (le_n _)).
  - intros g. now apply convert_entries_growing.
Qed.

Lemma add_form_no_family (pg : groups) (B : string) (f : form) (v : value)
    (p : proto) (pg1 : groups) (p1 : proto) :
  add_form pg B f v p = Return pg1 p1 ->
  lookup "__proto__" pg = None -> lookup "__proto__" pg1 = None.
Proof.
  intros H Hl. destruct (String.eqb_spec B "__proto__") as [->|Hne].
  - unfold add_form, read_group in H. rewrite Hl in H. simpl in H.
    now inversion H; subst.
  - now rewrite (add_form_lookup_other _ _ _ _ _ _ _ _ H Hne).
Qed.

Lemma scan_writes (nested : value -> M obj) es :
  (forall k c, In (k, c) es -> growing (nested c)) ->
  forall result pg p result' pg' p' k f,
    scan nested es result pg p = Return (result', pg') p' ->
    lookup "__proto__" pg = None ->
    In k (keys es) -> parsePluralKey k = Some ("__proto__", f) ->
    proto_get f p' <> None.
Proof.
  induction es as [|[key c] es IH]; intros Hes result pg p result' pg' p' k f H Hl Hin Hk;
    [destruct Hin|].
  assert (forall k c, In (k, c) es -> growing (nested c)) as Hes'
    by (intros k0 c' Hin0; apply (Hes k0); now right).
  destruct (parsePluralKey key) as [[b g]|] eqn:E.
  - rewrite (scan_cons_plural _ _ _ _ _ _ _ _ _ E) in H.
    apply bind_Return in H as (pg1 & p1 & Ha & H).
    pose proof (add_form_no_family _ _ _ _ _ _ _ Ha Hl) as Hl1.
    destruct Hin as [Heq|Hin]; [|exact (IH Hes' _ _ _ _ _ _ k f H Hl1 Hin Hk)].
    simpl in Heq. subst key. rewrite Hk in E. inversion E; subst b g.
    apply (scan_growing nested es Hes' _ _ _ _ _ H).
    unfold add_form, read_group in Ha. rewrite Hl in Ha. simpl in Ha.
    inversion Ha; subst. rewrite proto_get_set_form.
    destruct (form_eqb_spec f f); [discriminate | congruence].
  - rewrite (scan_cons_plain _ _ _ _ _ _ _ E) in H.
    apply bind_Return in H as (v1 & p1 & _ & H).
    destruct Hin as [Heq|Hin]; [simpl in Heq; congruence|].
    exact (IH Hes' _ _ _ _ _ _ k f H Hl Hin Hk).
Qed.

(** X15.  A top-level key with the base key [__proto__] makes the
    converter add a property, named by the plural form of the key, on
    [Object.prototype]; when the call returns, every property of
    [Object.prototype] that was there before is still there, and so is
    that one. *)
Theorem prototype_property_stays
    (t : obj) (p : proto) (out : obj) (p' : proto) :
  convertTranslations t p = Return out p' ->
  (forall f, proto_get f p <> None -> proto_get f p' <> None) /\
  (forall k f, In k (keys t) -> parsePluralKey k = Some ("__proto__", f) ->
     proto_get f p' <> None).
Proof.
  intros H. split.
  - exact (convertTranslations_fuel_growing _ t p out p' H).
  - intros k f Hin Hk. unfold convertTranslations in H.
    apply convertTranslations_fuel_Return in H as (m & g & p1 & _ & HG & Hc).
    apply (convert_entries_growing _ (convertTranslations_fuel_growing m) _ _ _ _ _ Hc).
    apply groupPlurals_Return in HG as (result & pg & p2 & Hs & Hcg).
    destruct (compile_groups_Return _ _ _ _ _ Hcg) as (-> & _).
    refine (scan_writes groupPlurals_value t _ _ _ _ _ _ _ k f Hs eq_refl Hin Hk).
    intros k0 c Hin0. destruct c; try apply growing_ret.
    apply (groupPlurals_growing _ entries (le_n _)).
Qed.

Lemma prototype_property_stays_witness :
  (forall f, proto_get f [(Two, hold VNull)] <> None ->
     proto_get f [(Two, hold VNull); (One, hold (VStr "x"))] <> None) /\
  (forall k f,
     In k (keys [("__proto___one", VStr "x"); ("a", VStr "y")]) ->
     parsePluralKey k = Some ("__proto__", f) ->
     proto_get f [(Two, hold VNull); (One, hold (VStr "x"))] <> None).
Proof.
  apply (prototype_property_stays
           [("__proto___one", VStr "x"); ("a", VStr "y")] [(Two, hold VNull)]
           [("a", VStr "y")] [(Two, hold VNull); (One, hold (VStr "x"))]).
  vm_compute. reflexivity.
Defined.

(** ** A member that cannot be printed *)

Lemma members_in (K : string) (es : obj) (k : string) (f : form) (v : value) :
  In (k, v) es -> parsePluralKey k = Some (K, f) -> In (f, v) (members K es).
Proof.
  intros Hin Hk. induction es as [|[key c] es IH]; [destruct Hin|].
  simpl. destruct Hin as [E|Hin].
  - inversion E; subst. rewrite Hk, String.eqb_refl. now left.
  - specialize (IH Hin). destruct (parsePluralKey key) as [[b g]|]; [|assumption].
    destruct (String.eqb b K); [now right | assumption].
Qed.

(** X18.  A top-level plural key whose value cannot be printed by a
    template literal (an object with an own property [toString], or a
    list that holds one) makes [convertFile] raise [TypeError], when
    its base key is neither [__proto__], nor the name of a method of
    [Object.prototype], nor the name of a plural form. *)
Theorem unprintable_member_raises
    (t : obj) (p : proto) (k K : string) (f : form) (v : value) :
  NoDup (keys t) -> In (k, v) t -> parsePluralKey k = Some (K, f) ->
  own_name K -> toString v = None ->
  exists p', convertFile t p = Throw TypeError p'.
Proof.
  intros Hnd Hin Hk HK Hv. unfold convertFile.
  assert (exists p', groupPlurals t p = Throw TypeError p') as [p' HG].
  { pose proof (proj1 (groupPlurals_depth _ t p (le_n _))) as Hh.
    destruct (groupPlurals t p) as [g p1|e p1|] eqn:HG.
    - exfalso. pose proof (members_in K t k f v Hin Hk) as Hm.
      destruct (pass_family _ _ _ _ K HG Hnd HK) as (s & Hs & _).
      + intros E. rewrite E in Hm. destruct Hm.
      + destruct (printable_compiles_inv (members K t) s Hs f v Hm Hv).
    - destruct e. now exists p1.
    - congruence. }
  exists p'. unfold convertTranslations.
  pose proof (depth_obj_pos t) as Hd.
  destruct (depth (VObj t)) as [|m]; [lia|].
  simpl. unfold bind. now rewrite HG.
Qed.

Lemma unprintable_member_raises_witness :
  exists p',
    convertFile
      [("a", VStr "x"); ("k_one", VArr [VObj [("toString", VNum "1")]])] fresh
    = Throw TypeError p'.
Proof.
  apply (unprintable_member_raises _ fresh "k_one" "k" One
           (VArr [VObj [("toString", VNum "1")]])).
  - repeat constructor; simpl; intuition discriminate.
  - right. now left.
  - reflexivity.
  - split; [discriminate | split; reflexivity].
  - reflexivity.
Defined.

(** ** The depth of the result *)

Lemma convert_entries_shallow (rec : obj -> M obj) (d : nat) es :
  (forall o q r q', depth (VObj o) <= d -> rec o q = Return r q' ->
     depth (VObj r) <= d) ->
  forall result p out p',
    shallow d es -> shallow d result ->
    convert_entries rec es result p = Return out p' -> shallow d out.
Proof.
  intros Hrec. induction es as [|[key c] es IH]; intros result p out p' Hes Hr H.
  - simpl in H. unfold ret in H. now inversion H; subst.
  - inversion Hes as [|? ? Hc Hes']; subst. simpl in Hc.
    simpl in H. apply bind_Return in H as (v & p1 & Hv & H).
    apply (IH _ _ _ _ Hes') in H; [assumption|].
    apply shallow_assign; [assumption|].
    destruct c; simpl in Hv; unfold ret in Hv;
      try (inversion Hv; subst; simpl; lia).
    apply bind_Return in Hv as (r & p2 & Hr' & Hv).
    unfold ret in Hv. inversion Hv; subst. eapply Hrec; eauto.
Qed.

Lemma convertTranslations_fuel_depth (n : nat) : forall t p out p',
  depth (VObj t) <= n ->
  convertTranslations_fuel n t p = Return out p' ->
  depth (VObj out) <= depth (VObj t).
Proof.
  induction n as [|n IH]; intros t p out p' Hd H; [discriminate|].
  apply convertTranslations_fuel_Return in H as (m & g & p1 & Hm & HG & Hc).
  inversion Hm; subst m.
  pose proof (proj2 (groupPlurals_depth _ t p Hd) g p1 HG) as Hdg.
  pose proof (depth_obj_pos t) as Hpos.
  destruct (depth (VObj t)) as [|d] eqn:Ed; [lia|].
  apply depth_obj. apply depth_obj in Hdg.
  apply (convert_entries_shallow (convertTranslations_fuel n) d g)
    with (result := []) (p := p1) (p' := p'); [|assumption|constructor|assumption].
  intros o q r q' Ho Hr.
  assert (depth (VObj o) <= n) as Hon by lia.
  pose proof (IH o q r q' Hon Hr). lia.
Qed.

(** X16.  The recursion of [convertTranslations] goes no deeper than
    the nesting of its argument, so every call ends, and the tree it
    returns is no deeper than its argument. *)
Theorem conversion_ends_no_deeper (t : obj) (p : proto) :
  convertTranslations t p <> OutOfFuel /\
  (forall n, depth (VObj t) <= n ->
     convertTranslations_fuel n t p = convertTranslations t p) /\
  (forall out p', convertTranslations t p = Return out p' ->
     depth (VObj out) <= depth (VObj t)).
Proof.
  split; [apply convertTranslations_halts|split].
  - intros n Hn. now apply convertTranslations_fuel_more.
  - intros out p' H. exact (convertTranslations_fuel_depth _ t p out p' (le_n _) H).
Qed.

Lemma conversion_ends_no_deeper_witness :
  convertTranslations_fuel 5 [("a", VObj [("b_one", VObj [("c", VNull)])])] fresh
  = convertTranslations [("a", VObj [("b_one", VObj [("c", VNull)])])] fresh /\
  depth (VObj [("a", VObj [("b", VStr "{count, plural, one{[object Object]}}")])])
  <= depth (VObj [("a", VObj [("b_one", VObj [("c", VNull)])])]).
Proof.
  destruct (conversion_ends_no_deeper
              [("a", VObj [("b_one", VObj [("c", VNull)])])] fresh)
    as (_ & Hfuel & Hdepth).
  split.
  - apply Hfuel. simpl. lia.
  - apply (Hdepth _ fresh). vm_compute. reflexivity.
Defined.

(** ** Grouping a level without plural keys *)

(** X17.  [groupPlurals] returns its argument as it is, in the same
    order, when no key at any level matches the plural pattern, is
    [__proto__] or is an array index, and the keys of a level are
    distinct. *)
Theorem grouping_without_plurals (t : obj) (p : proto) :
  simple_tree (VObj t) -> groupPlurals t p = Return t p.
Proof. intros Hs. now apply (groupPlurals_simple _ t p (le_n _)). Qed.

Lemma grouping_without_plurals_witness :
  groupPlurals [("b", VStr "{{x}}"); ("a", VObj [("c_other_x", VNull)])] fresh
  = Return [("b", VStr "{{x}}"); ("a", VObj [("c_other_x", VNull)])] fresh.
Proof.
  apply grouping_without_plurals.
  apply simple_obj; [repeat constructor; simpl; intuition discriminate|].
  intros k c [E|[E|[]]]; inversion E; subst;
    (split; [reflexivity | split; [discriminate | split; [reflexivity|]]]).
  - apply simple_leaf. discriminate.
  - apply simple_obj; [repeat constructor; simpl; intuition discriminate|].
    intros k c [E'|[]]; inversion E'; subst.
    split; [reflexivity | split; [discriminate | split; [reflexivity|]]].
    apply simple_leaf; discriminate.
Defined.

(** ** A plain key that is also a base key *)

(** X19.  At every level reached through kept keys that has a plain key
    [foo] and members of a settled family [foo] whose base key
    [pluralGroups] does not inherit: the output under [foo] is the leaf
    rewriting of the expression compiled from the family, and not the
    value of the plain key, which the second loop of [groupPlurals]
    overwrites. *)
Theorem plural_overwrites_plain_key
    (path : list string) (t l : obj) (p : proto) (out : obj) (p' : proto)
    (foo : string) (v : value) :
  convertTranslations t p = Return out p' ->
  level_at path t l ->
  lookup foo l = Some v -> parsePluralKey foo = None ->
  own_name foo -> settled path l foo -> members foo l <> [] ->
  exists out_l s,
    sub_at path (VObj out) = Some (VObj out_l) /\
    createICUPlural (members foo l) = Some s /\
    lookup foo out_l = Some (VStr (convertNesting (convertInterpolation s))).
Proof.
  intros H Hlv _ _ HK Hset Hne.
  destruct (level_family _ _ _ _ _ _ foo H Hlv HK Hset Hne)
    as (out_l & s & Hsub & _ & Hs & Hl).
  exists out_l, s. auto.
Qed.

Lemma plural_overwrites_plain_key_witness :
  exists out_l s,
    sub_at ["n"] (VObj [("n", VObj [("foo", VStr "{count, plural, other{n}}")])])
    = Some (VObj out_l) /\
    createICUPlural (members "foo" [("foo", VStr "x"); ("foo_other", VStr "{{n}}")])
    = Some s /\
    lookup "foo" out_l = Some (VStr (convertNesting (convertInterpolation s))).
Proof.
  apply (plural_overwrites_plain_key
           ["n"] [("n", VObj [("foo", VStr "x"); ("foo_other", VStr "{{n}}")])]
           [("foo", VStr "x"); ("foo_other", VStr "{{n}}")] fresh
           [("n", VObj [("foo", VStr "{count, plural, other{n}}")])] fresh
           "foo" (VStr "x")).
  - vm_compute. reflexivity.
  - apply level_down with (c := [("foo", VStr "x"); ("foo_other", VStr "{{n}}")]).
    + repeat constructor; simpl; intuition discriminate.
    + split; [reflexivity | split; [discriminate|]].
      intros k' [<-|[]]. vm_compute. tauto.
    + reflexivity.
    + apply level_here. repeat constructor; simpl; intuition discriminate.
  - reflexivity.
  - reflexivity.
  - split; [discriminate | split; reflexivity].
  - right. split; [reflexivity|].
    intros k' [<-|[<-|[]]]; vm_compute; tauto.
  - discriminate.
Defined.
